(** * DashboardState: the shared-year mediator of the storm dashboard

    A shallow embedding of [src/js/dashboard-state.js] (class
    [DashboardState]) and the properties of its operations.

    Modelling choices, each following the source:
    - [this.state] is a JavaScript object used as a bag of named values: a
      [gmap string prim].  The bag holds primitive values other than
      strings; numbers are integers or NaN (the years of the dashboard),
      and the relational operators of [updateYear] are those of ECMAScript
      on these primitives.
      The bag is a plain object: a key that it does not hold is looked
      up in its prototype, [Object.prototype] from the literal of the
      constructor, whose members ([constructor], [toString], ...) are
      read through the bag and whose accessor [__proto__] receives the
      assignments to that key; [Object.prototype] itself is taken as the
      language defines it.
    - [this.views] is a [Map] traversed by [forEach]: an association list in
      insertion order, with the update-in-place behaviour of [Map.set].
    - [this.listeners] is a [Map] from event names to arrays of callbacks and
      is only ever accessed by key: a [gmap string (list callback)].
      The operations of the class are first given for callbacks that make
      no call on the mediator while they run, for which the array
      traversed by [triggerListeners] cannot change under the traversal;
      module [Live] gives the dispatch over the live array, for callbacks
      that add and remove listeners while they are notified, and the two
      are proved to agree on the former.
    - views and callbacks are foreign objects: a view has an identity, an
      optional [signal] member and an optional [run] member, and a call to
      a member either returns or throws.
    - every operation is a computation in a small monad over the world (the
      mediator, the page's [yearDisplay] element and the object heap) that
      completes normally or abruptly and emits the calls it makes on views,
      callbacks and the console.
    - [prepareSpec] works on a heap of mutable objects, since its contract
      is about copying and aliasing; the specifications it copies are JSON
      documents whose numbers are integers.
    - the awaited calls of [loadVisualization] ([fetch], [response.json()],
      [vegaEmbed]) are answers of the page: each settles normally or throws
      at its [await]. *)

From Stdlib Require Import ZArith Lia.
From stdpp Require Import gmap strings list fin_maps.

Local Open Scope Z_scope.
#[local] Set Warnings "-register-all".

(** ** Primitive values and the relational operators *)

Inductive prim :=
| VUndefined
| VNull
| VBoolean (b : bool)
| VNumber (n : Z)
| VNaN.

#[global] Instance prim_eq_dec : EqDecision prim.
Proof. solve_decision. Defined.

(** ECMAScript [ToNumber]; [None] stands for NaN. *)
Definition ToNumber (v : prim) : option Z :=
  match v with
  | VUndefined => None
  | VNull => Some 0
  | VBoolean b => Some (if b then 1 else 0)
  | VNumber n => Some n
  | VNaN => None
  end.

(** [a >= b] and [a <= b]: false as soon as one operand converts to NaN. *)
Definition js_ge (a b : prim) : bool :=
  match ToNumber a, ToNumber b with
  | Some x, Some y => y <=? x
  | _, _ => false
  end.

Definition js_le (a b : prim) : bool :=
  match ToNumber a, ToNumber b with
  | Some x, Some y => x <=? y
  | _, _ => false
  end.

(** [ToBoolean] on primitives. *)
Definition truthy (v : prim) : bool :=
  match v with
  | VUndefined | VNull | VNaN => false
  | VBoolean b => b
  | VNumber n => negb (n =? 0)
  end.

(** ** Foreign objects: exceptions, views, callbacks *)

(** A thrown value, identified by a description. *)
Abbreviation exn := string (only parsing).

Inductive outcome :=
| Returns
| Raises (e : exn).

(** A chart view as the mediator sees it.  [view_signal = None] means that
    [typeof view.signal] is not ['function'], [view_run = None] that
    [view.run] cannot be called. *)
Record view_obj := {
  view_id : nat;
  view_signal : option (string -> prim -> outcome);
  view_run : option outcome
}.

(** What a caller may pass as [view]. *)
Inductive handle :=
| Falsy
| Handle (v : view_obj).

(** What [this.state[key]] evaluates to: a value held by the bag, or the
    member [name] of [Object.prototype] (a built-in function; for
    ["__proto__"], the prototype object itself). *)
Inductive reading :=
| Own (p : prim)
| Inherited (name : string).

Coercion Own : prim >-> reading.

(** The two payload shapes built by the mediator:
    [{ oldYear, newYear }] and [{ key, oldValue, newValue }]. *)
Inductive payload :=
| YearChange (oldYear newYear : prim)
| StateChange (key : string) (oldValue : reading) (newValue : prim).

(** A callback has an identity (callbacks are compared with [===]) and,
    on a payload, returns or throws.  What it calls on the mediator while
    it runs is described apart, by a [Live.reentry]. *)
Record callback := {
  cb_id : nat;
  cb_call : payload -> outcome
}.

(** Console messages, one constructor per call site of the source. *)
Inductive message :=
| MsgInitialized (st : gmap string prim)
| MsgYearUpdated (oldYear newYear : prim)
| MsgViewRegistered (name : string)
| MsgInvalidView (name : string)
| MsgViewUnregistered (name : string)
| MsgUpdateViewError (name : string) (e : exn)
| MsgListenerError (event : string) (e : exn)
| MsgLoaded (viewName : string)
| MsgLoadError (viewName : string) (e : exn).

(** Observable actions of the mediator on its environment. *)
Inductive event :=
| CallSignal (view : nat) (signal : string) (value : prim)
| CallRun (view : nat)
| CallCallback (cb : nat) (data : payload)
| CallFetch (path : string)
| CallEmbed (container : string)
| ConsoleLog (m : message)
| ConsoleError (m : message).

(** ** The object heap used by [prepareSpec] *)

Abbreviation loc := nat (only parsing).

Inductive hval :=
| HPrim (p : prim)
| HStr (s : string)
| HRef (l : loc).

(** An array (elements and own named properties) or a plain object
    (properties in insertion order). *)
Inductive hobj :=
| HArr (elems : list hval) (props : list (string * hval))
| HObj (fields : list (string * hval)).

Abbreviation heap := (list hobj) (only parsing).

(** ** The mediator and its world *)

(** The prototype of the object [this.state]. *)
Inductive prototype :=
| ObjectPrototype
| NullPrototype.

(** [state] holds the own properties of [this.state], [state_proto] its
    prototype. *)
Record DashboardState := {
  state : gmap string prim;
  state_proto : prototype;
  views : list (string * handle);
  listeners : gmap string (list callback)
}.

(** The page holds at most one [globalYear] slider and one [yearDisplay]
    element; [None] means that [getElementById] finds nothing, [Some v] that
    the element shows the value last assigned to it. *)
Record world := {
  this : DashboardState;
  yearSlider : option prim;
  yearDisplay : option prim;
  store : heap
}.

(** [constructor()] *)
Definition constructor : DashboardState :=
  {| state := <["endYear" := VNumber 2025]>
                (<["startYear" := VNumber 2005]>
                  (<["currentYear" := VNumber 2010]> ∅));
     state_proto := ObjectPrototype;
     views := [];
     listeners := ∅ |}.

Definition initial_world (slider display : option prim) : world :=
  {| this := constructor; yearSlider := slider; yearDisplay := display;
     store := [] |}.

(** [this.state.currentYear], [this.state.startYear] and
    [this.state.endYear], the keys that the class reads by name: none is
    the name of a member of [Object.prototype], so that an absent property
    reads as [undefined]. *)
Definition read_state (d : DashboardState) (key : string) : prim :=
  default VUndefined (state d !! key).

(** ** The monad of operations *)

Inductive completion (A : Type) :=
| Normal (a : A)
| Throw (e : exn).
Arguments Normal {A} a.
Arguments Throw {A} e.

Definition M (A : Type) : Type := world -> completion A * world * list event.

Definition ret {A} (a : A) : M A := fun w => (Normal a, w, []).

Definition bind {A B} (m : M A) (k : A -> M B) : M B :=
  fun w =>
    match m w with
    | (Normal a, w1, evs1) =>
        let '(r, w2, evs2) := k a w1 in (r, w2, evs1 ++ evs2)
    | (Throw e, w1, evs1) => (Throw e, w1, evs1)
    end.

Definition throw {A} (e : exn) : M A := fun w => (Throw e, w, []).

(** [try { m } catch (error) { handler error }] *)
Definition try_catch {A} (m : M A) (handler : exn -> M A) : M A :=
  fun w =>
    match m w with
    | (Normal a, w1, evs1) => (Normal a, w1, evs1)
    | (Throw e, w1, evs1) =>
        let '(r, w2, evs2) := handler e w1 in (r, w2, evs1 ++ evs2)
    end.

Definition emit (ev : event) : M unit := fun w => (Normal tt, w, [ev]).

Definition get_this : M DashboardState := fun w => (Normal (this w), w, []).

Definition modify_this (f : DashboardState -> DashboardState) : M unit :=
  fun w => (Normal tt,
            {| this := f (this w); yearSlider := yearSlider w;
               yearDisplay := yearDisplay w; store := store w |},
            []).

Notation "'let!' x ':=' m 'in' k" := (bind m (fun x => k))
  (at level 10, x name, m at level 100, k at level 200, only parsing).
Notation "m '>>' k" := (bind m (fun _ => k))
  (at level 100, k at level 200, right associativity, only parsing).

(** [array.forEach(f)] and [map.forEach(f)] *)
Fixpoint forEach {A} (f : A -> M unit) (l : list A) : M unit :=
  match l with
  | [] => ret tt
  | x :: l' => f x >> forEach f l'
  end.

(** A call to a foreign function: emit the call, then return or throw. *)
Definition call (ev : event) (o : outcome) : M unit :=
  emit ev >>
  match o with
  | Returns => ret tt
  | Raises e => throw e
  end.

(** ** [Map] as an insertion-ordered association list *)

Fixpoint map_set {V} (k : string) (v : V) (m : list (string * V)) : list (string * V) :=
  match m with
  | [] => [(k, v)]
  | (k', v') :: m' =>
      if decide (k = k') then (k, v) :: m' else (k', v') :: map_set k v m'
  end.

Fixpoint map_get {V} (k : string) (m : list (string * V)) : option V :=
  match m with
  | [] => None
  | (k', v') :: m' => if decide (k = k') then Some v' else map_get k m'
  end.

Fixpoint map_delete {V} (k : string) (m : list (string * V)) : list (string * V) :=
  match m with
  | [] => []
  | (k', v') :: m' =>
      if decide (k = k') then m' else (k', v') :: map_delete k m'
  end.

(** ** Operations of [DashboardState] *)

Definition with_state (f : gmap string prim -> gmap string prim)
    (d : DashboardState) : DashboardState :=
  {| state := f (state d); state_proto := state_proto d;
     views := views d; listeners := listeners d |}.

Definition with_views (f : list (string * handle) -> list (string * handle))
    (d : DashboardState) : DashboardState :=
  {| state := state d; state_proto := state_proto d;
     views := f (views d); listeners := listeners d |}.

Definition with_listeners
    (f : gmap string (list callback) -> gmap string (list callback))
    (d : DashboardState) : DashboardState :=
  {| state := state d; state_proto := state_proto d;
     views := views d; listeners := f (listeners d) |}.

(** The names of the members of [Object.prototype]. *)
Definition object_prototype_names : list string :=
  ["constructor"; "hasOwnProperty"; "isPrototypeOf"; "propertyIsEnumerable";
   "toLocaleString"; "toString"; "valueOf"; "__proto__";
   "__defineGetter__"; "__defineSetter__"; "__lookupGetter__"; "__lookupSetter__"].

(** [this.state[key]]: the own property, else the member of the prototype
    when there is one, else [undefined]. *)
Definition get_state (d : DashboardState) (key : string) : reading :=
  match state d !! key with
  | Some p => Own p
  | None =>
      match state_proto d with
      | ObjectPrototype =>
          if bool_decide (key ∈ object_prototype_names) then Inherited key
          else Own VUndefined
      | NullPrototype => Own VUndefined
      end
  end.

(** An assignment to [key] reaches the setter of [Object.prototype.__proto__]:
    the key is ["__proto__"], the bag has no own property of that name and
    its prototype is still [Object.prototype]. *)
Definition reaches_proto_setter (d : DashboardState) (key : string) : bool :=
  bool_decide (key = "__proto__") &&
  match state d !! key, state_proto d with
  | None, ObjectPrototype => true
  | _, _ => false
  end.

(** [this.state[key] = value]: the setter of [__proto__] changes the
    prototype when it is given [null] and ignores every other primitive
    value; any other assignment writes an own property (the members of
    [Object.prototype] are writable, so that a key of the same name is
    created in the bag). *)
Definition set_state (key : string) (value : prim) (d : DashboardState)
    : DashboardState :=
  if reaches_proto_setter d key then
    match value with
    | VNull =>
        {| state := state d; state_proto := NullPrototype;
           views := views d; listeners := listeners d |}
    | _ => d
    end
  else with_state (insert key value) d.

(** [const yearDisplay = document.getElementById('yearDisplay');
     if (yearDisplay) { yearDisplay.textContent = v; }] *)
Definition show_year (v : prim) : M unit :=
  fun w => (Normal tt,
            {| this := this w; yearSlider := yearSlider w;
               yearDisplay := (fun _ => v) <$> yearDisplay w; store := store w |},
            []).

(** [init()]: binds the controls when both are on the page.  The input
    handler it installs calls [updateYear] with the parsed slider value. *)
Definition init : M unit :=
  fun w =>
    let cur := read_state (this w) "currentYear" in
    let w' :=
      match yearSlider w, yearDisplay w with
      | Some _, Some _ =>
          {| this := this w; yearSlider := Some cur; yearDisplay := Some cur;
             store := store w |}
      | _, _ => w
      end in
    (Normal tt, w', [ConsoleLog (MsgInitialized (state (this w)))]).

(** [view.run()]; calling a member that is not a function is a TypeError. *)
Definition call_run (v : view_obj) : M unit :=
  match view_run v with
  | Some o => call (CallRun (view_id v)) o
  | None => throw "TypeError: view.run is not a function"
  end.

(** [view.signal('globalYear', this.state.currentYear); view.run();] *)
Definition push_current (v : view_obj) (sig : string -> prim -> outcome) : M unit :=
  let! d := get_this in
  let cur := read_state d "currentYear" in
  call (CallSignal (view_id v) "globalYear" cur) (sig "globalYear" cur) >>
  call_run v.

(** The callback of [this.views.forEach] in [updateAllViews]. *)
Definition update_view (entry : string * handle) : M unit :=
  let '(name, view) := entry in
  try_catch
    (match view with
     | Handle v =>
         match view_signal v with
         | Some sig => push_current v sig
         | None => ret tt
         end
     | Falsy => ret tt
     end)
    (fun error => emit (ConsoleError (MsgUpdateViewError name error))).

Definition updateAllViews : M unit :=
  let! d := get_this in
  forEach update_view (views d).

Definition registerView (name : string) (view : handle) : M unit :=
  match view with
  | Handle v =>
      match view_signal v with
      | Some sig =>
          modify_this (with_views (map_set name view)) >>
          push_current v sig >>
          emit (ConsoleLog (MsgViewRegistered name))
      | None => emit (ConsoleError (MsgInvalidView name))
      end
  | Falsy => emit (ConsoleError (MsgInvalidView name))
  end.

Definition unregisterView (name : string) : M unit :=
  modify_this (with_views (map_delete name)) >>
  emit (ConsoleLog (MsgViewUnregistered name)).

(** [if (!this.listeners.has(event)) this.listeners.set(event, []);
     this.listeners.get(event).push(callback);] *)
Definition addEventListener (event : string) (cb : callback) : M unit :=
  modify_this (with_listeners (fun ls =>
    <[event := default [] (ls !! event) ++ [cb]]> ls)).

(** [callbacks.indexOf(callback)] followed by [splice(index, 1)]:
    callbacks are compared by identity. *)
Fixpoint remove_first (i : nat) (cbs : list callback) : list callback :=
  match cbs with
  | [] => []
  | c :: cbs' =>
      if decide (cb_id c = i) then cbs' else c :: remove_first i cbs'
  end.

Definition removeEventListener (event : string) (cb : callback) : M unit :=
  modify_this (with_listeners (fun ls =>
    match ls !! event with
    | Some cbs => <[event := remove_first (cb_id cb) cbs]> ls
    | None => ls
    end)).

(** The callback of [forEach] in [triggerListeners], for a callback that
    makes no call on the mediator. *)
Definition notify (event : string) (data : payload) (cb : callback) : M unit :=
  try_catch
    (call (CallCallback (cb_id cb) data) (cb_call cb data))
    (fun error => emit (ConsoleError (MsgListenerError event error))).

(** [triggerListeners] when the callbacks make no call on the mediator:
    the array is then the same at every step of [forEach], which visits
    its elements in order.  [Live.triggerListeners] is the traversal of
    the live array. *)
Definition triggerListeners (event : string) (data : payload) : M unit :=
  let! d := get_this in
  match listeners d !! event with
  | Some cbs => forEach (notify event data) cbs
  | None => ret tt
  end.

Definition updateYear (newYear : prim) : M unit :=
  let! d := get_this in
  if js_ge newYear (read_state d "startYear")
     && js_le newYear (read_state d "endYear")
  then
    let oldYear := read_state d "currentYear" in
    modify_this (with_state (insert "currentYear" newYear)) >>
    show_year newYear >>
    updateAllViews >>
    triggerListeners "yearChange" (YearChange oldYear newYear) >>
    emit (ConsoleLog (MsgYearUpdated oldYear newYear))
  else ret tt.

Definition getState : M (gmap string prim) :=
  let! d := get_this in ret (state d).

Definition getValue (key : string) : M reading :=
  let! d := get_this in ret (get_state d key).

Definition setValue (key : string) (value : prim) : M unit :=
  let! d := get_this in
  let oldValue := get_state d key in
  modify_this (set_state key value) >>
  (if decide (key = "currentYear") then updateAllViews else ret tt) >>
  triggerListeners "stateChange" (StateChange key oldValue value).

(** ** Listeners that call the mediator while they are notified

    A callback is foreign code: while it runs it can call the mediator.
    The calls that change the array under traversal in [triggerListeners]
    are [addEventListener] and [removeEventListener]; which of them a
    callback makes on a payload, before it returns or throws, is given by
    a function of type [reentry].  The array is the one held by the [Map]
    when the traversal starts: [forEach] reads its length once and then
    visits the indices below it, each time reading the element that is at
    the index by then, so that an element moved to the front by a
    [splice] is passed over and an element pushed meanwhile is visited
    only when a removal has made room below the first length.  A callback
    that starts a dispatch of its own ([updateYear], [setValue],
    [triggerListeners]) is not described here. *)
Module Live.

Inductive call :=
| Add (event : string) (cb : callback)
| Remove (event : string) (cb : callback).

Definition reentry : Type := callback -> payload -> list call.

Definition run_call (c : call) : M unit :=
  match c with
  | Add event cb => addEventListener event cb
  | Remove event cb => removeEventListener event cb
  end.

(** [callback(data)]: the calls made on the mediator, then the end of the
    callback. *)
Definition invoke (calls : reentry) (data : payload) (cb : callback) : M unit :=
  emit (CallCallback (cb_id cb) data) >>
  forEach run_call (calls cb data) >>
  match cb_call cb data with
  | Returns => ret tt
  | Raises e => throw e
  end.

(** The callback of [forEach] in [triggerListeners]. *)
Definition notify (calls : reentry) (event : string) (data : payload)
    (cb : callback) : M unit :=
  try_catch
    (invoke calls data cb)
    (fun error => emit (ConsoleError (MsgListenerError event error))).

(** The steps of [forEach] at the indices [k], [k + 1], ..., [k + n - 1]
    of the array registered for [event]. *)
Fixpoint visit (calls : reentry) (event : string) (data : payload)
    (k n : nat) : M unit :=
  match n with
  | O => ret tt
  | S n' =>
      (let! d := get_this in
       match default [] (listeners d !! event) !! k with
       | Some cb => notify calls event data cb
       | None => ret tt
       end) >>
      visit calls event data (S k) n'
  end.

Definition triggerListeners (calls : reentry) (event : string) (data : payload)
    : M unit :=
  let! d := get_this in
  match listeners d !! event with
  | Some cbs => visit calls event data 0 (length cbs)
  | None => ret tt
  end.

Definition updateYear (calls : reentry) (newYear : prim) : M unit :=
  let! d := get_this in
  if js_ge newYear (read_state d "startYear")
     && js_le newYear (read_state d "endYear")
  then
    let oldYear := read_state d "currentYear" in
    modify_this (with_state (insert "currentYear" newYear)) >>
    show_year newYear >>
    updateAllViews >>
    triggerListeners calls "yearChange" (YearChange oldYear newYear) >>
    emit (ConsoleLog (MsgYearUpdated oldYear newYear))
  else ret tt.

Definition setValue (calls : reentry) (key : string) (value : prim) : M unit :=
  let! d := get_this in
  let oldValue := get_state d key in
  modify_this (set_state key value) >>
  (if decide (key = "currentYear") then updateAllViews else ret tt) >>
  triggerListeners calls "stateChange" (StateChange key oldValue value).

(** The callbacks of [cbs] make no call on the mediator. *)
Definition passive (calls : reentry) (cbs : list callback) : Prop :=
  forall cb data, cb ∈ cbs -> calls cb data = [].

(** No callback makes a call on the mediator. *)
Definition silent : reentry := fun _ _ => [].

End Live.

(** ** JSON documents and the heap *)

Inductive json :=
| JNull
| JBool (b : bool)
| JNum (n : Z)
| JStr (s : string)
| JArr (items : list json)
| JObj (members : list (string * json)).

(** The traversal of [JSON.stringify]: [None] when the structure is
    circular, [Some None] when the value is [undefined] (which an object
    omits and an array prints as [null]).  NaN prints as [null]; the named
    properties of an array are not printed. *)
Fixpoint serialize_items (ser : hval -> option (option json)) (vs : list hval)
    : option (list json) :=
  match vs with
  | [] => Some []
  | v :: vs' =>
      match ser v, serialize_items ser vs' with
      | Some o, Some ts => Some (default JNull o :: ts)
      | _, _ => None
      end
  end.

Fixpoint serialize_members (ser : hval -> option (option json))
    (fs : list (string * hval)) : option (list (string * json)) :=
  match fs with
  | [] => Some []
  | (k, v) :: fs' =>
      match ser v, serialize_members ser fs' with
      | Some (Some t), Some ms => Some ((k, t) :: ms)
      | Some None, Some ms => Some ms
      | _, _ => None
      end
  end.

Fixpoint serialize (fuel : nat) (h : heap) (v : hval) : option (option json) :=
  match v with
  | HPrim VUndefined => Some None
  | HPrim VNull => Some (Some JNull)
  | HPrim (VBoolean b) => Some (Some (JBool b))
  | HPrim (VNumber n) => Some (Some (JNum n))
  | HPrim VNaN => Some (Some JNull)
  | HStr s => Some (Some (JStr s))
  | HRef l =>
      match fuel with
      | O => None
      | S fuel' =>
          match h !! l with
          | Some (HArr elems _) =>
              match serialize_items (serialize fuel' h) elems with
              | Some ts => Some (Some (JArr ts))
              | None => None
              end
          | Some (HObj fields) =>
              match serialize_members (serialize fuel' h) fields with
              | Some ms => Some (Some (JObj ms))
              | None => None
              end
          | None => None
          end
      end
  end.

(** A chain of distinct references is no longer than the heap, so this
    much fuel fails on circular structures only. *)
Definition JSON_stringify (h : heap) (v : hval) : option (option json) :=
  serialize (length h) h v.

(** The allocation done by [JSON.parse]: every array and object of the
    document becomes a new heap object. *)
Fixpoint revive (t : json) (h : heap) : heap * hval :=
  match t with
  | JNull => (h, HPrim VNull)
  | JBool b => (h, HPrim (VBoolean b))
  | JNum n => (h, HPrim (VNumber n))
  | JStr s => (h, HStr s)
  | JArr items =>
      let '(h1, vs) :=
        (fix revive_items (ts : list json) (h : heap) : heap * list hval :=
           match ts with
           | [] => (h, [])
           | t :: ts' =>
               let '(h1, v) := revive t h in
               let '(h2, vs) := revive_items ts' h1 in
               (h2, v :: vs)
           end) items h in
      (h1 ++ [HArr vs []], HRef (length h1))
  | JObj members =>
      let '(h1, fs) :=
        (fix revive_members (ms : list (string * json)) (h : heap)
             : heap * list (string * hval) :=
           match ms with
           | [] => (h, [])
           | (k, t) :: ms' =>
               let '(h1, v) := revive t h in
               let '(h2, fs) := revive_members ms' h1 in
               (h2, (k, v) :: fs)
           end) members h in
      (h1 ++ [HObj fs], HRef (length h1))
  end.

Fixpoint revive_items (ts : list json) (h : heap) : heap * list hval :=
  match ts with
  | [] => (h, [])
  | t :: ts' =>
      let '(h1, v) := revive t h in
      let '(h2, vs) := revive_items ts' h1 in
      (h2, v :: vs)
  end.

Fixpoint revive_members (ms : list (string * json)) (h : heap)
    : heap * list (string * hval) :=
  match ms with
  | [] => (h, [])
  | (k, t) :: ms' =>
      let '(h1, v) := revive t h in
      let '(h2, fs) := revive_members ms' h1 in
      (h2, (k, v) :: fs)
  end.

(** [ToBoolean] on heap values. *)
Definition truthy_hval (v : hval) : bool :=
  match v with
  | HPrim p => truthy p
  | HStr s => negb (bool_decide (s = ""))
  | HRef _ => true
  end.

(** [v[k]] for the member names that the source reads ([params], [name]):
    an own property of an object or of an array, [undefined] on a number,
    a boolean or a string, a TypeError on [null] and [undefined]. *)
Definition get_member (h : heap) (v : hval) (k : string) : completion hval :=
  match v with
  | HPrim VUndefined | HPrim VNull =>
      Throw "TypeError: cannot read properties of null or undefined"
  | HPrim _ | HStr _ => Normal (HPrim VUndefined)
  | HRef l =>
      match h !! l with
      | Some (HObj fields) => Normal (default (HPrim VUndefined) (map_get k fields))
      | Some (HArr _ props) => Normal (default (HPrim VUndefined) (map_get k props))
      | None => Throw "ReferenceError: no such object"
      end
  end.

(** [v[k] = x] in strict mode (the body of a class): a TypeError on every
    primitive. *)
Definition set_member (h : heap) (v : hval) (k : string) (x : hval) : completion heap :=
  match v with
  | HRef l =>
      match h !! l with
      | Some (HObj fields) => Normal (<[l := HObj (map_set k x fields)]> h)
      | Some (HArr elems props) => Normal (<[l := HArr elems (map_set k x props)]> h)
      | None => Throw "ReferenceError: no such object"
      end
  | HPrim VUndefined | HPrim VNull =>
      Throw "TypeError: cannot set properties of null or undefined"
  | HPrim _ | HStr _ => Throw "TypeError: cannot create property on a primitive"
  end.

(** [elems.find(p => p.name === 'globalYear')] *)
Fixpoint find_globalYear (h : heap) (elems : list hval) : completion (option hval) :=
  match elems with
  | [] => Normal None
  | p :: elems' =>
      match get_member h p "name" with
      | Throw e => Throw e
      | Normal name =>
          match name with
          | HStr s =>
              if decide (s = "globalYear") then Normal (Some p)
              else find_globalYear h elems'
          | _ => find_globalYear h elems'
          end
      end
  end.

(** [params.find(...)]: only an array has a [find] method; the result is
    the element found or [undefined]. *)
Definition array_find (h : heap) (params : hval) : completion (option hval) :=
  match params with
  | HRef l =>
      match h !! l with
      | Some (HArr elems _) => find_globalYear h elems
      | _ => Throw "TypeError: preparedSpec.params.find is not a function"
      end
  | _ => Throw "TypeError: preparedSpec.params.find is not a function"
  end.

(** [params.unshift(x)] on an array. *)
Definition array_unshift (h : heap) (params : hval) (x : hval) : completion heap :=
  match params with
  | HRef l =>
      match h !! l with
      | Some (HArr elems props) => Normal (<[l := HArr (x :: elems) props]> h)
      | _ => Throw "TypeError: preparedSpec.params.unshift is not a function"
      end
  | _ => Throw "TypeError: preparedSpec.params.unshift is not a function"
  end.

(** Heap primitives as computations. *)
Definition with_store (h : heap) (w : world) : world :=
  {| this := this w; yearSlider := yearSlider w; yearDisplay := yearDisplay w;
     store := h |}.

Definition await {A} (c : completion A) : M A := fun w => (c, w, []).

Definition member (v : hval) (k : string) : M hval :=
  fun w => (get_member (store w) v k, w, []).

Definition assign (v : hval) (k : string) (x : hval) : M unit :=
  fun w =>
    match set_member (store w) v k x with
    | Normal h => (Normal tt, with_store h w, [])
    | Throw e => (Throw e, w, [])
    end.

(** An object or array literal. *)
Definition alloc (o : hobj) : M hval :=
  fun w => (Normal (HRef (length (store w))), with_store (store w ++ [o]) w, []).

Definition find (params : hval) : M (option hval) :=
  fun w => (array_find (store w) params, w, []).

Definition unshift (params : hval) (x : hval) : M unit :=
  fun w =>
    match array_unshift (store w) params x with
    | Normal h => (Normal tt, with_store h w, [])
    | Throw e => (Throw e, w, [])
    end.

(** [JSON.parse(text)] of a document. *)
Definition JSON_parse (t : json) : M hval :=
  fun w => let '(h, v) := revive t (store w) in (Normal v, with_store h w, []).

(** [JSON.parse(JSON.stringify(spec))] *)
Definition JSON_clone (spec : hval) : M hval :=
  fun w =>
    match JSON_stringify (store w) spec with
    | None => (Throw "TypeError: Converting circular structure to JSON", w, [])
    | Some None => (Throw "SyntaxError: undefined is not valid JSON", w, [])
    | Some (Some t) => JSON_parse t w
    end.

Definition prepareSpec (spec : hval) : M hval :=
  let! preparedSpec := JSON_clone spec in
  let! params := member preparedSpec "params" in
  (if truthy_hval params then ret tt
   else
     let! empty := alloc (HArr [] []) in
     assign preparedSpec "params" empty) >>
  let! params := member preparedSpec "params" in
  let! globalYearParam := find params in
  let! d := get_this in
  let cur := read_state d "currentYear" in
  (match globalYearParam with
   | Some p =>
       if truthy_hval p then assign p "value" (HPrim cur)
       else
         let! entry := alloc (HObj [("name", HStr "globalYear"); ("value", HPrim cur)]) in
         unshift params entry
   | None =>
       let! entry := alloc (HObj [("name", HStr "globalYear"); ("value", HPrim cur)]) in
       unshift params entry
   end) >>
  ret preparedSpec.

(** ** [loadVisualization] and its collaborators *)

(** What [response.json()] settles with. *)
Record response := { body : completion json }.

(** What [vegaEmbed] resolves with. *)
Record embed_result := { view : handle }.

(** The page's [fetch] and [vegaEmbed]; a rejected promise is a [Throw]
    at the [await]. *)
Record page := {
  fetch : string -> completion response;
  vegaEmbed : string -> heap -> hval -> completion embed_result
}.

Definition get_store : M heap := fun w => (Normal (store w), w, []).

Definition loadVisualization (env : page) (containerId specPath viewName : string)
    : M embed_result :=
  try_catch
    (emit (CallFetch specPath) >>
     let! response := await (fetch env specPath) in
     let! document := await (body response) in
     let! spec := JSON_parse document in
     let! preparedSpec := prepareSpec spec in
     emit (CallEmbed containerId) >>
     let! h := get_store in
     let! result := await (vegaEmbed env containerId h preparedSpec) in
     registerView viewName (view result) >>
     emit (ConsoleLog (MsgLoaded viewName)) >>
     ret result)
    (fun error =>
       emit (ConsoleError (MsgLoadError viewName error)) >>
       throw error).

(** ** Sequences of calls on the public interface *)

Inductive op :=
| Init
| UpdateYear (newYear : prim)
| RegisterView (name : string) (view : handle)
| UnregisterView (name : string)
| UpdateAllViews
| AddEventListener (event : string) (cb : callback)
| RemoveEventListener (event : string) (cb : callback)
| TriggerListeners (event : string) (data : payload)
| GetState
| GetValue (key : string)
| SetValue (key : string) (value : prim)
| PrepareSpec (spec : hval)
| LoadVisualization (containerId specPath viewName : string).

Definition run_op (env : page) (o : op) : M unit :=
  match o with
  | Init => init
  | UpdateYear newYear => updateYear newYear
  | RegisterView name view => registerView name view
  | UnregisterView name => unregisterView name
  | UpdateAllViews => updateAllViews
  | AddEventListener event cb => addEventListener event cb
  | RemoveEventListener event cb => removeEventListener event cb
  | TriggerListeners event data => triggerListeners event data
  | GetState => getState >> ret tt
  | GetValue key => getValue key >> ret tt
  | SetValue key value => setValue key value
  | PrepareSpec spec => prepareSpec spec >> ret tt
  | LoadVisualization containerId specPath viewName =>
      loadVisualization env containerId specPath viewName >> ret tt
  end.

(** The world after a sequence of calls; a caller that gets an exception
    goes on with the next call. *)
Fixpoint run_ops (env : page) (os : list op) (w : world) : world :=
  match os with
  | [] => w
  | o :: os' => run_ops env os' (run_op env o w).1.2
  end.

(** ** Observations used in the statements *)

(** Projections of a run. *)
Definition result_of {A} (r : completion A * world * list event) : completion A := r.1.1.
Definition world_of {A} (r : completion A * world * list event) : world := r.1.2.
Definition events_of {A} (r : completion A * world * list event) : list event := r.2.


(** The calls made on views. *)
Definition is_view_call (ev : event) : bool :=
  match ev with
  | CallSignal _ _ _ | CallRun _ => true
  | _ => false
  end.

Definition view_calls (evs : list event) : list event := filter is_view_call evs.

(** How many times a callback is registered for an event. *)
Definition registrations (event : string) (i : nat) (d : DashboardState) : nat :=
  length (filter (fun c => bool_decide (cb_id c = i)) (default [] (listeners d !! event))).

(** The range invariant of the shared state. *)
Definition year_invariant (d : DashboardState) : Prop :=
  exists s c e : Z,
    state d !! "startYear" = Some (VNumber s) /\
    state d !! "currentYear" = Some (VNumber c) /\
    state d !! "endYear" = Some (VNumber e) /\
    s <= c <= e.

(** The handles that [registerView] and [updateAllViews] accept: a truthy
    value whose [signal] member is a function. *)
Definition accepted (view : handle) : bool :=
  match view with
  | Handle v =>
      match view_signal v with
      | Some _ => true
      | None => false
      end
  | Falsy => false
  end.

(** The failure, if any, of pushing the value [cur] to a view. *)
Definition push_failure (cur : prim) (view : handle) : option exn :=
  match view with
  | Handle v =>
      match view_signal v with
      | Some sig =>
          match sig "globalYear" cur with
          | Raises e => Some e
          | Returns =>
              match view_run v with
              | Some (Raises e) => Some e
              | Some Returns => None
              | None => Some "TypeError: view.run is not a function"
              end
          end
      | None => None
      end
  | Falsy => None
  end.

(** The world once an accepted year has been stored and displayed. *)
Definition year_stored (newYear : prim) (w : world) : world :=
  {| this := with_state (insert "currentYear" newYear) (this w);
     yearSlider := yearSlider w;
     yearDisplay := (fun _ => newYear) <$> yearDisplay w;
     store := store w |}.


(** The world once [this.state[key] = value] has written the own
    property [key]. *)
Definition state_written (key : string) (value : prim) (w : world) : world :=
  {| this := with_state (insert key value) (this w);
     yearSlider := yearSlider w;
     yearDisplay := yearDisplay w;
     store := store w |}.

(** The world once [this.state[key] = value] has been executed, whatever
    the key. *)
Definition state_assigned (key : string) (value : prim) (w : world) : world :=
  {| this := set_state key value (this w);
     yearSlider := yearSlider w;
     yearDisplay := yearDisplay w;
     store := store w |}.

(** The world once [this.views.set(name, view)] has been executed. *)
Definition view_stored (name : string) (view : handle) (w : world) : world :=
  {| this := with_views (map_set name view) (this w);
     yearSlider := yearSlider w;
     yearDisplay := yearDisplay w;
     store := store w |}.

(** [m] never changes the observation [f] of the world. *)
Definition keeps {T A} (f : world -> T) (m : M A) : Prop :=
  forall w, f (world_of (m w)) = f w.

(** The calls that cannot write a year bound or the current year without
    validation: everything but [setValue] on one of the three year keys. *)
Definition bounds_kept (o : op) : bool :=
  match o with
  | SetValue key _ =>
      negb (bool_decide (key = "currentYear" \/ key = "startYear" \/ key = "endYear"))
  | _ => true
  end.

(** The invariant in the form it takes from the constructor's defaults:
    the bounds are still 2005 and 2025 and the current year is a number
    between them. *)
Definition default_bounds_invariant (d : DashboardState) : Prop :=
  state d !! "startYear" = Some (VNumber 2005) /\
  state d !! "endYear" = Some (VNumber 2025) /\
  exists c : Z, state d !! "currentYear" = Some (VNumber c) /\ 2005 <= c <= 2025.

(** A failure [e] at one of the awaits of [loadVisualization]: [fetch]
    rejects, [response.json()] rejects, or [vegaEmbed] rejects once the
    specification has been fetched and prepared. *)
Definition suspension_failure (env : page) (containerId specPath : string)
    (w : world) (e : exn) : Prop :=
  fetch env specPath = Throw e \/
  (exists resp, fetch env specPath = Normal resp /\ body resp = Throw e) \/
  (exists resp document preparedSpec w1 evs,
     fetch env specPath = Normal resp /\
     body resp = Normal document /\
     (let! spec := JSON_parse document in prepareSpec spec) w
       = (Normal preparedSpec, w1, evs) /\
     vegaEmbed env containerId (store w1) preparedSpec = Throw e).

(** The calls whose body contains every foreign call in a [try] block, or
    makes none. *)
Definition absorbing (o : op) : bool :=
  match o with
  | RegisterView _ _ | PrepareSpec _ | LoadVisualization _ _ _ => false
  | _ => true
  end.

(** ** The contract of [prepareSpec] on documents *)

(** What [JSON.stringify] prints for a primitive; [undefined] prints
    nothing. *)
Definition json_of_prim (p : prim) : option json :=
  match p with
  | VUndefined => None
  | VNull => Some JNull
  | VBoolean b => Some (JBool b)
  | VNumber n => Some (JNum n)
  | VNaN => Some JNull
  end.

(** The members of an object once [value] has been assigned [cur]. *)
Definition with_value (cur : prim) (ms : list (string * json)) : list (string * json) :=
  match json_of_prim cur with
  | Some t => map_set "value" t ms
  | None => map_delete "value" ms
  end.

(** The entry [{ name: 'globalYear', value: cur }]. *)
Definition globalYear_entry (cur : prim) : json :=
  JObj (("name", JStr "globalYear") :: with_value cur []).

Definition is_globalYear (entry : json) : bool :=
  match entry with
  | JObj ms =>
      match map_get "name" ms with
      | Some (JStr s) => bool_decide (s = "globalYear")
      | _ => false
      end
  | _ => false
  end.

(** The first entry named [globalYear] is given the value [cur] in place;
    [None] when there is no such entry. *)
Fixpoint update_globalYear (cur : prim) (entries : list json) : option (list json) :=
  match entries with
  | [] => None
  | entry :: entries' =>
      let later :=
        match update_globalYear cur entries' with
        | Some updated => Some (entry :: updated)
        | None => None
        end in
      match entry with
      | JObj ms =>
          if is_globalYear entry then Some (JObj (with_value cur ms) :: entries')
          else later
      | _ => later
      end
  end.

(** Following the spec's words for [prepareSpec]: the document with the
    shared value injected as the parameter [globalYear] of its [params]
    list, updating an existing entry of that name in place or inserting a
    new one at the front, the list being created when absent; everything
    else is as in the input. *)
Definition inject_globalYear (cur : prim) (doc : json) : json :=
  match doc with
  | JObj ms =>
      let entries :=
        match map_get "params" ms with
        | Some (JArr es) => es
        | _ => []
        end in
      let entries' :=
        match update_globalYear cur entries with
        | Some updated => updated
        | None => globalYear_entry cur :: entries
        end in
      JObj (map_set "params" (JArr entries') ms)
  | _ => doc
  end.

Definition is_object (t : json) : bool :=
  match t with
  | JObj _ => true
  | _ => false
  end.

(** The configuration documents of the wire format: a JSON object that
    optionally contains a [params] array of objects. *)
Definition configuration (doc : json) : bool :=
  match doc with
  | JObj ms =>
      match map_get "params" ms with
      | None => true
      | Some (JArr es) => forallb is_object es
      | Some _ => false
      end
  | _ => false
  end.

(** Every reference held by an object points at or above [n]. *)
Definition hval_from (n : nat) (v : hval) : Prop :=
  match v with
  | HRef l => (n <= l)%nat
  | _ => True
  end.

Definition hobj_from (n : nat) (o : hobj) : Prop :=
  match o with
  | HArr elems props => Forall (hval_from n) elems /\ Forall (fun kv => hval_from n kv.2) props
  | HObj fields => Forall (fun kv => hval_from n kv.2) fields
  end.

(** [g] holds, between [lo] and [hi], the objects of [h]. *)
Definition agrees (lo hi : nat) (g h : heap) : Prop :=
  forall l, (lo <= l < hi)%nat -> g !! l = h !! l.

(** The value [v] reads as the document [t] in [g], with fuel [n]. *)
Definition reads (n : nat) (g : heap) (v : hval) (t : json) : Prop :=
  serialize n g v = Some (Some t).

Definition reads_member (n : nat) (g : heap) (kv : string * hval) (kt : string * json) : Prop :=
  kv.1 = kt.1 /\ reads n g kv.2 kt.2.

(** [revive t h = (h', v)] extends [h] into [h'] by a copy of [t] that
    reads as [t] in every heap holding the new objects. *)
Definition copied (h h' : heap) (v : hval) (t : json) : Prop :=
  h `prefix_of` h' /\
  forall g n,
    agrees (length h) (length h') g h' ->
    (length h' - length h <= n)%nat ->
    reads n g v t.

Definition copied_items (h h' : heap) (vs : list hval) (ts : list json) : Prop :=
  h `prefix_of` h' /\
  forall g n,
    agrees (length h) (length h') g h' ->
    (length h' - length h <= n)%nat ->
    Forall2 (reads n g) vs ts.

Definition copied_members (h h' : heap) (fs : list (string * hval))
    (ms : list (string * json)) : Prop :=
  h `prefix_of` h' /\
  forall g n,
    agrees (length h) (length h') g h' ->
    (length h' - length h <= n)%nat ->
    Forall2 (reads_member n g) fs ms.

(** The [name] of an object of the heap is a string exactly when the
    [name] of the entry it copies is that string. *)
Definition names_agree (xfs : list (string * hval)) (xs : list (string * json)) : Prop :=
  forall s, map_get "name" xfs = Some (HStr s) <-> map_get "name" xs = Some (JStr s).

(** [v] is, in [g], an object that copies the entry [entry]. *)
Definition entry_in (g : heap) (v : hval) (entry : json) : Prop :=
  exists l xs xfs,
    v = HRef l /\ entry = JObj xs /\ g !! l = Some (HObj xfs) /\ names_agree xfs xs.

(** Every object of [h'] at or above the end of [h0] holds references at
    or above [base] only. *)
Definition fresh_from (base : nat) (h0 h' : heap) : Prop :=
  forall l o, (length h0 <= l)%nat -> h' !! l = Some o -> hobj_from base o.

(** In [g], the [params] of [v] is an array one element of which is an
    object with [name] ['globalYear'] and [value] [cur]. *)
Definition has_globalYear (g : heap) (v : hval) (cur : prim) : Prop :=
  exists a elems props e fields,
    get_member g v "params" = Normal (HRef a) /\
    g !! a = Some (HArr elems props) /\
    In (HRef e) elems /\
    g !! e = Some (HObj fields) /\
    map_get "name" fields = Some (HStr "globalYear") /\
    map_get "value" fields = Some (HPrim cur).

(** [prepareSpec spec] returns, in the heap [g], the new object [l] that
    reads as [doc']: the objects that existed before are unchanged, the
    new ones refer to new ones only, and the [params] of the result hold
    the current year. *)
Definition prepared_as (w : world) (spec : hval) (doc' : json) (l : loc) (g : heap) : Prop :=
  prepareSpec spec w = (Normal (HRef l), with_store g w, []) /\
  store w `prefix_of` g /\
  (length (store w) <= l)%nat /\
  fresh_from (length (store w)) (store w) g /\
  reads (length g) g (HRef l) doc' /\
  has_globalYear g (HRef l) (read_state (this w) "currentYear").

(** ** Sample views, callbacks, pages and worlds *)

Definition steady (_ : string) (_ : prim) : outcome := Returns.

(** A view whose [signal] and [run] both return. *)
Definition chart (id : nat) : view_obj :=
  {| view_id := id; view_signal := Some steady; view_run := Some Returns |}.

(** A view whose [run] throws. *)
Definition chart_run_throws (id : nat) : view_obj :=
  {| view_id := id; view_signal := Some steady;
     view_run := Some (Raises "render failed") |}.

(** A view whose [signal] throws, as a Vega view does for a signal name
    that its specification does not declare. *)
Definition chart_signal_throws (id : nat) : view_obj :=
  {| view_id := id;
     view_signal := Some (fun _ _ => Raises "Unrecognized signal name");
     view_run := Some Returns |}.

(** An object with a [signal] function and no [run] member. *)
Definition chart_without_run (id : nat) : view_obj :=
  {| view_id := id; view_signal := Some steady; view_run := None |}.

(** An object with a [run] function and no [signal] member. *)
Definition chart_without_signal (id : nat) : view_obj :=
  {| view_id := id; view_signal := None; view_run := Some Returns |}.

Definition probe : callback := {| cb_id := 1; cb_call := fun _ => Returns |}.

Definition fresh_world : world := initial_world None None.

(** A mediator with two registered views, the first of which fails to
    render. *)
Definition two_charts_world : world :=
  {| this := {| state := state constructor;
                state_proto := ObjectPrototype;
                views := [("bars", Handle (chart_run_throws 1));
                          ("map", Handle (chart 2))];
                listeners := ∅ |};
     yearSlider := None; yearDisplay := None; store := [] |}.

(** A page on which nothing can be fetched. *)
Definition offline_page : page :=
  {| fetch := fun _ => Throw "NetworkError";
     vegaEmbed := fun _ _ _ => Throw "no container" |}.

(** A page that serves one specification and cannot embed it. *)
Definition broken_embed_page : page :=
  {| fetch := fun _ => Normal {| body := Normal (JObj [("mark", JStr "bar")]) |};
     vegaEmbed := fun _ _ _ => Throw "no container" |}.

(** A specification held in the heap, for the examples:
    [{ mark: 'bar', params: [{ name: 'other', value: 1 }] }]. *)
Definition sample_document : json :=
  JObj [("mark", JStr "bar");
        ("params", JArr [JObj [("name", JStr "other"); ("value", JNum 1)]])].

Definition sample_world : world :=
  with_store (revive sample_document []).1
    (state_written "currentYear" (VNumber 2020) fresh_world).

(** A document outside the wire format: [{ params: {} }]. *)
Definition malformed_document : json := JObj [("params", JObj [])].

Definition malformed_world : world :=
  with_store (revive malformed_document []).1 fresh_world.

(** ** Observations used in the further properties *)

(** The callbacks invoked, in order, each with the data it received. *)
Fixpoint invoked (evs : list event) : list (nat * payload) :=
  match evs with
  | [] => []
  | CallCallback i data :: evs' => (i, data) :: invoked evs'
  | _ :: evs' => invoked evs'
  end.

(** The failures of callbacks reported on the console, in order. *)
Fixpoint listener_errors (evs : list event) : list (string * exn) :=
  match evs with
  | [] => []
  | ConsoleError (MsgListenerError event e) :: evs' => (event, e) :: listener_errors evs'
  | _ :: evs' => listener_errors evs'
  end.

(** What a callback throws on [data], if it throws. *)
Definition callback_failure (data : payload) (cb : callback) : option exn :=
  match cb_call cb data with
  | Raises e => Some e
  | Returns => None
  end.

(** The views sent [signal("globalYear", v)], in order, with [v]. *)
Fixpoint signalled (evs : list event) : list (nat * prim) :=
  match evs with
  | [] => []
  | CallSignal i _ v :: evs' => (i, v) :: signalled evs'
  | _ :: evs' => signalled evs'
  end.

(** The views whose [run] was called, in order. *)
Fixpoint rendered (evs : list event) : list nat :=
  match evs with
  | [] => []
  | CallRun i :: evs' => i :: rendered evs'
  | _ :: evs' => rendered evs'
  end.

(** The identity of an accepted handle. *)
Definition accepted_id (view : handle) : option nat :=
  match view with
  | Handle v =>
      match view_signal v with
      | Some _ => Some (view_id v)
      | None => None
      end
  | Falsy => None
  end.

(** The identity of a handle whose [run] is reached when [cur] is pushed:
    its [signal] returns and its [run] member can be called. *)
Definition rendered_id (cur : prim) (view : handle) : option nat :=
  match view with
  | Handle v =>
      match view_signal v, view_run v with
      | Some sig, Some _ =>
          match sig "globalYear" cur with
          | Returns => Some (view_id v)
          | Raises _ => None
          end
      | _, _ => None
      end
  | Falsy => None
  end.

(** The year display, when the page has one, shows the current year. *)
Definition display_in_sync (w : world) : Prop :=
  match yearDisplay w with
  | Some shown => shown = read_state (this w) "currentYear"
  | None => True
  end.

(** The calls that are not [setValue("currentYear", _)]. *)
Definition display_kept (o : op) : bool :=
  match o with
  | SetValue key _ => negb (bool_decide (key = "currentYear"))
  | _ => true
  end.

(** The names of the registry. *)
Definition view_names (w : world) : list string :=
  map (fun kv => kv.1) (views (this w)).

(** No name occurs twice in an association list, as in a [Map]. *)
Fixpoint distinct_keys {V} (m : list (string * V)) : bool :=
  match m with
  | [] => true
  | (k, _) :: m' =>
      match map_get k m' with
      | None => distinct_keys m'
      | Some _ => false
      end
  end.

(** [w] differs from [w0] by new heap objects only: the mediator and the
    page are those of [w0], every object of [w0] is where and as it was,
    and the objects added refer to added objects only. *)
Definition untouched (w0 w : world) : Prop :=
  this w = this w0 /\
  yearSlider w = yearSlider w0 /\
  yearDisplay w = yearDisplay w0 /\
  store w0 `prefix_of` store w /\
  fresh_from (length (store w0)) (store w0) (store w).

(** From every world that [w0] has only grown into, [m] emits nothing and
    ends, normally or not, in such a world again; a value it returns
    satisfies [Q]. *)
Definition quiet {A} (w0 : world) (m : M A) (Q : A -> Prop) : Prop :=
  forall w, untouched w0 w ->
    match m w with
    | (Normal a, w', evs) => untouched w0 w' /\ Q a /\ evs = []
    | (Throw e, w', evs) => untouched w0 w' /\ evs = []
    end.

(** The results of [find]: an element found is a new object. *)
Definition found_from (n : nat) (r : option hval) : Prop :=
  match r with
  | Some p => hval_from n p
  | None => True
  end.

(** Numbers, booleans, strings, [null] and [undefined]. *)
Definition is_primitive (v : hval) : bool :=
  match v with
  | HRef _ => false
  | _ => true
  end.

(** A member [params] on which [find] cannot be called although it is
    truthy: an object, a non-empty string, a number other than 0, [true]. *)
Definition truthy_non_array (t : json) : bool :=
  match t with
  | JObj _ => true
  | JStr s => negb (bool_decide (s = ""))
  | JNum n => negb (n =? 0)
  | JBool b => b
  | JNull | JArr _ => false
  end.

(** What [loadVisualization] does once the chart has been instantiated
    from a prepared specification held in [w]: [registerView], then the
    message of success, or the [catch] block when the first rendering
    throws. *)
Definition after_embed (viewName : string) (result : embed_result) (w : world)
    : completion embed_result * world * list event :=
  match registerView viewName (view result) w with
  | (Normal _, w', evs) => (Normal result, w', evs ++ [ConsoleLog (MsgLoaded viewName)])
  | (Throw e, w', evs) => (Throw e, w', evs ++ [ConsoleError (MsgLoadError viewName e)])
  end.

(** A page that serves a document and embeds it as the view [view]. *)
Definition serving_page (doc : json) (view : handle) : page :=
  {| fetch := fun _ => Normal {| body := Normal doc |};
     vegaEmbed := fun _ _ _ => Normal {| view := view |} |}.

(** The registry is that of [w0], or that of [w0] with [name] bound to an
    accepted handle. *)
Definition registry_grown (name : string) (w0 w : world) : Prop :=
  views (this w) = views (this w0) \/
  exists view, accepted view = true /\
    views (this w) = map_set name view (views (this w0)).

(** The calls that are not [init]. *)
Definition slider_kept (o : op) : bool :=
  match o with
  | Init => false
  | _ => true
  end.

(** [w'] is [w] with other listeners, at most. *)
Definition same_but_listeners (w w' : world) : Prop :=
  state (this w') = state (this w) /\
  state_proto (this w') = state_proto (this w) /\
  views (this w') = views (this w) /\
  yearSlider w' = yearSlider w /\
  yearDisplay w' = yearDisplay w /\
  store w' = store w.

(** The events of a dispatch of [data] to the listeners of [name]: calls
    of callbacks, each with [data], and reports of their failures. *)
Definition dispatch_event (name : string) (data : payload) (ev : event) : Prop :=
  match ev with
  | CallCallback _ d => d = data
  | ConsoleError (MsgListenerError e _) => e = name
  | _ => False
  end.

(** A callback that removes itself from the listeners of ["yearChange"]
    when it is notified, and the behaviour in which it is the only
    callback that calls the mediator. *)
Definition leaver : callback := {| cb_id := 2; cb_call := fun _ => Returns |}.

Definition leaving : Live.reentry :=
  fun cb _ => if decide (cb_id cb = 2%nat) then [Live.Remove "yearChange" leaver] else [].


(** * Properties *)

(** ** The monad *)

Lemma bind_normal {A B} (m : M A) (k : A -> M B) w a w1 evs1 :
  m w = (Normal a, w1, evs1) ->
  bind m k w = (let '(r, w2, evs2) := k a w1 in (r, w2, evs1 ++ evs2)).
Proof. intros H. unfold bind. now rewrite H. Qed.

Lemma bind_throw {A B} (m : M A) (k : A -> M B) w e w1 evs1 :
  m w = (Throw e, w1, evs1) -> bind m k w = (Throw e, w1, evs1).
Proof. intros H. unfold bind. now rewrite H. Qed.

(** A loop whose body never throws and never changes the world emits the
    events of its iterations one after the other. *)
Lemma forEach_silent {A} (f : A -> M unit) (l : list A) (w : world) :
  (forall x, In x l -> result_of (f x w) = Normal tt /\ world_of (f x w) = w) ->
  forEach f l w = (Normal tt, w, concat (map (fun x => events_of (f x w)) l)).
Proof.
  induction l as [|x l IH]; intros Hf; [reflexivity|].
  destruct (Hf x (or_introl eq_refl)) as [Hr Hw].
  cbn [forEach map concat].
  destruct (f x w) as [[r w1] evs1] eqn:E.
  unfold result_of, world_of in Hr, Hw. cbn in Hr, Hw. subst r w1.
  rewrite (bind_normal _ _ _ _ _ _ E), IH.
  - reflexivity.
  - intros y Hy. apply Hf. now right.
Qed.

(** ** Fan-out to views *)

Lemma update_view_silent (entry : string * handle) (w : world) :
  result_of (update_view entry w) = Normal tt /\ world_of (update_view entry w) = w.
Proof.
  destruct entry as [name [|v]]; [now split|].
  unfold update_view, push_current, call_run, try_catch, call, bind, get_this,
    emit, ret, throw.
  destruct (view_signal v) as [sig|]; [|now split].
  destruct (sig _ _); [|now split].
  destruct (view_run v) as [[|e]|]; now split.
Qed.

(** The events of pushing to one view, case by case. *)
Lemma update_view_events (name : string) (view : handle) (w : world) :
  events_of (update_view (name, view) w) =
    let cur := read_state (this w) "currentYear" in
    match view with
    | Handle v =>
        match view_signal v with
        | Some sig =>
            CallSignal (view_id v) "globalYear" cur ::
            match sig "globalYear" cur with
            | Raises e => [ConsoleError (MsgUpdateViewError name e)]
            | Returns =>
                match view_run v with
                | Some Returns => [CallRun (view_id v)]
                | Some (Raises e) =>
                    [CallRun (view_id v); ConsoleError (MsgUpdateViewError name e)]
                | None =>
                    [ConsoleError (MsgUpdateViewError name
                       "TypeError: view.run is not a function")]
                end
            end
        | None => []
        end
    | Falsy => []
    end.
Proof.
  destruct view as [|v]; [reflexivity|].
  unfold update_view, push_current, call_run, try_catch, call, bind, get_this,
    emit, ret, throw, events_of.
  destruct (view_signal v) as [sig|]; [|reflexivity].
  cbn. destruct (sig _ _); [|reflexivity].
  destruct (view_run v) as [[|e]|]; reflexivity.
Qed.

Lemma updateAllViews_run (w : world) :
  updateAllViews w =
    (Normal tt, w,
     concat (map (fun entry => events_of (update_view entry w)) (views (this w)))).
Proof.
  unfold updateAllViews. rewrite (bind_normal _ _ w (this w) w []) by reflexivity.
  rewrite forEach_silent; [reflexivity|].
  intros x _. apply update_view_silent.
Qed.





(** ** Listeners *)

Lemma notify_silent (event : string) (data : payload) (cb : callback) (w : world) :
  result_of (notify event data cb w) = Normal tt /\
  world_of (notify event data cb w) = w.
Proof.
  unfold notify, try_catch, call, bind, emit, ret, throw. cbn.
  destruct (cb_call cb data); now split.
Qed.

Lemma notify_events (event : string) (data : payload) (cb : callback) (w : world) :
  events_of (notify event data cb w) =
    CallCallback (cb_id cb) data ::
    match cb_call cb data with
    | Returns => []
    | Raises e => [ConsoleError (MsgListenerError event e)]
    end.
Proof.
  unfold notify, try_catch, call, bind, emit, ret, throw, events_of. cbn.
  destruct (cb_call cb data); reflexivity.
Qed.

Lemma triggerListeners_run (event : string) (data : payload) (w : world) :
  triggerListeners event data w =
    (Normal tt, w,
     concat (map (fun cb => events_of (notify event data cb w))
                 (default [] (listeners (this w) !! event)))).
Proof.
  unfold triggerListeners. rewrite (bind_normal _ _ w (this w) w []) by reflexivity.
  destruct (listeners (this w) !! event) as [cbs|]; [|reflexivity].
  rewrite forEach_silent; [reflexivity|].
  intros x _. apply notify_silent.
Qed.



(** ** [updateYear] *)

Lemma updateYear_accepts (newYear : prim) (w : world) :
  js_ge newYear (read_state (this w) "startYear")
    && js_le newYear (read_state (this w) "endYear") = true ->
  updateYear newYear w =
    (Normal tt, year_stored newYear w,
     events_of (updateAllViews (year_stored newYear w)) ++
     events_of (triggerListeners "yearChange"
                  (YearChange (read_state (this w) "currentYear") newYear)
                  (year_stored newYear w)) ++
     [ConsoleLog (MsgYearUpdated (read_state (this w) "currentYear") newYear)]).
Proof.
  intros Hin. unfold updateYear.
  rewrite (bind_normal _ _ w (this w) w []) by reflexivity.
  rewrite Hin.
  rewrite (bind_normal _ _ w tt
    {| this := with_state (insert "currentYear" newYear) (this w);
       yearSlider := yearSlider w; yearDisplay := yearDisplay w;
       store := store w |} []) by reflexivity.
  rewrite (bind_normal _ _ _ tt (year_stored newYear w) []) by reflexivity.
  rewrite (bind_normal _ _ _ _ _ _ (updateAllViews_run _)).
  rewrite (bind_normal _ _ _ _ _ _ (triggerListeners_run _ _ _)).
  rewrite updateAllViews_run, triggerListeners_run.
  unfold emit, events_of. cbn. reflexivity.
Qed.

Lemma updateYear_rejects (newYear : prim) (w : world) :
  js_ge newYear (read_state (this w) "startYear")
    && js_le newYear (read_state (this w) "endYear") = false ->
  updateYear newYear w = (Normal tt, w, []).
Proof.
  intros Hout. unfold updateYear.
  rewrite (bind_normal _ _ w (this w) w []) by reflexivity.
  now rewrite Hout.
Qed.

Lemma in_range_numbers (d : DashboardState) (s e n : Z) :
  state d !! "startYear" = Some (VNumber s) ->
  state d !! "endYear" = Some (VNumber e) ->
  js_ge (VNumber n) (read_state d "startYear")
    && js_le (VNumber n) (read_state d "endYear")
  = bool_decide (s <= n <= e).
Proof.
  intros Hs He. unfold read_state. rewrite Hs, He. cbn.
  destruct (Z.leb_spec s n), (Z.leb_spec n e); cbn;
    symmetry; (apply bool_decide_eq_true + apply bool_decide_eq_false); lia.
Qed.

(** ** Claims on [updateYear], listeners and fan-out *)

Lemma in_events_views (x : event) (w : world) (l : list (string * handle)) :
  In x (concat (map (fun entry => events_of (update_view entry w)) l)) <->
  exists entry, In entry l /\ In x (events_of (update_view entry w)).
Proof.
  rewrite in_concat. split.
  - intros [evs [Hevs Hx]]. apply in_map_iff in Hevs as [entry [<- Hentry]]. eauto.
  - intros [entry [Hentry Hx]]. eexists. split; [|exact Hx].
    apply in_map_iff. eauto.
Qed.

Lemma updateAllViews_reaches (w : world) (name : string) (v : view_obj) :
  In (name, Handle v) (views (this w)) ->
  accepted (Handle v) = true ->
  In (CallSignal (view_id v) "globalYear" (read_state (this w) "currentYear"))
     (events_of (updateAllViews w)).
Proof.
  intros Hin Hacc. rewrite updateAllViews_run. unfold events_of at 1. cbn [snd].
  apply in_events_views. exists (name, Handle v). split; [exact Hin|].
  rewrite update_view_events. cbn in Hacc |- *.
  destruct (view_signal v); [now left|discriminate].
Qed.

Lemma update_view_reports (name name' : string) (view : handle) (e : exn) (w : world) :
  In (ConsoleError (MsgUpdateViewError name e)) (events_of (update_view (name', view) w)) <->
  name' = name /\ push_failure (read_state (this w) "currentYear") view = Some e.
Proof.
  rewrite update_view_events. unfold push_failure.
  destruct view as [|v]; cbn; [intuition discriminate|].
  destruct (view_signal v) as [sig|]; cbn; [|intuition discriminate].
  destruct (sig _ _); [destruct (view_run v) as [[|e']|]|]; cbn;
    intuition (try discriminate; try congruence; try (simplify_eq; done)).
Qed.

(** C1: for every number [n] within the bounds held by the state,
    [updateYear n] returns normally, stores [n] as [currentYear] (nothing
    else in the state, the views or the listeners changes), shows it in the
    year display when the page has one, then pushes the new value to the
    registered views (its events start with those of [updateAllViews] run
    on the new state, so every accepted view is sent
    [signal("globalYear", n)]), then notifies the ["yearChange"] listeners
    and logs; for every [n] outside the bounds the call returns normally,
    the world is unchanged and no event at all is emitted. *)
Theorem updateYear_range_checked (w : world) (s e n : Z) :
  state (this w) !! "startYear" = Some (VNumber s) ->
  state (this w) !! "endYear" = Some (VNumber e) ->
  (s <= n <= e ->
   exists w',
     updateYear (VNumber n) w =
       (Normal tt, w',
        events_of (updateAllViews w') ++
        events_of (triggerListeners "yearChange"
                     (YearChange (read_state (this w) "currentYear") (VNumber n)) w') ++
        [ConsoleLog (MsgYearUpdated (read_state (this w) "currentYear") (VNumber n))]) /\
     state (this w') = <["currentYear" := VNumber n]> (state (this w)) /\
     read_state (this w') "currentYear" = VNumber n /\
     views (this w') = views (this w) /\
     listeners (this w') = listeners (this w) /\
     yearDisplay w' = (fun _ => VNumber n) <$> yearDisplay w /\
     forall name v,
       In (name, Handle v) (views (this w)) -> accepted (Handle v) = true ->
       In (CallSignal (view_id v) "globalYear" (VNumber n))
          (events_of (updateAllViews w'))) /\
  (~ (s <= n <= e) -> updateYear (VNumber n) w = (Normal tt, w, [])).
Proof.
  intros Hs He. split; intros Hn.
  - exists (year_stored (VNumber n) w).
    assert (Hcur : read_state (this (year_stored (VNumber n) w)) "currentYear" = VNumber n).
    { unfold read_state. cbn. now rewrite lookup_insert_eq. }
    split; [|repeat split].
    + apply updateYear_accepts. rewrite (in_range_numbers _ s e) by assumption.
      now apply bool_decide_eq_true.
    + exact Hcur.
    + intros name v Hin Hacc.
      pose proof (updateAllViews_reaches (year_stored (VNumber n) w) name v Hin Hacc) as H.
      now rewrite Hcur in H.
  - apply updateYear_rejects. rewrite (in_range_numbers _ s e) by assumption.
    now apply bool_decide_eq_false.
Qed.

Lemma updateYear_range_checked_witness :
  state (this fresh_world) !! "startYear" = Some (VNumber 2005) /\
  state (this fresh_world) !! "endYear" = Some (VNumber 2025) /\
  updateYear (VNumber 2030) fresh_world = (Normal tt, fresh_world, []).
Proof.
  assert (Hs : state (this fresh_world) !! "startYear" = Some (VNumber 2005))
    by reflexivity.
  assert (He : state (this fresh_world) !! "endYear" = Some (VNumber 2025))
    by reflexivity.
  split; [exact Hs|]. split; [exact He|].
  destruct (updateYear_range_checked fresh_world 2005 2025 2030 Hs He) as [_ Hout].
  apply Hout. lia.
Defined.




(** The events of a view whose [signal] returns and whose [run] can be
    called start with the two calls, in this order. *)
Lemma update_view_delivers (name : string) (v : view_obj)
    (sig : string -> prim -> outcome) (o : outcome) (w : world) :
  view_signal v = Some sig ->
  sig "globalYear" (read_state (this w) "currentYear") = Returns ->
  view_run v = Some o ->
  exists post,
    events_of (update_view (name, Handle v) w) =
      CallSignal (view_id v) "globalYear" (read_state (this w) "currentYear")
      :: CallRun (view_id v) :: post.
Proof.
  intros Hsig Hret Hrun. rewrite update_view_events, Hsig. cbn.
  rewrite Hret, Hrun. destruct o; eauto.
Qed.

Lemma concat_map_split {A B} (f : A -> list B) (l : list A) (x : A) :
  In x l ->
  exists pre post, concat (map f l) = pre ++ f x ++ post.
Proof.
  intros Hin. apply in_split in Hin as [l1 [l2 ->]].
  exists (concat (map f l1)), (concat (map f l2)).
  now rewrite map_app, concat_app.
Qed.

(** C6: in one [updateAllViews] fan-out where a registered view fails (its
    [signal] or its [run] throws), the call still returns normally, the
    failure is reported on the console under that view's name, every
    report concerns a view that did fail, and any other registered view
    (one whose own [signal] returns and whose [run] can be called) receives
    [signal("globalYear", currentYear)] immediately followed by [run()],
    wherever it stands in the registry. *)
Theorem updateAllViews_isolates_failures (w : world)
    (bad good : string) (b g : view_obj) (e : exn)
    (sig : string -> prim -> outcome) (o : outcome) :
  In (bad, Handle b) (views (this w)) ->
  push_failure (read_state (this w) "currentYear") (Handle b) = Some e ->
  In (good, Handle g) (views (this w)) ->
  view_signal g = Some sig ->
  sig "globalYear" (read_state (this w) "currentYear") = Returns ->
  view_run g = Some o ->
  exists evs,
    updateAllViews w = (Normal tt, w, evs) /\
    In (ConsoleError (MsgUpdateViewError bad e)) evs /\
    (exists pre post,
       evs = pre ++ CallSignal (view_id g) "globalYear"
                      (read_state (this w) "currentYear")
                    :: CallRun (view_id g) :: post) /\
    (forall name e',
       In (ConsoleError (MsgUpdateViewError name e')) evs ->
       exists view,
         In (name, view) (views (this w)) /\
         push_failure (read_state (this w) "currentYear") view = Some e').
Proof.
  intros Hbad Hfail Hgood Hsig Hret Hrun.
  eexists. split; [apply updateAllViews_run|]. split; [|split].
  - apply in_events_views. exists (bad, Handle b). split; [exact Hbad|].
    now apply update_view_reports.
  - destruct (concat_map_split (fun entry => events_of (update_view entry w))
                _ _ Hgood) as [pre [post Heq]].
    destruct (update_view_delivers good g sig o w Hsig Hret Hrun) as [rest Hev].
    rewrite Heq, Hev. exists pre, (rest ++ post). reflexivity.
  - intros name e' Hin. apply in_events_views in Hin as [[name' view] [Hentry Hin]].
    apply update_view_reports in Hin as [-> Hfail']. eauto.
Qed.

Lemma updateAllViews_isolates_failures_witness :
  exists evs,
    updateAllViews two_charts_world = (Normal tt, two_charts_world, evs) /\
    In (ConsoleError (MsgUpdateViewError "bars" "render failed")) evs /\
    (exists pre post,
       evs = pre ++ CallSignal 2 "globalYear" (VNumber 2010) :: CallRun 2 :: post).
Proof.
  destruct (updateAllViews_isolates_failures two_charts_world
              "bars" "map" (chart_run_throws 1) (chart 2) "render failed"
              steady Returns) as [evs [Hrun [Hrep [Hcalls _]]]].
  - left. reflexivity.
  - reflexivity.
  - right. left. reflexivity.
  - reflexivity.
  - reflexivity.
  - reflexivity.
  - exists evs. split; [exact Hrun|]. split; [exact Hrep|exact Hcalls].
Defined.

(** ** [setValue] *)

Lemma triggerListeners_events (event : string) (data : payload) (w : world) :
  events_of (triggerListeners event data w) =
    concat (map (fun cb => events_of (notify event data cb w))
                (default [] (listeners (this w) !! event))).
Proof. now rewrite triggerListeners_run. Qed.


(** ** The bag [this.state] *)

Lemma reaches_proto_setter_ordinary (d : DashboardState) (key : string) :
  key <> "__proto__" -> reaches_proto_setter d key = false.
Proof.
  intros Hkey. unfold reaches_proto_setter.
  now rewrite (bool_decide_eq_false_2 _ Hkey).
Qed.

Lemma set_state_ordinary (key : string) (value : prim) (d : DashboardState) :
  key <> "__proto__" -> set_state key value d = with_state (insert key value) d.
Proof.
  intros Hkey. unfold set_state. now rewrite reaches_proto_setter_ordinary.
Qed.

Lemma state_assigned_ordinary (key : string) (value : prim) (w : world) :
  key <> "__proto__" -> state_assigned key value w = state_written key value w.
Proof.
  intros Hkey. unfold state_assigned, state_written. now rewrite set_state_ordinary.
Qed.

Lemma get_state_ordinary (d : DashboardState) (key : string) :
  key ∉ object_prototype_names -> get_state d key = Own (read_state d key).
Proof.
  intros Hkey. unfold get_state, read_state.
  destruct (state d !! key); [reflexivity|]. cbn.
  rewrite (bool_decide_eq_false_2 _ Hkey). now destruct (state_proto d).
Qed.


Lemma set_state_views (key : string) (value : prim) (d : DashboardState) :
  views (set_state key value d) = views d.
Proof.
  unfold set_state. destruct (reaches_proto_setter d key); [|reflexivity].
  now destruct value.
Qed.

Lemma set_state_listeners (key : string) (value : prim) (d : DashboardState) :
  listeners (set_state key value d) = listeners d.
Proof.
  unfold set_state. destruct (reaches_proto_setter d key); [|reflexivity].
  now destruct value.
Qed.

Lemma set_state_lookup_ne (key : string) (value : prim) (d : DashboardState)
    (k : string) :
  k <> key -> state (set_state key value d) !! k = state d !! k.
Proof.
  intros Hk. unfold set_state. destruct (reaches_proto_setter d key).
  - now destruct value.
  - cbn. now rewrite lookup_insert_ne.
Qed.

Lemma setValue_run (key : string) (value : prim) (w : world) :
  setValue key value w =
    (Normal tt, state_assigned key value w,
     (if decide (key = "currentYear")
      then events_of (updateAllViews (state_assigned key value w)) else []) ++
     events_of (triggerListeners "stateChange"
                  (StateChange key (get_state (this w) key) value)
                  (state_assigned key value w))).
Proof.
  unfold setValue.
  rewrite (bind_normal _ _ w (this w) w []) by reflexivity.
  rewrite (bind_normal _ _ w tt (state_assigned key value w) []) by reflexivity.
  destruct (decide (key = "currentYear")) as [->|Hne].
  - rewrite (bind_normal _ _ _ _ _ _ (updateAllViews_run _)).
    rewrite updateAllViews_run, triggerListeners_run. reflexivity.
  - rewrite (bind_normal _ _ _ tt (state_assigned key value w) []) by reflexivity.
    rewrite triggerListeners_run. reflexivity.
Qed.

(** The assignment to a key other than ["__proto__"] writes the own
    property. *)
Lemma setValue_writes (key : string) (value : prim) (w : world) :
  key <> "__proto__" ->
  setValue key value w =
    (Normal tt, state_written key value w,
     (if decide (key = "currentYear")
      then events_of (updateAllViews (state_written key value w)) else []) ++
     events_of (triggerListeners "stateChange"
                  (StateChange key (get_state (this w) key) value)
                  (state_written key value w))).
Proof.
  intros Hkey. rewrite setValue_run. now rewrite state_assigned_ordinary.
Qed.


(** ** [registerView] *)

Lemma map_get_set {V} (k : string) (v : V) (m : list (string * V)) :
  map_get k (map_set k v m) = Some v.
Proof.
  induction m as [|[k' v'] m IH]; cbn.
  - now rewrite decide_True.
  - destruct (decide (k = k')) as [->|Hne]; cbn.
    + now rewrite decide_True.
    + now rewrite decide_False.
Qed.

Lemma registerView_run (name : string) (v : view_obj)
    (sig : string -> prim -> outcome) (w : world) :
  view_signal v = Some sig ->
  registerView name (Handle v) w =
    let cur := read_state (this w) "currentYear" in
    let called := CallSignal (view_id v) "globalYear" cur in
    match sig "globalYear" cur with
    | Raises e => (Throw e, view_stored name (Handle v) w, [called])
    | Returns =>
        match view_run v with
        | Some Returns =>
            (Normal tt, view_stored name (Handle v) w,
             [called; CallRun (view_id v); ConsoleLog (MsgViewRegistered name)])
        | Some (Raises e) =>
            (Throw e, view_stored name (Handle v) w, [called; CallRun (view_id v)])
        | None =>
            (Throw "TypeError: view.run is not a function",
             view_stored name (Handle v) w, [called])
        end
    end.
Proof.
  intros Hsig. unfold registerView. rewrite Hsig.
  unfold push_current, call_run, call, bind, modify_this, get_this, emit, ret, throw.
  cbn. destruct (sig _ _); [|reflexivity].
  destruct (view_run v) as [[|e]|]; reflexivity.
Qed.

(** C4, as stated, fails: a handle that has [signal] but lacks [run] is
    stored in the registry and the call throws. *)
Lemma registerView_without_run_throws :
  result_of (registerView "map" (Handle (chart_without_run 3)) fresh_world)
    = Throw "TypeError: view.run is not a function" /\
  views (this (world_of (registerView "map" (Handle (chart_without_run 3)) fresh_world)))
    = [("map", Handle (chart_without_run 3))] /\
  views (this fresh_world) = [].
Proof. repeat split. Qed.

(** C4, amended: for every name and every handle that is falsy or whose
    [signal] member is not a function (whether or not it has [run]),
    [registerView] leaves the whole world, hence the registry, unchanged,
    reports the invalid view on the console and returns normally. *)
Theorem registerView_rejects_invalid (name : string) (view : handle) (w : world) :
  accepted view = false ->
  registerView name view w = (Normal tt, w, [ConsoleError (MsgInvalidView name)]).
Proof.
  intros Hacc. destruct view as [|v]; [reflexivity|].
  unfold registerView. cbn in Hacc.
  destruct (view_signal v); [discriminate|reflexivity].
Qed.

Lemma registerView_rejects_invalid_witness :
  accepted (Handle (chart_without_signal 4)) = false /\
  registerView "map" (Handle (chart_without_signal 4)) two_charts_world =
    (Normal tt, two_charts_world, [ConsoleError (MsgInvalidView "map")]).
Proof.
  split; [reflexivity|].
  apply (registerView_rejects_invalid "map" (Handle (chart_without_signal 4))
           two_charts_world).
  reflexivity.
Defined.

(** C5, as stated, fails: a view that exposes both [signal] and [run] but
    whose [signal] throws receives the signal call and no run call. *)
Lemma registerView_signal_throws_no_run :
  events_of (registerView "map" (Handle (chart_signal_throws 5)) fresh_world)
    = [CallSignal 5 "globalYear" (VNumber 2010)] /\
  ~ In (CallRun 5)
      (events_of (registerView "map" (Handle (chart_signal_throws 5)) fresh_world)).
Proof.
  split; [reflexivity|]. cbn. intros [H|[]]. discriminate H.
Qed.

(** C5, amended: for every view that exposes [signal] and [run],
    [registerView(name, V)] stores [V] under [name] and sends it
    [signal("globalYear", currentYear)] first; when that call returns, the
    next event is [V.run()]. *)
Theorem registerView_pushes_current (name : string) (v : view_obj)
    (sig : string -> prim -> outcome) (o : outcome) (w : world) :
  view_signal v = Some sig ->
  view_run v = Some o ->
  exists r w' rest,
    registerView name (Handle v) w =
      (r, w', CallSignal (view_id v) "globalYear"
                (read_state (this w) "currentYear") :: rest) /\
    views (this w') = map_set name (Handle v) (views (this w)) /\
    map_get name (views (this w')) = Some (Handle v) /\
    (sig "globalYear" (read_state (this w) "currentYear") = Returns ->
     exists rest', rest = CallRun (view_id v) :: rest').
Proof.
  intros Hsig Hrun. rewrite (registerView_run name v sig w Hsig), Hrun. cbn.
  destruct (sig _ _) eqn:Hcall.
  - destruct o; eexists _, _, _; (split; [reflexivity|]);
      (split; [reflexivity|]); (split; [apply map_get_set|]); eauto.
  - eexists _, _, _. split; [reflexivity|]. split; [reflexivity|].
    split; [apply map_get_set|]. discriminate.
Qed.

Lemma registerView_pushes_current_witness :
  view_signal (chart 2) = Some steady /\
  view_run (chart 2) = Some Returns /\
  exists r w' rest,
    registerView "v1" (Handle (chart 2))
      (state_written "currentYear" (VNumber 2012) fresh_world) =
      (r, w', CallSignal 2 "globalYear" (VNumber 2012) :: rest) /\
    map_get "v1" (views (this w')) = Some (Handle (chart 2)) /\
    exists rest', rest = CallRun 2 :: rest'.
Proof.
  split; [reflexivity|]. split; [reflexivity|].
  destruct (registerView_pushes_current "v1" (chart 2) steady Returns
              (state_written "currentYear" (VNumber 2012) fresh_world)
              eq_refl eq_refl) as [r [w' [rest [Hrun [_ [Hget Hnext]]]]]].
  exists r, w', rest. split; [exact Hrun|]. split; [exact Hget|].
  apply Hnext. reflexivity.
Defined.

(** C10: for every handle whose [signal] member is a function,
    [registerView(name, V)] stores [V] under [name] whatever the initial
    calls do; when the initial push fails (its [signal] throws, or its
    [run] throws or cannot be called) the exception reaches the caller, no
    registration message is logged, and [V] is registered all the same. *)
Theorem registerView_stores_before_push (name : string) (v : view_obj)
    (sig : string -> prim -> outcome) (w : world) :
  view_signal v = Some sig ->
  exists r w' evs,
    registerView name (Handle v) w = (r, w', evs) /\
    w' = view_stored name (Handle v) w /\
    map_get name (views (this w')) = Some (Handle v) /\
    r = match push_failure (read_state (this w) "currentYear") (Handle v) with
        | Some e => Throw e
        | None => Normal tt
        end /\
    (In (ConsoleLog (MsgViewRegistered name)) evs <-> r = Normal tt).
Proof.
  intros Hsig. rewrite (registerView_run name v sig w Hsig).
  unfold push_failure. rewrite Hsig. cbn.
  destruct (sig _ _); [destruct (view_run v) as [[|e]|]|];
    eexists _, _, _; (split; [reflexivity|]); (split; [reflexivity|]);
    (split; [apply map_get_set|]); (split; [reflexivity|]);
    cbn; intuition (discriminate || eauto).
Qed.

Lemma registerView_stores_before_push_witness :
  view_signal (chart_run_throws 1) = Some steady /\
  exists w' evs,
    registerView "bars" (Handle (chart_run_throws 1)) fresh_world =
      (Throw "render failed", w', evs) /\
    map_get "bars" (views (this w')) = Some (Handle (chart_run_throws 1)).
Proof.
  split; [reflexivity|].
  destruct (registerView_stores_before_push "bars" (chart_run_throws 1) steady
              fresh_world eq_refl) as [r [w' [evs [Hrun [_ [Hget [Hr _]]]]]]].
  exists w', evs. split; [|exact Hget].
  rewrite Hrun, Hr. reflexivity.
Defined.

(** ** The heap: copying a document *)

Lemma revive_JArr (items : list json) (h : heap) :
  revive (JArr items) h =
    let '(h1, vs) := revive_items items h in
    (h1 ++ [HArr vs []], HRef (length h1)).
Proof. reflexivity. Qed.

Lemma revive_JObj (members : list (string * json)) (h : heap) :
  revive (JObj members) h =
    let '(h1, fs) := revive_members members h in
    (h1 ++ [HObj fs], HRef (length h1)).
Proof. reflexivity. Qed.

(** ** What an operation leaves alone *)

Section Frame.
Context {T : Type} (f : world -> T).

Lemma keeps_ret {A} (a : A) : keeps f (ret a).
Proof. intros w. reflexivity. Qed.

Lemma keeps_throw {A} (e : exn) : keeps f (@throw A e).
Proof. intros w. reflexivity. Qed.

Lemma keeps_emit (ev : event) : keeps f (emit ev).
Proof. intros w. reflexivity. Qed.

Lemma keeps_await {A} (c : completion A) : keeps f (await c).
Proof. intros w. reflexivity. Qed.

Lemma keeps_get_this : keeps f get_this.
Proof. intros w. reflexivity. Qed.

Lemma keeps_get_store : keeps f get_store.
Proof. intros w. reflexivity. Qed.

Lemma keeps_bind {A B} (m : M A) (k : A -> M B) :
  keeps f m -> (forall a, keeps f (k a)) -> keeps f (bind m k).
Proof.
  intros Hm Hk w. specialize (Hm w). unfold bind, world_of in *.
  destruct (m w) as [[[a|e] w1] evs1]; cbn in *; [|exact Hm].
  specialize (Hk a w1). unfold world_of in Hk.
  destruct (k a w1) as [[r w2] evs2]. cbn in *. congruence.
Qed.

Lemma keeps_try_catch {A} (m : M A) (handler : exn -> M A) :
  keeps f m -> (forall e, keeps f (handler e)) -> keeps f (try_catch m handler).
Proof.
  intros Hm Hk w. specialize (Hm w). unfold try_catch, world_of in *.
  destruct (m w) as [[[a|e] w1] evs1]; cbn in *; [exact Hm|].
  specialize (Hk e w1). unfold world_of in Hk.
  destruct (handler e w1) as [[r w2] evs2]. cbn in *. congruence.
Qed.

Lemma keeps_forEach {A} (g : A -> M unit) (l : list A) :
  (forall x, keeps f (g x)) -> keeps f (forEach g l).
Proof.
  intros Hg. induction l as [|x l IH]; [apply keeps_ret|].
  cbn [forEach]. apply keeps_bind; [apply Hg|intros _; exact IH].
Qed.

Lemma keeps_call (ev : event) (o : outcome) : keeps f (call ev o).
Proof.
  unfold call. apply keeps_bind; [apply keeps_emit|].
  intros _. destruct o; [apply keeps_ret|apply keeps_throw].
Qed.

Lemma keeps_push_current (v : view_obj) (sig : string -> prim -> outcome) :
  keeps f (push_current v sig).
Proof.
  unfold push_current, call_run. apply keeps_bind; [apply keeps_get_this|].
  intros d. apply keeps_bind; [apply keeps_call|]. intros _.
  destruct (view_run v); [apply keeps_call|apply keeps_throw].
Qed.

Lemma keeps_updateAllViews : keeps f updateAllViews.
Proof.
  unfold updateAllViews. apply keeps_bind; [apply keeps_get_this|].
  intros d. apply keeps_forEach. intros [name view]. unfold update_view.
  apply keeps_try_catch; [|intros e; apply keeps_emit].
  destruct view as [|v]; [apply keeps_ret|].
  destruct (view_signal v); [apply keeps_push_current|apply keeps_ret].
Qed.

Lemma keeps_triggerListeners (event : string) (data : payload) :
  keeps f (triggerListeners event data).
Proof.
  unfold triggerListeners. apply keeps_bind; [apply keeps_get_this|].
  intros d. destruct (listeners d !! event); [|apply keeps_ret].
  apply keeps_forEach. intros cb. unfold notify.
  apply keeps_try_catch; [apply keeps_call|intros e; apply keeps_emit].
Qed.

(** Operations on the heap are invisible to an observation that does not
    look at the store. *)
Hypothesis f_store : forall h w, f (with_store h w) = f w.

Lemma keeps_member (v : hval) (k : string) : keeps f (member v k).
Proof. intros w. reflexivity. Qed.

Lemma keeps_find (params : hval) : keeps f (find params).
Proof. intros w. reflexivity. Qed.

Lemma keeps_assign (v : hval) (k : string) (x : hval) : keeps f (assign v k x).
Proof.
  intros w. unfold assign, world_of.
  destruct (set_member (store w) v k x); cbn; [apply f_store|reflexivity].
Qed.

Lemma keeps_unshift (params x : hval) : keeps f (unshift params x).
Proof.
  intros w. unfold unshift, world_of.
  destruct (array_unshift (store w) params x); cbn; [apply f_store|reflexivity].
Qed.

Lemma keeps_alloc (o : hobj) : keeps f (alloc o).
Proof. intros w. apply f_store. Qed.

Lemma keeps_JSON_parse (t : json) : keeps f (JSON_parse t).
Proof.
  intros w. unfold JSON_parse, world_of.
  destruct (revive t (store w)) as [h v]. apply f_store.
Qed.

Lemma keeps_JSON_clone (spec : hval) : keeps f (JSON_clone spec).
Proof.
  intros w. unfold JSON_clone.
  destruct (JSON_stringify (store w) spec) as [[t|]|]; try reflexivity.
  apply keeps_JSON_parse.
Qed.

Lemma keeps_inject (params : hval) (cur : prim) :
  keeps f (let! entry :=
           alloc (HObj [("name", HStr "globalYear"); ("value", HPrim cur)]) in
         unshift params entry).
Proof. apply keeps_bind; [apply keeps_alloc|intros entry; apply keeps_unshift]. Qed.

Lemma keeps_prepareSpec (spec : hval) : keeps f (prepareSpec spec).
Proof.
  unfold prepareSpec.
  apply keeps_bind; [apply keeps_JSON_clone|]. intros preparedSpec.
  apply keeps_bind; [apply keeps_member|]. intros params0.
  apply keeps_bind.
  { destruct (truthy_hval params0); [apply keeps_ret|].
    apply keeps_bind; [apply keeps_alloc|intros empty; apply keeps_assign]. }
  intros _. apply keeps_bind; [apply keeps_member|]. intros params.
  apply keeps_bind; [apply keeps_find|]. intros found.
  apply keeps_bind; [apply keeps_get_this|]. intros d.
  apply keeps_bind; [|intros _; apply keeps_ret].
  destruct found as [p|]; [|apply keeps_inject].
  destruct (truthy_hval p); [apply keeps_assign|apply keeps_inject].
Qed.

(** ... and so is a change of the registry to an observation that does
    not look at the views. *)
Hypothesis f_views : forall name view w, f (view_stored name view w) = f w.

Lemma keeps_registerView (name : string) (view : handle) :
  keeps f (registerView name view).
Proof.
  unfold registerView. destruct view as [|v]; [apply keeps_emit|].
  destruct (view_signal v); [|apply keeps_emit].
  apply keeps_bind; [intros w; apply f_views|]. intros _.
  apply keeps_bind; [apply keeps_push_current|intros _; apply keeps_emit].
Qed.

Lemma keeps_loadVisualization (env : page) (containerId specPath viewName : string) :
  keeps f (loadVisualization env containerId specPath viewName).
Proof.
  unfold loadVisualization. apply keeps_try_catch.
  - apply keeps_bind; [apply keeps_emit|]. intros _.
    apply keeps_bind; [apply keeps_await|]. intros resp.
    apply keeps_bind; [apply keeps_await|]. intros document.
    apply keeps_bind; [apply keeps_JSON_parse|]. intros spec.
    apply keeps_bind; [apply keeps_prepareSpec|]. intros preparedSpec.
    apply keeps_bind; [apply keeps_emit|]. intros _.
    apply keeps_bind; [apply keeps_get_store|]. intros h.
    apply keeps_bind; [apply keeps_await|]. intros result.
    apply keeps_bind; [apply keeps_registerView|]. intros _.
    apply keeps_bind; [apply keeps_emit|intros _; apply keeps_ret].
  - intros e. apply keeps_bind; [apply keeps_emit|intros _; apply keeps_throw].
Qed.
End Frame.

(** ** The range invariant *)

Lemma run_op_keeps_state (env : page) (o : op) (w : world) :
  (forall newYear, o <> UpdateYear newYear) ->
  (forall key value, o <> SetValue key value) ->
  state (this (world_of (run_op env o w))) = state (this w).
Proof.
  intros Hu Hs.
  assert (Hstore : forall h w0, state (this (with_store h w0)) = state (this w0))
    by reflexivity.
  assert (Hviews : forall name view w0,
             state (this (view_stored name view w0)) = state (this w0))
    by reflexivity.
  destruct o; cbn [run_op].
  - unfold init, world_of. cbn.
    destruct (yearSlider w), (yearDisplay w); reflexivity.
  - now destruct (Hu newYear).
  - now apply (keeps_registerView (fun w0 => state (this w0))).
  - reflexivity.
  - apply (keeps_updateAllViews (fun w0 => state (this w0))).
  - reflexivity.
  - unfold removeEventListener, modify_this, with_listeners, world_of. cbn.
    reflexivity.
  - apply (keeps_triggerListeners (fun w0 => state (this w0))).
  - reflexivity.
  - reflexivity.
  - now destruct (Hs key value).
  - apply (keeps_bind (fun w0 => state (this w0)));
      [now apply keeps_prepareSpec|intros a; apply keeps_ret].
  - apply (keeps_bind (fun w0 => state (this w0)));
      [now apply keeps_loadVisualization|intros a; apply keeps_ret].
Qed.

Lemma accepted_by_default_bounds (newYear : prim) :
  js_ge newYear (VNumber 2005) && js_le newYear (VNumber 2025) = true ->
  exists n, newYear = VNumber n /\ 2005 <= n <= 2025.
Proof.
  intros H. apply andb_true_iff in H as [Hge Hle].
  destruct newYear as [| |b|n|]; cbn in Hge, Hle; try discriminate.
  - destruct b; discriminate.
  - exists n. split; [reflexivity|]. lia.
Qed.

Lemma run_op_default_bounds (env : page) (o : op) (w : world) :
  default_bounds_invariant (this w) ->
  bounds_kept o = true ->
  default_bounds_invariant (this (world_of (run_op env o w))).
Proof.
  intros (Hs & He & c & Hc & Hrange) Hkept.
  destruct o as [|newYear| | | | | | | | |key value| |];
    try (unfold default_bounds_invariant;
         rewrite run_op_keeps_state by discriminate; eauto 6; fail).
  - cbn [run_op].
    destruct (js_ge newYear (read_state (this w) "startYear")
              && js_le newYear (read_state (this w) "endYear")) eqn:Hin.
    + rewrite (updateYear_accepts _ _ Hin). unfold world_of. cbn [fst snd].
      unfold read_state in Hin. rewrite Hs, He in Hin. cbn [default] in Hin.
      apply accepted_by_default_bounds in Hin as (n & -> & Hn).
      unfold default_bounds_invariant. cbn.
      rewrite !lookup_insert_ne by discriminate.
      rewrite lookup_insert_eq. eauto 6.
    + rewrite (updateYear_rejects _ _ Hin). unfold default_bounds_invariant.
      cbn. eauto 6.
  - cbn [run_op]. rewrite setValue_run. unfold world_of. cbn [fst snd].
    cbn in Hkept. apply negb_true_iff, bool_decide_eq_false in Hkept.
    unfold default_bounds_invariant. cbn [state_assigned this].
    rewrite !set_state_lookup_ne by (intros <-; apply Hkept; auto).
    eauto 6.
Qed.

(** C2, as stated, fails: [setValue("currentYear", 3000)] on the initial
    state leaves [currentYear] above [endYear]. *)
Lemma setValue_breaks_year_invariant :
  ~ year_invariant
      (this (run_ops offline_page [SetValue "currentYear" (VNumber 3000)] fresh_world)).
Proof.
  intros (s & c & e & Hs & Hc & He & Hle).
  vm_compute in Hc. vm_compute in He.
  injection Hc as <-. injection He as <-. lia.
Qed.

(** C2, amended: starting from the initial state (current year 2010,
    bounds 2005 and 2025), after every sequence of calls of the public
    interface in which [setValue] is not applied to ["currentYear"],
    ["startYear"] or ["endYear"], the invariant
    [startYear <= currentYear <= endYear] holds; [updateYear] maintains it,
    [setValue] does not validate. *)
Theorem year_invariant_without_setValue (env : page) (os : list op)
    (slider display : option prim) :
  forallb bounds_kept os = true ->
  year_invariant (this (run_ops env os (initial_world slider display))).
Proof.
  intros Hos.
  assert (Hinv : default_bounds_invariant
                   (this (run_ops env os (initial_world slider display)))).
  { assert (H0 : default_bounds_invariant (this (initial_world slider display))).
    { split; [reflexivity|]. split; [reflexivity|].
      exists 2010. split; [reflexivity|lia]. }
    revert H0. generalize (initial_world slider display).
    induction os as [|o os IH]; intros w Hw; [exact Hw|].
    cbn in Hos. apply andb_true_iff in Hos as [Ho Hos].
    cbn [run_ops]. apply IH; [exact Hos|].
    now apply run_op_default_bounds. }
  destruct Hinv as (Hs & He & c & Hc & Hrange).
  exists 2005, c, 2025. auto.
Qed.

Lemma year_invariant_without_setValue_witness :
  forallb bounds_kept
    [UpdateYear (VNumber 2030); SetValue "theme" (VNumber 1);
     UpdateYear (VNumber 2015)] = true /\
  year_invariant
    (this (run_ops offline_page
             [UpdateYear (VNumber 2030); SetValue "theme" (VNumber 1);
              UpdateYear (VNumber 2015)]
             (initial_world None None))).
Proof.
  split; [reflexivity|].
  apply (year_invariant_without_setValue offline_page
           [UpdateYear (VNumber 2030); SetValue "theme" (VNumber 1);
            UpdateYear (VNumber 2015)] None None).
  reflexivity.
Defined.

(** ** [loadVisualization] *)

Lemma bind_assoc {A B C} (m : M A) (k : A -> M B) (k' : B -> M C) (w : world) :
  bind (bind m k) k' w = bind m (fun a => bind (k a) k') w.
Proof.
  unfold bind. destruct (m w) as [[[a|e] w1] evs1]; [|reflexivity].
  destruct (k a w1) as [[[b|e] w2] evs2]; [|reflexivity].
  destruct (k' b w2) as [[r w3] evs3]. now rewrite app_assoc.
Qed.

Lemma run_op_absorbing (env : page) (o : op) (w : world) :
  absorbing o = true -> result_of (run_op env o w) = Normal tt.
Proof.
  intros Habs. destruct o; try discriminate; cbn [run_op]; try reflexivity.
  - destruct (js_ge newYear (read_state (this w) "startYear")
              && js_le newYear (read_state (this w) "endYear")) eqn:Hin.
    + now rewrite (updateYear_accepts _ _ Hin).
    + now rewrite (updateYear_rejects _ _ Hin).
  - now rewrite updateAllViews_run.
  - now rewrite triggerListeners_run.
  - now rewrite setValue_run.
Qed.

(** C9, as stated, fails: [loadVisualization] is not the only operation
    whose failures reach the caller; a direct [registerView] lets the
    exception of the view's first render through. *)
Lemma registerView_failure_reaches_caller :
  absorbing (RegisterView "bars" (Handle (chart_run_throws 1))) = false /\
  result_of (run_op offline_page
               (RegisterView "bars" (Handle (chart_run_throws 1))) fresh_world)
    = Throw "render failed".
Proof. split; reflexivity. Qed.

(** C9, amended: every failure at a suspension point of
    [loadVisualization] (fetching or decoding the configuration,
    instantiating the chart) is reported on the console with [viewName],
    as the last event of the call, and thrown again to the caller; among
    the other operations, [init], [updateYear], [unregisterView],
    [updateAllViews], [addEventListener], [removeEventListener],
    [triggerListeners], [getState], [getValue] and [setValue] never throw,
    whereas [registerView] and [prepareSpec] can. *)
Theorem loadVisualization_reports_and_rethrows (env : page)
    (containerId specPath viewName : string) (w : world) (e : exn) :
  suspension_failure env containerId specPath w e ->
  (exists w' evs,
     loadVisualization env containerId specPath viewName w =
       (Throw e, w', evs ++ [ConsoleError (MsgLoadError viewName e)])) /\
  (forall o w0, absorbing o = true -> result_of (run_op env o w0) = Normal tt).
Proof.
  intros Hfail. split; [|intros o w0; apply run_op_absorbing].
  destruct Hfail as [Hfetch|[(resp & Hfetch & Hbody)|
    (resp & document & p & w1 & evs & Hfetch & Hbody & Hprep & Hembed)]].
  - exists w, [CallFetch specPath].
    unfold loadVisualization, try_catch, bind, emit, await, throw.
    now rewrite Hfetch.
  - exists w, [CallFetch specPath].
    unfold loadVisualization, try_catch, bind, emit, await, throw.
    now rewrite Hfetch, Hbody.
  - exists w1, (CallFetch specPath :: evs ++ [CallEmbed containerId]).
    unfold loadVisualization, try_catch.
    rewrite (bind_normal _ _ w tt w [CallFetch specPath]) by reflexivity.
    rewrite (bind_normal _ _ w resp w []) by (unfold await; now rewrite Hfetch).
    rewrite (bind_normal _ _ w document w []) by (unfold await; now rewrite Hbody).
    rewrite <- bind_assoc. rewrite (bind_normal _ _ _ _ _ _ Hprep).
    rewrite (bind_normal _ _ w1 tt w1 [CallEmbed containerId]) by reflexivity.
    rewrite (bind_normal _ _ w1 (store w1) w1 []) by reflexivity.
    rewrite (bind_throw _ _ w1 e w1 []) by (unfold await; now rewrite Hembed).
    unfold emit, throw, bind. cbn. reflexivity.
Qed.

Lemma loadVisualization_reports_and_rethrows_witness :
  suspension_failure broken_embed_page "#vis" "spec.json" fresh_world "no container" /\
  exists w' evs,
    loadVisualization broken_embed_page "#vis" "spec.json" "bars" fresh_world =
      (Throw "no container", w',
       evs ++ [ConsoleError (MsgLoadError "bars" "no container")]).
Proof.
  assert (H : suspension_failure broken_embed_page "#vis" "spec.json" fresh_world
                "no container").
  { right. right. eexists _, _, _, _, _.
    split; [reflexivity|]. split; [reflexivity|]. split; reflexivity. }
  split; [exact H|].
  exact (proj1 (loadVisualization_reports_and_rethrows broken_embed_page
                  "#vis" "spec.json" "bars" fresh_world "no container" H)).
Defined.

(** Induction on documents, with the hypothesis available on the items
    of an array and on the members of an object. *)
Lemma json_nested_ind (P : json -> Prop) :
  P JNull ->
  (forall b, P (JBool b)) ->
  (forall n, P (JNum n)) ->
  (forall s, P (JStr s)) ->
  (forall items, Forall P items -> P (JArr items)) ->
  (forall members, Forall (fun kt => P kt.2) members -> P (JObj members)) ->
  forall t, P t.
Proof.
  intros Hnull Hbool Hnum Hstr Harr Hobj.
  fix IH 1. intros [| b | n | s | items | members].
  - exact Hnull.
  - apply Hbool.
  - apply Hnum.
  - apply Hstr.
  - apply Harr. induction items as [|t items IHitems]; constructor;
      [apply IH|exact IHitems].
  - apply Hobj. induction members as [|[k t] members IHmembers]; constructor;
      [apply IH|exact IHmembers].
Qed.

Lemma heap_prefix_trans (h1 h2 h3 : heap) :
  h1 `prefix_of` h2 -> h2 `prefix_of` h3 -> h1 `prefix_of` h3.
Proof. intros [k1 ->] [k2 ->]. exists (k1 ++ k2). now rewrite app_assoc. Qed.

Lemma agrees_narrow (lo hi lo' hi' : nat) (g h h' : heap) :
  agrees lo hi g h ->
  h' `prefix_of` h ->
  (lo <= lo')%nat -> (hi' <= hi)%nat -> (hi' <= length h')%nat ->
  agrees lo' hi' g h'.
Proof.
  intros Hag Hpre Hlo Hhi Hlen l Hl. rewrite Hag by lia.
  symmetry. apply prefix_lookup_lt; [lia|exact Hpre].
Qed.

Lemma serialize_items_reads (n : nat) (g : heap) (vs : list hval) (ts : list json) :
  Forall2 (reads n g) vs ts ->
  serialize_items (serialize n g) vs = Some ts.
Proof.
  induction 1 as [|v t vs ts Hv _ IH]; [reflexivity|].
  cbn. unfold reads in Hv. now rewrite Hv, IH.
Qed.

Lemma serialize_members_reads (n : nat) (g : heap)
    (fs : list (string * hval)) (ms : list (string * json)) :
  Forall2 (reads_member n g) fs ms ->
  serialize_members (serialize n g) fs = Some ms.
Proof.
  induction 1 as [|[k v] [k' t] fs ms [Hk Hv] _ IH]; [reflexivity|].
  cbn in *. unfold reads in Hv. subst k'. now rewrite Hv, IH.
Qed.

Lemma reads_array (n : nat) (g : heap) (l : loc) (vs : list hval)
    (props : list (string * hval)) (ts : list json) :
  g !! l = Some (HArr vs props) ->
  Forall2 (reads n g) vs ts ->
  reads (S n) g (HRef l) (JArr ts).
Proof.
  intros Hl Hvs. unfold reads. cbn. rewrite Hl.
  now rewrite (serialize_items_reads _ _ _ _ Hvs).
Qed.

Lemma reads_object (n : nat) (g : heap) (l : loc)
    (fs : list (string * hval)) (ms : list (string * json)) :
  g !! l = Some (HObj fs) ->
  serialize_members (serialize n g) fs = Some ms ->
  reads (S n) g (HRef l) (JObj ms).
Proof. intros Hl Hfs. unfold reads. cbn. now rewrite Hl, Hfs. Qed.

Lemma copied_items_of (ts : list json) :
  Forall (fun t => forall h h' v, revive t h = (h', v) -> copied h h' v t) ts ->
  forall h h' vs, revive_items ts h = (h', vs) -> copied_items h h' vs ts.
Proof.
  induction 1 as [|t ts Ht _ IH]; intros h h' vs Hrev; cbn in Hrev.
  - injection Hrev as <- <-. split; [reflexivity|]. intros; constructor.
  - destruct (revive t h) as [h1 v] eqn:E1.
    destruct (revive_items ts h1) as [h2 vs'] eqn:E2.
    injection Hrev as <- <-.
    destruct (Ht _ _ _ E1) as [Hp1 Hr1]. destruct (IH _ _ _ E2) as [Hp2 Hr2].
    pose proof (prefix_length _ _ Hp1). pose proof (prefix_length _ _ Hp2).
    split; [exact (heap_prefix_trans _ _ _ Hp1 Hp2)|]. intros g n Hag Hn. constructor.
    + apply Hr1; [|lia]. eapply agrees_narrow; eauto; lia.
    + apply Hr2; [|lia]. eapply agrees_narrow; eauto; lia.
Qed.

Lemma copied_members_of (ms : list (string * json)) :
  Forall (fun kt => forall h h' v, revive kt.2 h = (h', v) -> copied h h' v kt.2) ms ->
  forall h h' fs, revive_members ms h = (h', fs) -> copied_members h h' fs ms.
Proof.
  induction 1 as [|[k t] ms Ht _ IH]; intros h h' fs Hrev; cbn in Hrev.
  - injection Hrev as <- <-. split; [reflexivity|]. intros; constructor.
  - cbn in Ht. destruct (revive t h) as [h1 v] eqn:E1.
    destruct (revive_members ms h1) as [h2 fs'] eqn:E2.
    injection Hrev as <- <-.
    destruct (Ht _ _ _ E1) as [Hp1 Hr1]. destruct (IH _ _ _ E2) as [Hp2 Hr2].
    pose proof (prefix_length _ _ Hp1). pose proof (prefix_length _ _ Hp2).
    split; [exact (heap_prefix_trans _ _ _ Hp1 Hp2)|]. intros g n Hag Hn. constructor.
    + split; [reflexivity|]. apply Hr1; [|lia]. eapply agrees_narrow; eauto; lia.
    + apply Hr2; [|lia]. eapply agrees_narrow; eauto; lia.
Qed.

Lemma revive_copied (t : json) :
  forall h h' v, revive t h = (h', v) -> copied h h' v t.
Proof.
  induction t as [| b | n | s | items IH | members IH] using json_nested_ind;
    intros h h' v Hrev.
  1-4: cbn in Hrev; injection Hrev as <- <-; split; [reflexivity|];
       intros g n' _ _; unfold reads; destruct n'; reflexivity.
  - rewrite revive_JArr in Hrev.
    destruct (revive_items items h) as [h1 vs] eqn:E.
    injection Hrev as <- <-.
    destruct (copied_items_of _ IH _ _ _ E) as [Hp Hr].
    pose proof (prefix_length _ _ Hp).
    split; [now apply prefix_app_r|].
    intros g n Hag Hn. rewrite length_app in Hn, Hag. cbn in Hn, Hag.
    destruct n as [|n]; [lia|].
    apply (reads_array _ _ _ vs []).
    + rewrite Hag by lia. now apply list_lookup_middle.
    + apply Hr; [|lia]. intros l Hl. rewrite Hag by lia.
      now rewrite lookup_app_l by lia.
  - rewrite revive_JObj in Hrev.
    destruct (revive_members members h) as [h1 fs] eqn:E.
    injection Hrev as <- <-.
    destruct (copied_members_of _ IH _ _ _ E) as [Hp Hr].
    pose proof (prefix_length _ _ Hp).
    split; [now apply prefix_app_r|].
    intros g n Hag Hn. rewrite length_app in Hn, Hag. cbn in Hn, Hag.
    destruct n as [|n]; [lia|].
    apply (reads_object _ _ _ fs).
    + rewrite Hag by lia. now apply list_lookup_middle.
    + apply serialize_members_reads. apply Hr; [|lia]. intros l Hl.
      rewrite Hag by lia. now rewrite lookup_app_l by lia.
Qed.

Lemma revive_items_copied (ts : list json) (h h' : heap) (vs : list hval) :
  revive_items ts h = (h', vs) -> copied_items h h' vs ts.
Proof.
  apply copied_items_of. apply Forall_forall. intros t _. apply revive_copied.
Qed.

Lemma revive_members_copied (ms : list (string * json)) (h h' : heap)
    (fs : list (string * hval)) :
  revive_members ms h = (h', fs) -> copied_members h h' fs ms.
Proof.
  apply copied_members_of. apply Forall_forall. intros t _. apply revive_copied.
Qed.

(** ** Association lists *)

Lemma map_get_split {V} (k : string) (x : V) (m : list (string * V)) :
  map_get k m = Some x ->
  exists m1 m2, m = m1 ++ (k, x) :: m2 /\ map_get k m1 = None.
Proof.
  induction m as [|[k' v'] m IH]; cbn; [discriminate|].
  destruct (decide (k = k')) as [->|Hne].
  - intros [= ->]. exists [], m. now split.
  - intros H. destruct (IH H) as (m1 & m2 & -> & Hm1).
    exists ((k', v') :: m1), m2. split; [reflexivity|].
    cbn. now rewrite decide_False.
Qed.

Lemma map_get_middle {V} (k : string) (x : V) (m1 m2 : list (string * V)) :
  map_get k m1 = None -> map_get k (m1 ++ (k, x) :: m2) = Some x.
Proof.
  induction m1 as [|[k' v'] m1 IH]; cbn.
  - intros _. now rewrite decide_True.
  - destruct (decide (k = k')); [discriminate|exact IH].
Qed.

Lemma map_set_absent {V} (k : string) (v : V) (m : list (string * V)) :
  map_get k m = None -> map_set k v m = m ++ [(k, v)].
Proof.
  induction m as [|[k' v'] m IH]; cbn; [reflexivity|].
  destruct (decide (k = k')); [discriminate|]. intros H. now rewrite IH.
Qed.

Lemma map_set_middle {V} (k : string) (x v : V) (m1 m2 : list (string * V)) :
  map_get k m1 = None ->
  map_set k v (m1 ++ (k, x) :: m2) = m1 ++ (k, v) :: m2.
Proof.
  induction m1 as [|[k' v'] m1 IH]; cbn.
  - intros _. now rewrite decide_True.
  - destruct (decide (k = k')); [discriminate|]. intros H. now rewrite IH.
Qed.

(** ** The layout of a copy *)

Lemma revive_members_split (ms1 : list (string * json)) (k : string) (t : json)
    (ms2 : list (string * json)) (h h1 : heap) (fs : list (string * hval)) :
  revive_members (ms1 ++ (k, t) :: ms2) h = (h1, fs) ->
  exists ha hb fs1 v fs2,
    revive_members ms1 h = (ha, fs1) /\
    revive t ha = (hb, v) /\
    revive_members ms2 hb = (h1, fs2) /\
    fs = fs1 ++ (k, v) :: fs2.
Proof.
  revert h h1 fs. induction ms1 as [|[k' t'] ms1 IH]; intros h h1 fs Hrev.
  - cbn in Hrev. destruct (revive t h) as [hb v] eqn:E1.
    destruct (revive_members ms2 hb) as [h2 fs2] eqn:E2.
    injection Hrev as <- <-. exists h, hb, [], v, fs2. auto.
  - cbn in Hrev. destruct (revive t' h) as [h0 v0] eqn:E0.
    destruct (revive_members (ms1 ++ (k, t) :: ms2) h0) as [h2 fs'] eqn:E.
    injection Hrev as <- <-.
    destruct (IH _ _ _ E) as (ha & hb & fs1 & v & fs2 & H1 & H2 & H3 & ->).
    exists ha, hb, ((k', v0) :: fs1), v, fs2. cbn. rewrite E0, H1. auto.
Qed.

Lemma revive_items_split (ts1 : list json) (t : json) (ts2 : list json)
    (h h1 : heap) (vs : list hval) :
  revive_items (ts1 ++ t :: ts2) h = (h1, vs) ->
  exists ha hb vs1 v vs2,
    revive_items ts1 h = (ha, vs1) /\
    revive t ha = (hb, v) /\
    revive_items ts2 hb = (h1, vs2) /\
    vs = vs1 ++ v :: vs2.
Proof.
  revert h h1 vs. induction ts1 as [|t' ts1 IH]; intros h h1 vs Hrev.
  - cbn in Hrev. destruct (revive t h) as [hb v] eqn:E1.
    destruct (revive_items ts2 hb) as [h2 vs2] eqn:E2.
    injection Hrev as <- <-. exists h, hb, [], v, vs2. auto.
  - cbn in Hrev. destruct (revive t' h) as [h0 v0] eqn:E0.
    destruct (revive_items (ts1 ++ t :: ts2) h0) as [h2 vs'] eqn:E.
    injection Hrev as <- <-.
    destruct (IH _ _ _ E) as (ha & hb & vs1 & v & vs2 & H1 & H2 & H3 & ->).
    exists ha, hb, (v0 :: vs1), v, vs2. cbn. rewrite E0, H1. auto.
Qed.

Lemma revive_members_get_none (k : string) (ms : list (string * json))
    (h h1 : heap) (fs : list (string * hval)) :
  revive_members ms h = (h1, fs) ->
  map_get k ms = None -> map_get k fs = None.
Proof.
  revert h h1 fs. induction ms as [|[k' t] ms IH]; intros h h1 fs Hrev Hk.
  - cbn in Hrev. now injection Hrev as <- <-.
  - cbn in Hrev, Hk. destruct (revive t h) as [h0 v0] eqn:E0.
    destruct (revive_members ms h0) as [h2 fs'] eqn:E.
    injection Hrev as <- <-. cbn.
    destruct (decide (k = k')); [discriminate|]. eauto.
Qed.

(** A copy of a string is that string; nothing else copies to a string. *)
Lemma revive_string (t : json) (h h' : heap) (s : string) :
  revive t h = (h', HStr s) <-> t = JStr s /\ h' = h.
Proof.
  split.
  - destruct t as [| b | n | s' | items | members]; cbn; try (intros [= <-]; fail);
      try discriminate.
    + intros [= <- <-]. auto.
    + rewrite <- revive_JArr.  rewrite revive_JArr.
      destruct (revive_items items h). discriminate.
    + rewrite <- revive_JObj. rewrite revive_JObj.
      destruct (revive_members members h). discriminate.
  - intros [-> ->]. reflexivity.
Qed.

(** The first entry named [globalYear], when there is one. *)
Lemma update_globalYear_found (cur : prim) (es es' : list json) :
  update_globalYear cur es = Some es' ->
  exists es1 xs es2,
    es = es1 ++ JObj xs :: es2 /\
    es' = es1 ++ JObj (with_value cur xs) :: es2 /\
    is_globalYear (JObj xs) = true /\
    Forall (fun entry => is_globalYear entry = false) es1.
Proof.
  revert es'. induction es as [|entry es IH]; intros es' H; [discriminate|].
  cbn [update_globalYear] in H.
  destruct (is_globalYear entry) eqn:Hgy.
  - destruct entry as [| | | | |xs]; try discriminate Hgy.
    injection H as <-. exists [], xs, es. auto.
  - assert (Hlater : match update_globalYear cur es with
                     | Some updated => Some (entry :: updated)
                     | None => None
                     end = Some es').
    { destruct entry; exact H. }
    destruct (update_globalYear cur es) as [updated|]; [|discriminate].
    injection Hlater as <-.
    destruct (IH _ eq_refl) as (es1 & xs & es2 & -> & -> & Hx & Hes1).
    exists (entry :: es1), xs, es2. auto.
Qed.

Lemma update_globalYear_absent (cur : prim) (es : list json) :
  update_globalYear cur es = None ->
  Forall (fun entry => is_globalYear entry = false) es.
Proof.
  induction es as [|entry es IH]; intros H; [constructor|].
  cbn [update_globalYear] in H.
  destruct (is_globalYear entry) eqn:Hgy.
  - destruct entry as [| | | | |xs]; try discriminate Hgy.
    discriminate.
  - assert (Hlater : match update_globalYear cur es with
                     | Some updated => Some (entry :: updated)
                     | None => None
                     end = None).
    { destruct entry; exact H. }
    destruct (update_globalYear cur es); [discriminate|]. auto.
Qed.

(** ** Running the heap primitives *)

Lemma JSON_clone_run (spec : hval) (doc : json) (w : world) (h' : heap) (v : hval) :
  JSON_stringify (store w) spec = Some (Some doc) ->
  revive doc (store w) = (h', v) ->
  JSON_clone spec w = (Normal v, with_store h' w, []).
Proof. intros Hs Hr. unfold JSON_clone, JSON_parse. now rewrite Hs, Hr. Qed.

Lemma member_run (v : hval) (k : string) (x : hval) (w : world) :
  get_member (store w) v k = Normal x -> member v k w = (Normal x, w, []).
Proof. intros H. unfold member. now rewrite H. Qed.

Lemma assign_run (v : hval) (k : string) (x : hval) (h : heap) (w : world) :
  set_member (store w) v k x = Normal h ->
  assign v k x w = (Normal tt, with_store h w, []).
Proof. intros H. unfold assign. now rewrite H. Qed.

Lemma find_run (params : hval) (found : option hval) (w : world) :
  array_find (store w) params = Normal found ->
  find params w = (Normal found, w, []).
Proof. intros H. unfold find. now rewrite H. Qed.

Lemma unshift_run (params x : hval) (h : heap) (w : world) :
  array_unshift (store w) params x = Normal h ->
  unshift params x w = (Normal tt, with_store h w, []).
Proof. intros H. unfold unshift. now rewrite H. Qed.

Lemma serialize_prim (n : nat) (g : heap) (p : prim) :
  serialize n g (HPrim p) = Some (json_of_prim p).
Proof. destruct n, p; reflexivity. Qed.

(** Reading an object back after [value] has been assigned. *)
Lemma serialize_members_with_value (n : nat) (g : heap) (cur : prim)
    (xfs : list (string * hval)) (xs : list (string * json)) :
  Forall2 (reads_member n g) xfs xs ->
  serialize_members (serialize n g) (map_set "value" (HPrim cur) xfs)
    = Some (with_value cur xs).
Proof.
  unfold with_value.
  induction 1 as [|[k v] [k' t] xfs xs [Hk Hv] Hrest IH]; cbn -[serialize].
  - rewrite serialize_prim. destruct (json_of_prim cur); reflexivity.
  - cbn in Hk, Hv. subst k'. unfold reads in Hv.
    destruct (decide ("value" = k)) as [<-|Hne]; cbn -[serialize].
    + rewrite serialize_prim, (serialize_members_reads _ _ _ _ Hrest).
      destruct (json_of_prim cur); reflexivity.
    + rewrite Hv, IH. destruct (json_of_prim cur); reflexivity.
Qed.

Lemma reads_globalYear_entry (n : nat) (g : heap) (l : loc) (cur : prim) :
  g !! l = Some (HObj [("name", HStr "globalYear"); ("value", HPrim cur)]) ->
  reads (S n) g (HRef l) (globalYear_entry cur).
Proof.
  intros Hl. apply (reads_object _ _ _ _ _ Hl).
  cbn -[serialize]. rewrite serialize_prim. unfold with_value.
  destruct n, (json_of_prim cur); reflexivity.
Qed.

(** ** Finding the entry *)

Lemma revive_members_names (xs : list (string * json)) (h h' : heap)
    (xfs : list (string * hval)) (k : string) (s : string) :
  revive_members xs h = (h', xfs) ->
  map_get k xfs = Some (HStr s) <-> map_get k xs = Some (JStr s).
Proof.
  revert h h' xfs. induction xs as [|[k' t] xs IH]; intros h h' xfs Hrev.
  - cbn in Hrev. injection Hrev as <- <-. cbn. split; discriminate.
  - cbn in Hrev. destruct (revive t h) as [h0 v0] eqn:E0.
    destruct (revive_members xs h0) as [h2 fs'] eqn:E.
    injection Hrev as <- <-. cbn.
    destruct (decide (k = k')); [|eauto].
    split; intros [= Heq].
    + subst v0. apply revive_string in E0 as [-> _]. reflexivity.
    + subst t. cbn in E0. now injection E0 as <- <-.
Qed.

Lemma revive_items_entries (es : list json) (h h' : heap) (vs : list hval) (g : heap) :
  revive_items es h = (h', vs) ->
  forallb is_object es = true ->
  agrees (length h) (length h') g h' ->
  Forall2 (entry_in g) vs es.
Proof.
  revert h h' vs. induction es as [|entry es IH]; intros h h' vs Hrev Hobj Hag.
  - cbn in Hrev. injection Hrev as <- <-. constructor.
  - cbn in Hrev, Hobj. apply andb_true_iff in Hobj as [Hentry Hobj].
    destruct (revive entry h) as [h0 v0] eqn:E0.
    destruct (revive_items es h0) as [h2 vs'] eqn:E.
    injection Hrev as <- <-.
    destruct (revive_copied _ _ _ _ E0) as [Hp0 _].
    destruct (revive_items_copied _ _ _ _ E) as [Hp _].
    pose proof (prefix_length _ _ Hp0). pose proof (prefix_length _ _ Hp).
    constructor.
    + destruct entry as [| | | | |xs]; try discriminate Hentry.
      rewrite revive_JObj in E0.
      destruct (revive_members xs h) as [hy xfs] eqn:Ex.
      injection E0 as <- <-.
      destruct (revive_members_copied _ _ _ _ Ex) as [Hpx _].
      pose proof (prefix_length _ _ Hpx).
      rewrite length_app in *. cbn in *.
      exists (length hy), xs, xfs. split; [reflexivity|]. split; [reflexivity|].
      split.
      * rewrite Hag by lia.
        apply (prefix_lookup_Some (hy ++ [HObj xfs])); [|exact Hp].
        now apply list_lookup_middle.
      * intros s. eapply revive_members_names; eauto.
    + eapply IH; eauto. intros l Hl. apply Hag. lia.
Qed.

Lemma get_member_entry (g : heap) (v : hval) (xs : list (string * json)) :
  entry_in g v (JObj xs) ->
  exists name,
    get_member g v "name" = Normal name /\
    (forall s, name = HStr s <-> map_get "name" xs = Some (JStr s)).
Proof.
  intros (l & xs' & xfs & -> & [= <-] & Hl & Hnames).
  cbn. rewrite Hl. eexists. split; [reflexivity|].
  intros s. etransitivity; [|apply Hnames].
  destruct (map_get "name" xfs) as [x|]; cbn.
  - split; [intros ->; reflexivity|intros [= ->]; reflexivity].
  - split; discriminate.
Qed.

Lemma find_globalYear_step (g : heap) (v : hval) (entry : json) (vs : list hval) :
  entry_in g v entry ->
  find_globalYear g (v :: vs) =
    if is_globalYear entry then Normal (Some v) else find_globalYear g vs.
Proof.
  intros Hin. pose proof Hin as (l & xs & xfs & -> & -> & Hl & Hnames).
  destruct (get_member_entry _ _ _ Hin) as (name & Hget & Hname).
  cbn [find_globalYear]. rewrite Hget. cbn [is_globalYear].
  destruct name as [p|s|l'].
  - destruct (map_get "name" xs) as [[| | |s| |]|] eqn:E; try reflexivity.
    discriminate (proj2 (Hname s) eq_refl).
  - rewrite (proj1 (Hname s) eq_refl).
    destruct (decide (s = "globalYear")) as [->|Hne].
    + now rewrite bool_decide_true.
    + now rewrite bool_decide_false.
  - destruct (map_get "name" xs) as [[| | |s| |]|] eqn:E; try reflexivity.
    discriminate (proj2 (Hname s) eq_refl).
Qed.

Lemma find_globalYear_absent (g : heap) (vs : list hval) (es : list json) :
  Forall2 (entry_in g) vs es ->
  Forall (fun entry => is_globalYear entry = false) es ->
  find_globalYear g vs = Normal None.
Proof.
  induction 1 as [|v entry vs es Hin _ IH]; intros Hno; [reflexivity|].
  inversion Hno as [|? ? Hentry Hrest]; subst.
  rewrite (find_globalYear_step _ _ _ _ Hin), Hentry. auto.
Qed.

Lemma find_globalYear_first (g : heap) (vs1 : list hval) (v : hval) (vs2 : list hval)
    (es1 : list json) (entry : json) (es2 : list json) :
  Forall2 (entry_in g) vs1 es1 ->
  entry_in g v entry ->
  Forall (fun entry => is_globalYear entry = false) es1 ->
  is_globalYear entry = true ->
  find_globalYear g (vs1 ++ v :: vs2) = Normal (Some v).
Proof.
  intros Hvs Hv Hno Hyes.
  induction Hvs as [|v' entry' vs1 es1 Hin _ IH].
  - cbn [app]. now rewrite (find_globalYear_step _ _ _ _ Hv), Hyes.
  - inversion Hno as [|? ? Hentry Hrest]; subst.
    cbn [app]. rewrite (find_globalYear_step _ _ _ _ Hin), Hentry. auto.
Qed.

(** ** A copy shares nothing with its source *)

Lemma fresh_items_of (base : nat) (ts : list json) :
  Forall (fun t => forall h0 h' v, revive t h0 = (h', v) -> (base <= length h0)%nat ->
                   hval_from base v /\ fresh_from base h0 h') ts ->
  forall h0 h' vs, revive_items ts h0 = (h', vs) -> (base <= length h0)%nat ->
    Forall (hval_from base) vs /\ fresh_from base h0 h'.
Proof.
  induction 1 as [|t ts Ht _ IH]; intros h0 h' vs Hrev Hbase; cbn in Hrev.
  - injection Hrev as <- <-. split; [constructor|].
    intros l o Hl Hlook. apply lookup_lt_Some in Hlook. lia.
  - destruct (revive t h0) as [h1 v] eqn:E1.
    destruct (revive_items ts h1) as [h2 vs'] eqn:E2.
    injection Hrev as <- <-.
    destruct (revive_copied _ _ _ _ E1) as [Hp1 _].
    destruct (revive_items_copied _ _ _ _ E2) as [Hp2 _].
    pose proof (prefix_length _ _ Hp1).
    destruct (Ht _ _ _ E1 Hbase) as [Hv Hf1].
    destruct (IH _ _ _ E2 ltac:(lia)) as [Hvs Hf2].
    split; [now constructor|]. intros l o Hl Hlook.
    destruct (decide (l < length h1)%nat) as [Hlt|Hge].
    + apply (Hf1 l o Hl). now rewrite (prefix_lookup_lt h1 h2 l Hlt Hp2).
    + apply (Hf2 l o); [lia|exact Hlook].
Qed.

Lemma fresh_members_of (base : nat) (ms : list (string * json)) :
  Forall (fun kt => forall h0 h' v, revive kt.2 h0 = (h', v) -> (base <= length h0)%nat ->
                    hval_from base v /\ fresh_from base h0 h') ms ->
  forall h0 h' fs, revive_members ms h0 = (h', fs) -> (base <= length h0)%nat ->
    Forall (fun kv => hval_from base kv.2) fs /\ fresh_from base h0 h'.
Proof.
  induction 1 as [|[k t] ms Ht _ IH]; intros h0 h' fs Hrev Hbase; cbn in Hrev.
  - injection Hrev as <- <-. split; [constructor|].
    intros l o Hl Hlook. apply lookup_lt_Some in Hlook. lia.
  - cbn in Ht. destruct (revive t h0) as [h1 v] eqn:E1.
    destruct (revive_members ms h1) as [h2 fs'] eqn:E2.
    injection Hrev as <- <-.
    destruct (revive_copied _ _ _ _ E1) as [Hp1 _].
    destruct (revive_members_copied _ _ _ _ E2) as [Hp2 _].
    pose proof (prefix_length _ _ Hp1).
    destruct (Ht _ _ _ E1 Hbase) as [Hv Hf1].
    destruct (IH _ _ _ E2 ltac:(lia)) as [Hfs Hf2].
    split; [now constructor|]. intros l o Hl Hlook.
    destruct (decide (l < length h1)%nat) as [Hlt|Hge].
    + apply (Hf1 l o Hl). now rewrite (prefix_lookup_lt h1 h2 l Hlt Hp2).
    + apply (Hf2 l o); [lia|exact Hlook].
Qed.

Lemma revive_fresh (base : nat) (t : json) :
  forall h0 h' v, revive t h0 = (h', v) -> (base <= length h0)%nat ->
    hval_from base v /\ fresh_from base h0 h'.
Proof.
  induction t as [| b | n | s | items IH | members IH] using json_nested_ind;
    intros h0 h' v Hrev Hbase.
  1-4: cbn in Hrev; injection Hrev as <- <-; split; [exact I|];
       intros l o Hl Hlook; apply lookup_lt_Some in Hlook; lia.
  - rewrite revive_JArr in Hrev.
    destruct (revive_items items h0) as [h1 vs] eqn:E.
    injection Hrev as <- <-.
    destruct (fresh_items_of _ _ IH _ _ _ E Hbase) as [Hvs Hf].
    destruct (revive_items_copied _ _ _ _ E) as [Hp _].
    pose proof (prefix_length _ _ Hp).
    split; [cbn; lia|]. intros l o Hl Hlook.
    apply lookup_snoc_Some in Hlook as [[Hlt Hlook]|[_ <-]].
    + exact (Hf l o Hl Hlook).
    + split; [exact Hvs|constructor].
  - rewrite revive_JObj in Hrev.
    destruct (revive_members members h0) as [h1 fs] eqn:E.
    injection Hrev as <- <-.
    destruct (fresh_members_of _ _ IH _ _ _ E Hbase) as [Hfs Hf].
    destruct (revive_members_copied _ _ _ _ E) as [Hp _].
    pose proof (prefix_length _ _ Hp).
    split; [cbn; lia|]. intros l o Hl Hlook.
    apply lookup_snoc_Some in Hlook as [[Hlt Hlook]|[_ <-]].
    + exact (Hf l o Hl Hlook).
    + exact Hfs.
Qed.

Lemma Forall_map_set {V} (P : string * V -> Prop) (k : string) (v : V)
    (m : list (string * V)) :
  Forall P m -> P (k, v) -> Forall P (map_set k v m).
Proof.
  intros Hm Hv. induction Hm as [|[k' v'] m Hx Hrest IH]; cbn.
  - now constructor.
  - destruct (decide (k = k')); now constructor.
Qed.

(** ** Reading in a larger heap, with more fuel *)

Lemma serialize_items_ext (f f' : hval -> option (option json)) (vs : list hval)
    (ts : list json) :
  (forall v r, f v = Some r -> f' v = Some r) ->
  serialize_items f vs = Some ts -> serialize_items f' vs = Some ts.
Proof.
  intros Hff. revert ts. induction vs as [|v vs IH]; intros ts H; [exact H|].
  cbn in H |- *. destruct (f v) as [o|] eqn:Ev; [|discriminate].
  destruct (serialize_items f vs) as [ts'|]; [|discriminate].
  now rewrite (Hff _ _ Ev), (IH _ eq_refl).
Qed.

Lemma serialize_members_ext (f f' : hval -> option (option json))
    (fs : list (string * hval)) (ms : list (string * json)) :
  (forall v r, f v = Some r -> f' v = Some r) ->
  serialize_members f fs = Some ms -> serialize_members f' fs = Some ms.
Proof.
  intros Hff. revert ms. induction fs as [|[k v] fs IH]; intros ms H; [exact H|].
  cbn in H |- *. destruct (f v) as [o|] eqn:Ev; [|discriminate].
  rewrite (Hff _ _ Ev).
  destruct (serialize_members f fs) as [ms'|];
    [|destruct o; discriminate].
  now rewrite (IH _ eq_refl).
Qed.

Lemma serialize_extend (n n' : nat) (h g : heap) (v : hval) (r : option json) :
  serialize n h v = Some r ->
  h `prefix_of` g -> (n <= n')%nat ->
  serialize n' g v = Some r.
Proof.
  revert n' v r. induction n as [|n IH]; intros n' v r Hser Hpre Hn.
  - destruct v as [p|s|l]; [| |discriminate].
    + now rewrite serialize_prim in Hser |- *.
    + destruct n'; exact Hser.
  - destruct v as [p|s|l].
    + now rewrite serialize_prim in Hser |- *.
    + destruct n'; exact Hser.
    + destruct n' as [|n']; [lia|]. cbn in Hser |- *.
      destruct (h !! l) as [o|] eqn:El; [|discriminate].
      rewrite (prefix_lookup_Some _ _ _ _ El Hpre).
      destruct o as [elems props|fields].
      * destruct (serialize_items (serialize n h) elems) as [ts|] eqn:E;
          [|discriminate].
        rewrite (serialize_items_ext _ (serialize n' g) _ _
                   (fun v r H => IH n' v r H Hpre ltac:(lia)) E).
        exact Hser.
      * destruct (serialize_members (serialize n h) fields) as [ms|] eqn:E;
          [|discriminate].
        rewrite (serialize_members_ext _ (serialize n' g) _ _
                   (fun v r H => IH n' v r H Hpre ltac:(lia)) E).
        exact Hser.
Qed.

(** ** [prepareSpec] on a configuration *)

Lemma bind_silent {A B} (m : M A) (k : A -> M B) w a w1 :
  m w = (Normal a, w1, []) -> bind m k w = k a w1.
Proof. intros H. unfold bind. rewrite H. now destruct (k a w1) as [[r w2] evs2]. Qed.

Ltac step H := rewrite (bind_silent _ _ _ _ _ H).

Lemma map_get_set_ne {V} (k k' : string) (v : V) (m : list (string * V)) :
  k <> k' -> map_get k (map_set k' v m) = map_get k m.
Proof.
  intros Hne. induction m as [|[k0 v0] m IH]; cbn.
  - now rewrite decide_False.
  - destruct (decide (k' = k0)) as [->|Hne']; cbn.
    + now rewrite !decide_False.
    + destruct (decide (k = k0)); [reflexivity|exact IH].
Qed.

Lemma is_globalYear_name (xs : list (string * json)) :
  is_globalYear (JObj xs) = true -> map_get "name" xs = Some (JStr "globalYear").
Proof.
  cbn. destruct (map_get "name" xs) as [[| | |s| |]|]; try discriminate.
  intros H. apply bool_decide_eq_true in H. now subst s.
Qed.

Lemma prepareSpec_creates_params (w : world) (spec : hval) (ms : list (string * json)) :
  JSON_stringify (store w) spec = Some (Some (JObj ms)) ->
  map_get "params" ms = None ->
  exists l g,
    prepared_as w spec
      (JObj (ms ++ [("params",
                     JArr [globalYear_entry (read_state (this w) "currentYear")])]))
      l g.
Proof.
  intros Hser Hnone.
  set (cur := read_state (this w) "currentYear").
  destruct (revive_members ms (store w)) as [h1 fs] eqn:Erev.
  destruct (revive_members_copied _ _ _ _ Erev) as [Hpre Hread].
  pose proof (prefix_length _ _ Hpre) as Hlen.
  pose proof (revive_members_get_none "params" _ _ _ _ Erev Hnone) as Hfs.
  set (r := length h1).
  set (entry := HObj [("name", HStr "globalYear"); ("value", HPrim cur)]).
  set (g := h1 ++ [HObj (fs ++ [("params", HRef (S r))]);
                   HArr [HRef (S (S r))] []; entry]).
  exists r, g.
  assert (Hclone : JSON_clone spec w
                   = (Normal (HRef r), with_store (h1 ++ [HObj fs]) w, [])).
  { apply (JSON_clone_run _ _ _ _ _ Hser). rewrite revive_JObj, Erev. reflexivity. }
  assert (Hroot : (h1 ++ [HObj fs]) !! r = Some (HObj fs))
    by now apply list_lookup_middle.
  assert (Hfresh : fresh_from (length (store w)) (store w) (h1 ++ [HObj fs])).
  { eapply (revive_fresh _ (JObj ms)); [|reflexivity].
    rewrite revive_JObj, Erev. reflexivity. }
  assert (Hgr : g !! r = Some (HObj (fs ++ [("params", HRef (S r))])))
    by (unfold g; now apply list_lookup_middle).
  assert (Hga : g !! S r = Some (HArr [HRef (S (S r))] [])).
  { unfold g. rewrite lookup_app_r by (unfold r; lia).
    replace (S r - length h1)%nat with 1%nat by (unfold r; lia). reflexivity. }
  assert (Hge : g !! S (S r) = Some entry).
  { unfold g. rewrite lookup_app_r by (unfold r; lia).
    replace (S (S r) - length h1)%nat with 2%nat by (unfold r; lia). reflexivity. }
  split; [|split; [|split; [|split; [|split]]]].
  - unfold prepareSpec. step Hclone.
    rewrite (bind_silent _ _ _ (HPrim VUndefined) (with_store (h1 ++ [HObj fs]) w)).
    2:{ apply member_run. cbn. rewrite Hroot, Hfs. reflexivity. }
    cbn [truthy_hval truthy].
    assert (Hlen1 : length (h1 ++ [HObj fs]) = S r)
      by (rewrite length_app; cbn; unfold r; lia).
    assert (Hg3 : <[r := HObj (map_set "params" (HRef (S r)) fs)]>
                    ((h1 ++ [HObj fs]) ++ [HArr [] []])
                  = h1 ++ [HObj (fs ++ [("params", HRef (S r))]); HArr [] []]).
    { rewrite <- app_assoc. cbn [app].
      replace r with (length h1 + 0)%nat by (unfold r; lia).
      rewrite insert_app_r. cbn. now rewrite (map_set_absent _ _ _ Hfs). }
    rewrite (bind_silent _ _ _ tt
      (with_store (h1 ++ [HObj (fs ++ [("params", HRef (S r))]); HArr [] []]) w)).
    2:{ rewrite (bind_silent _ _ _ (HRef (S r))
                   (with_store ((h1 ++ [HObj fs]) ++ [HArr [] []]) w)).
        2:{ unfold alloc. cbn [store with_store]. now rewrite Hlen1. }
        rewrite (assign_run _ _ _
                   (<[r := HObj (map_set "params" (HRef (S r)) fs)]>
                      ((h1 ++ [HObj fs]) ++ [HArr [] []]))).
        - cbn [with_store this yearSlider yearDisplay store]. now rewrite Hg3.
        - cbn [store with_store set_member].
          rewrite lookup_app_l by (rewrite Hlen1; lia). now rewrite Hroot. }
    set (h3 := h1 ++ [HObj (fs ++ [("params", HRef (S r))]); HArr [] []]).
    assert (Hroot3 : h3 !! r = Some (HObj (fs ++ [("params", HRef (S r))])))
      by now apply list_lookup_middle.
    assert (Harr3 : h3 !! S r = Some (HArr [] [])).
    { unfold h3. rewrite lookup_app_r by (unfold r; lia).
      replace (S r - length h1)%nat with 1%nat by (unfold r; lia). reflexivity. }
    rewrite (bind_silent _ _ _ (HRef (S r)) (with_store h3 w)).
    2:{ apply member_run. cbn [store with_store get_member]. rewrite Hroot3.
        rewrite <- (map_set_absent _ _ _ Hfs), map_get_set. reflexivity. }
    rewrite (bind_silent _ _ _ None (with_store h3 w)).
    2:{ apply find_run. cbn [store with_store array_find]. now rewrite Harr3. }
    rewrite (bind_silent _ _ _ (this w) (with_store h3 w)) by reflexivity.
    cbn [this with_store]. fold cur. fold entry.
    rewrite (bind_silent _ _ _ tt (with_store g w)).
    2:{ rewrite (bind_silent _ _ _ (HRef (S (S r))) (with_store (h3 ++ [entry]) w)).
        2:{ unfold alloc. cbn [store with_store].
            replace (length h3) with (S (S r)); [reflexivity|].
            unfold h3. rewrite length_app. cbn. unfold r. lia. }
        rewrite (unshift_run _ _ (<[S r := HArr [HRef (S (S r))] []]> (h3 ++ [entry]))).
        - cbn [with_store this yearSlider yearDisplay store]. f_equal. f_equal.
          unfold h3, g. rewrite <- app_assoc. cbn [app].
          replace (S r) with (length h1 + 1)%nat by (unfold r; lia).
          now rewrite insert_app_r.
        - cbn [store with_store array_unshift].
          rewrite lookup_app_l by (eapply lookup_lt_Some; eauto).
          now rewrite Harr3. }
    reflexivity.
  - unfold g. destruct Hpre as [k ->]. exists (k ++ [HObj (fs ++ [("params", HRef (S r))]);
                   HArr [HRef (S (S r))] []; entry]). now rewrite app_assoc.
  - exact Hlen.
  - intros l o Hl Hlook.
    destruct (decide (l < length h1)%nat) as [Hlt|Hge'].
    + apply (Hfresh l o Hl). unfold g in Hlook.
      rewrite lookup_app_l in Hlook by lia. now rewrite lookup_app_l by lia.
    + unfold g in Hlook. rewrite lookup_app_r in Hlook by lia.
      destruct (l - length h1)%nat as [|[|[|k]]]; cbn in Hlook;
        [| | |discriminate]; injection Hlook as <-.
      * apply Forall_app. split; [exact (Hfresh r _ Hlen Hroot)|].
        constructor; [|constructor]. cbn. unfold r. lia.
      * split; [|constructor]. constructor; [|constructor]. cbn. unfold r. lia.
      * repeat constructor.
  - assert (Hglen : length g = S (S (S r)))
      by (unfold g; rewrite length_app; cbn; unfold r; lia).
    rewrite Hglen.
    apply (reads_object _ _ _ (fs ++ [("params", HRef (S r))]));
      [unfold g; now apply list_lookup_middle|].
    apply serialize_members_reads. apply Forall2_app.
    + apply Hread; [|unfold r; lia]. intros l Hl. unfold g.
      now rewrite lookup_app_l by lia.
    + constructor; [|constructor]. split; [reflexivity|]. cbn [fst snd].
      apply (reads_array _ _ _ [HRef (S (S r))] []).
      * unfold g. rewrite lookup_app_r by (unfold r; lia).
        replace (S r - length h1)%nat with 1%nat by (unfold r; lia). reflexivity.
      * constructor; [|constructor]. apply reads_globalYear_entry.
        unfold g. rewrite lookup_app_r by (unfold r; lia).
        replace (S (S r) - length h1)%nat with 2%nat by (unfold r; lia). reflexivity.
  - exists (S r), [HRef (S (S r))], [], (S (S r)),
      [("name", HStr "globalYear"); ("value", HPrim cur)].
    split; [|split; [exact Hga|split; [now left|split; [exact Hge|split; reflexivity]]]].
    cbn [get_member]. rewrite Hgr.
    now rewrite (map_get_middle "params" (HRef (S r)) fs [] Hfs).
Qed.

Lemma reads_members_around (h ha hb h1 : list hobj)
    (ms1 ms2 : list (string * json)) (fs1 fs2 : list (string * hval))
    (k : string) (v : hval) (t' : json) (g : list hobj) (n : nat) :
  revive_members ms1 h = (ha, fs1) ->
  revive_members ms2 hb = (h1, fs2) ->
  ha `prefix_of` hb ->
  agrees (length h) (length ha) g h1 ->
  agrees (length hb) (length h1) g h1 ->
  (length h1 - length h <= n)%nat ->
  reads n g v t' ->
  Forall2 (reads_member n g) (fs1 ++ (k, v) :: fs2) (ms1 ++ (k, t') :: ms2).
Proof.
  intros E1 E2 Hab Hag1 Hag2 Hn Hv.
  destruct (revive_members_copied _ _ _ _ E1) as [Hp1 Hr1].
  destruct (revive_members_copied _ _ _ _ E2) as [Hp2 Hr2].
  pose proof (prefix_length _ _ Hp1). pose proof (prefix_length _ _ Hp2).
  pose proof (prefix_length _ _ Hab).
  apply Forall2_app; [|constructor].
  - apply Hr1; [|lia].
    apply (agrees_narrow (length h) (length ha) _ _ g h1); auto.
    exact (heap_prefix_trans _ _ _ Hab Hp2).
  - split; [reflexivity|exact Hv].
  - apply Hr2; [|lia]. exact Hag2.
Qed.

Lemma reads_items_around (h ha hb h1 : list hobj)
    (ts1 ts2 : list json) (vs1 vs2 : list hval)
    (v : hval) (t' : json) (g : list hobj) (n : nat) :
  revive_items ts1 h = (ha, vs1) ->
  revive_items ts2 hb = (h1, vs2) ->
  ha `prefix_of` hb ->
  agrees (length h) (length ha) g h1 ->
  agrees (length hb) (length h1) g h1 ->
  (length h1 - length h <= n)%nat ->
  reads n g v t' ->
  Forall2 (reads n g) (vs1 ++ v :: vs2) (ts1 ++ t' :: ts2).
Proof.
  intros E1 E2 Hab Hag1 Hag2 Hn Hv.
  destruct (revive_items_copied _ _ _ _ E1) as [Hp1 Hr1].
  destruct (revive_items_copied _ _ _ _ E2) as [Hp2 Hr2].
  pose proof (prefix_length _ _ Hp1). pose proof (prefix_length _ _ Hp2).
  pose proof (prefix_length _ _ Hab).
  apply Forall2_app; [|constructor].
  - apply Hr1; [|lia].
    apply (agrees_narrow (length h) (length ha) _ _ g h1); auto.
    exact (heap_prefix_trans _ _ _ Hab Hp2).
  - exact Hv.
  - apply Hr2; [|lia]. exact Hag2.
Qed.

Lemma heap_prefix_insert (h k : list hobj) (l : nat) (o : hobj) :
  (length h <= l)%nat -> h `prefix_of` <[l := o]> (h ++ k).
Proof.
  intros Hl. replace l with (length h + (l - length h))%nat by lia.
  rewrite insert_app_r. now exists (<[(l - length h)%nat := o]> k).
Qed.


Lemma assign_at (v : hval) (k : string) (x : hval) (h h' : list hobj) (w : world) :
  set_member h v k x = Normal h' ->
  assign v k x (with_store h w) = (Normal tt, with_store h' w, []).
Proof. intros H. unfold assign. cbn [store with_store]. now rewrite H. Qed.

Lemma unshift_at (params x : hval) (h h' : list hobj) (w : world) :
  array_unshift h params x = Normal h' ->
  unshift params x (with_store h w) = (Normal tt, with_store h' w, []).
Proof. intros H. unfold unshift. cbn [store with_store]. now rewrite H. Qed.

Lemma alloc_at (o : hobj) (h : list hobj) (w : world) :
  alloc o (with_store h w) = (Normal (HRef (length h)), with_store (h ++ [o]) w, []).
Proof. reflexivity. Qed.

Lemma agrees_except (x lo hi : nat) (g H hk : list hobj) :
  (forall l, l <> x -> (l < length H)%nat -> g !! l = H !! l) ->
  hk `prefix_of` H ->
  (hi <= length hk)%nat ->
  (x < lo \/ hi <= x)%nat ->
  agrees lo hi g hk.
Proof.
  intros Hsame Hpre Hhi Hx l Hl.
  pose proof (prefix_length _ _ Hpre).
  rewrite Hsame by lia. symmetry. apply prefix_lookup_lt; [lia|exact Hpre].
Qed.

Lemma prepareSpec_uses_params (w : world) (spec : hval)
    (ms : list (string * json)) (es : list json) :
  JSON_stringify (store w) spec = Some (Some (JObj ms)) ->
  map_get "params" ms = Some (JArr es) ->
  forallb is_object es = true ->
  exists l g,
    prepared_as w spec
      (JObj (map_set "params"
               (JArr match update_globalYear (read_state (this w) "currentYear") es with
                     | Some updated => updated
                     | None => globalYear_entry (read_state (this w) "currentYear") :: es
                     end) ms))
      l g.
Proof.
  intros Hser Hparams Hobj.
  set (cur := read_state (this w) "currentYear").
  destruct (map_get_split _ _ _ Hparams) as (ms1 & ms2 & -> & Hms1).
  rewrite (map_set_middle _ _ _ _ _ Hms1).
  destruct (revive_members (ms1 ++ ("params", JArr es) :: ms2) (store w))
    as [h1 fs] eqn:Erev.
  destruct (revive_members_split _ _ _ _ _ _ _ Erev)
    as (ha & hb & fs1 & v & fs2 & E1 & Earr & E2 & ->).
  rewrite revive_JArr in Earr.
  destruct (revive_items es ha) as [ha' vs] eqn:Eitems.
  injection Earr as <- <-.
  remember (length ha') as a eqn:Ha. remember (length h1) as r eqn:Hr.
  set (fs := fs1 ++ ("params", HRef a) :: fs2).
  set (H1 := h1 ++ [HObj fs]).
  destruct (revive_members_copied _ _ _ _ E1) as [Hp1 _].
  destruct (revive_items_copied _ _ _ _ Eitems) as [Hpi Hri].
  destruct (revive_members_copied _ _ _ _ E2) as [Hp2 _].
  pose proof (prefix_length _ _ Hp1) as Hl1.
  pose proof (prefix_length _ _ Hpi) as Hli.
  pose proof (prefix_length _ _ Hp2) as Hl2.
  rewrite length_app in Hl2. cbn in Hl2.
  assert (Hpa : ha `prefix_of` ha' ++ [HArr vs []]) by now apply prefix_app_r.
  assert (HpH : h1 `prefix_of` H1) by now apply prefix_app_r.
  assert (Hpb : ha' ++ [HArr vs []] `prefix_of` H1)
    by exact (heap_prefix_trans _ _ _ Hp2 HpH).
  assert (Hpa' : ha' `prefix_of` H1)
    by exact (heap_prefix_trans _ _ _ (prefix_app_r _ _ _ (reflexivity _)) Hpb).
  assert (Hpha : ha `prefix_of` H1) by exact (heap_prefix_trans _ _ _ Hpi Hpa').
  assert (Hpw : store w `prefix_of` H1) by exact (heap_prefix_trans _ _ _ Hp1 Hpha).
  assert (Hfs1 : map_get "params" fs1 = None)
    by exact (revive_members_get_none _ _ _ _ _ E1 Hms1).
  assert (Hclone : JSON_clone spec w = (Normal (HRef r), with_store H1 w, [])).
  { apply (JSON_clone_run _ _ _ _ _ Hser). rewrite revive_JObj, Erev.
    now rewrite Hr. }
  assert (Hroot : H1 !! r = Some (HObj fs)) by now apply list_lookup_middle.
  assert (HH1 : length H1 = S r) by (unfold H1; rewrite length_app; cbn; lia).
  assert (Hfresh : fresh_from (length (store w)) (store w) H1).
  { eapply (revive_fresh _ (JObj (ms1 ++ ("params", JArr es) :: ms2)));
      [|reflexivity].
    rewrite revive_JObj, Erev. reflexivity. }
  assert (Hgetp : get_member H1 (HRef r) "params" = Normal (HRef a)).
  { cbn [get_member]. rewrite Hroot. unfold fs.
    now rewrite (map_get_middle _ _ _ _ Hfs1). }
  assert (Harr : H1 !! a = Some (HArr vs [])).
  { apply (prefix_lookup_Some (ha' ++ [HArr vs []])); [|exact Hpb].
    now apply list_lookup_middle. }
  assert (Hmember : member (HRef r) "params" (with_store H1 w)
                    = (Normal (HRef a), with_store H1 w, [])).
  { apply member_run. cbn [store with_store get_member]. rewrite Hroot.
    unfold fs. now rewrite (map_get_middle _ _ _ _ Hfs1). }
  assert (Hentries : Forall2 (entry_in H1) vs es).
  { apply (revive_items_entries _ _ _ _ _ Eitems Hobj).
    intros l Hl. symmetry. apply prefix_lookup_lt; [lia|exact Hpa']. }
  assert (Hstart :
    prepareSpec spec w =
      bind (find (HRef a)) (fun globalYearParam =>
        bind get_this (fun d =>
          bind (match globalYearParam with
                | Some p =>
                    if truthy_hval p
                    then assign p "value" (HPrim (read_state d "currentYear"))
                    else bind (alloc (HObj [("name", HStr "globalYear");
                                            ("value", HPrim (read_state d "currentYear"))]))
                              (fun entry => unshift (HRef a) entry)
                | None =>
                    bind (alloc (HObj [("name", HStr "globalYear");
                                       ("value", HPrim (read_state d "currentYear"))]))
                         (fun entry => unshift (HRef a) entry)
                end) (fun _ => ret (HRef r)))) (with_store H1 w)).
  { unfold prepareSpec. step Hclone. step Hmember.
    cbn [truthy_hval].
    rewrite (bind_silent _ _ _ tt (with_store H1 w)) by reflexivity.
    step Hmember. reflexivity. }
  unfold prepared_as. rewrite Hstart. clear Hstart.
  destruct (update_globalYear cur es) as [es'|] eqn:Hupd.
  - (* an entry named globalYear exists: it is updated in place *)
    destruct (update_globalYear_found _ _ _ Hupd)
      as (es1 & xs & es2 & -> & -> & Hx & Hes1).
    destruct (revive_items_split _ _ _ _ _ _ Eitems)
      as (hx & hy' & vs1 & vx & vs2 & Ex1 & Ex & Ex2 & ->).
    rewrite revive_JObj in Ex.
    destruct (revive_members xs hx) as [hy xfs] eqn:Exs.
    injection Ex as <- <-.
    remember (length hy) as lx eqn:Hlx.
    destruct (revive_items_copied _ _ _ _ Ex1) as [Hq1 Hrx1].
    destruct (revive_members_copied _ _ _ _ Exs) as [Hqx Hrxs].
    destruct (revive_items_copied _ _ _ _ Ex2) as [Hq2 _].
    pose proof (prefix_length _ _ Hq1) as Hk1.
    pose proof (prefix_length _ _ Hqx) as Hkx.
    pose proof (prefix_length _ _ Hq2) as Hk2.
    rewrite length_app in Hk2. cbn in Hk2.
    assert (Hqy : hy ++ [HObj xfs] `prefix_of` H1)
      by exact (heap_prefix_trans _ _ _ Hq2 Hpa').
    assert (Hqhy : hy `prefix_of` H1)
      by exact (heap_prefix_trans _ _ _ (prefix_app_r _ _ _ (reflexivity _)) Hqy).
    assert (Hqhx : hx `prefix_of` H1) by exact (heap_prefix_trans _ _ _ Hqx Hqhy).
    assert (Hobjx : H1 !! lx = Some (HObj xfs)).
    { apply (prefix_lookup_Some (hy ++ [HObj xfs])); [|exact Hqy].
      now apply list_lookup_middle. }
    assert (Hlen12 : length vs1 = length es1).
    { apply (Forall2_length (reads (length hx) hx)).
      apply Hrx1; [|lia]. intros l _. reflexivity. }
    apply Forall2_app_inv in Hentries as [Hent1 Hent2]; [|exact Hlen12].
    inversion Hent2 as [|? ? ? ? Hentx _]; subst.
    set (g := <[length hy := HObj (map_set "value" (HPrim cur) xfs)]> H1).
    assert (Hsame : forall l, l <> length hy -> (l < length H1)%nat -> g !! l = H1 !! l).
    { intros l Hne _. unfold g. now rewrite list_lookup_insert_ne. }
    exists (length h1), g. split; [|split; [|split; [|split; [|split]]]].
    + rewrite (bind_silent _ _ _ (Some (HRef (length hy))) (with_store H1 w)).
      2:{ apply find_run. cbn [store with_store array_find]. rewrite Harr.
          now apply (find_globalYear_first _ _ _ _ es1 (JObj xs)). }
      rewrite (bind_silent _ _ _ (this w) (with_store H1 w)) by reflexivity.
      cbn [truthy_hval this with_store]. fold cur.
      rewrite (bind_silent _ _ _ tt (with_store g w)); [reflexivity|].
      apply assign_at. cbn [set_member]. now rewrite Hobjx.
    + destruct Hpw as [k Hk]. unfold g. rewrite Hk.
      apply heap_prefix_insert. lia.
    + lia.
    + intros l o Hl Hlook. destruct (decide (l = length hy)) as [->|Hne].
      * unfold g in Hlook.
        rewrite list_lookup_insert_eq in Hlook by (rewrite HH1; lia).
        injection Hlook as <-.
        apply Forall_map_set; [exact (Hfresh _ _ Hl Hobjx)|exact I].
      * apply (Hfresh l o Hl). rewrite <- Hsame; [exact Hlook|exact Hne|].
        apply lookup_lt_Some in Hlook. unfold g in Hlook.
        now rewrite length_insert in Hlook.
    + assert (Hg : length g = S (length h1)) by (unfold g; now rewrite length_insert).
      rewrite Hg.
      apply (reads_object _ _ _ fs).
      { rewrite Hsame by lia. exact Hroot. }
      apply serialize_members_reads.
      apply (reads_members_around (store w) ha
               (ha' ++ [HArr (vs1 ++ HRef (length hy) :: vs2) []]) h1);
        try assumption.
      { apply (agrees_except (length hy) _ _ g H1); auto; lia. }
      { apply (agrees_except (length hy) _ _ g H1); auto.
        rewrite length_app. cbn. lia. }
      { lia. }
      destruct (length h1) as [|n1] eqn:Hn1; [lia|].
      apply (reads_array _ _ _ (vs1 ++ HRef (length hy) :: vs2) []).
      { rewrite Hsame by lia. exact Harr. }
      apply (reads_items_around ha hx (hy ++ [HObj xfs]) ha'); try assumption.
      { now apply prefix_app_r. }
      { apply (agrees_except (length hy) _ _ g H1); auto; lia. }
      { apply (agrees_except (length hy) _ _ g H1); auto.
        rewrite length_app. cbn. lia. }
      { lia. }
      destruct n1 as [|n2]; [lia|].
      apply (reads_object _ _ _ (map_set "value" (HPrim cur) xfs)).
      { unfold g. apply list_lookup_insert_eq. lia. }
      apply serialize_members_with_value.
      apply Hrxs; [|lia].
      apply (agrees_except (length hy) _ _ g H1); auto; lia.
    + exists (length ha'), (vs1 ++ HRef (length hy) :: vs2), [], (length hy),
        (map_set "value" (HPrim cur) xfs).
      split; [|split; [|split; [|split; [|split]]]].
      * cbn [get_member]. rewrite Hsame by lia.
        cbn [get_member] in Hgetp. exact Hgetp.
      * rewrite Hsame by lia. exact Harr.
      * apply in_elt.
      * unfold g. apply list_lookup_insert_eq. rewrite HH1. lia.
      * rewrite map_get_set_ne by discriminate.
        destruct Hentx as (l' & xs' & xfs' & [= <-] & [= <-] & Hl' & Hnames).
        rewrite Hobjx in Hl'. injection Hl' as <-.
        apply Hnames. now apply is_globalYear_name.
      * apply map_get_set.
  - (* no entry named globalYear: a new one is put in front *)
    pose proof (update_globalYear_absent _ _ Hupd) as Hno.
    set (entry := HObj [("name", HStr "globalYear"); ("value", HPrim cur)]).
    set (g := <[a := HArr (HRef (S r) :: vs) []]> (H1 ++ [entry])).
    assert (Hsame : forall l, l <> a -> (l < length H1)%nat -> g !! l = H1 !! l).
    { intros l Hne Hl. unfold g. rewrite list_lookup_insert_ne by done.
      now apply lookup_app_l. }
    exists r, g. split; [|split; [|split; [|split; [|split]]]].
    + rewrite (bind_silent _ _ _ None (with_store H1 w)).
      2:{ apply find_run. cbn [store with_store array_find]. rewrite Harr.
          now apply (find_globalYear_absent _ _ es). }
      rewrite (bind_silent _ _ _ (this w) (with_store H1 w)) by reflexivity.
      cbn [this with_store]. fold cur. fold entry.
      rewrite (bind_silent _ _ _ tt (with_store g w)); [reflexivity|].
      rewrite (bind_silent _ _ _ _ _ (alloc_at _ _ _)). rewrite HH1.
      apply unshift_at. cbn [array_unshift].
      rewrite lookup_app_l by lia. now rewrite Harr.
    + destruct Hpw as [k Hk]. unfold g. rewrite Hk, <- app_assoc.
      apply heap_prefix_insert. lia.
    + lia.
    + intros l o Hl Hlook. unfold g in Hlook.
      destruct (decide (l = a)) as [->|Hne].
      * rewrite list_lookup_insert_eq in Hlook by (rewrite length_app; lia).
        injection Hlook as <-. split; [|constructor].
        constructor; [cbn; lia|]. exact (proj1 (Hfresh a _ Hl Harr)).
      * rewrite list_lookup_insert_ne in Hlook by done.
        apply lookup_snoc_Some in Hlook as [[Hlt Hlook]|[_ <-]].
        -- exact (Hfresh l o Hl Hlook).
        -- repeat constructor.
    + assert (Hg : length g = S (S r))
        by (unfold g; rewrite length_insert, length_app; cbn; lia).
      rewrite Hg.
      apply (reads_object _ _ _ fs).
      { rewrite Hsame by lia. exact Hroot. }
      apply serialize_members_reads.
      apply (reads_members_around (store w) ha (ha' ++ [HArr vs []]) h1);
        try assumption.
      { apply (agrees_except a _ _ g H1); auto; lia. }
      { apply (agrees_except a _ _ g H1); auto.
        rewrite length_app. cbn. lia. }
      { lia. }
      apply (reads_array _ _ _ (HRef (S r) :: vs) []).
      { unfold g. apply list_lookup_insert_eq. rewrite length_app. lia. }
      constructor.
      * destruct r as [|r']; [lia|]. apply reads_globalYear_entry.
        unfold g. rewrite list_lookup_insert_ne by lia.
        now apply list_lookup_middle.
      * apply Hri; [|lia]. apply (agrees_except a _ _ g H1); auto; lia.
    + exists a, (HRef (S r) :: vs), [], (S r),
        [("name", HStr "globalYear"); ("value", HPrim cur)].
      split; [|split; [|split; [now left|split; [|split; reflexivity]]]].
      * cbn [get_member]. rewrite Hsame by lia.
        cbn [get_member] in Hgetp. exact Hgetp.
      * unfold g. apply list_lookup_insert_eq. rewrite length_app. lia.
      * unfold g. rewrite list_lookup_insert_ne by lia.
        now apply list_lookup_middle.
Qed.

(** What the documents of the contract keep: the members other than
    [params], and the entries not named [globalYear], in their order. *)
Lemma inject_globalYear_keeps_members (cur : prim) (ms : list (string * json)) (k : string) :
  k <> "params" ->
  match inject_globalYear cur (JObj ms) with
  | JObj ms' => map_get k ms' = map_get k ms
  | _ => False
  end.
Proof. intros Hk. cbn. now apply map_get_set_ne. Qed.

Lemma is_globalYear_with_value (cur : prim) (xs : list (string * json)) :
  is_globalYear (JObj (with_value cur xs)) = is_globalYear (JObj xs).
Proof.
  cbn. unfold with_value.
  assert (Hdel : map_get "name" (map_delete "value" xs) = map_get "name" xs).
  { induction xs as [|[k v] xs IH]; [reflexivity|]. cbn.
    destruct (decide ("value" = k)) as [<-|Hne]; cbn.
    - now rewrite decide_False.
    - destruct (decide ("name" = k)); [reflexivity|exact IH]. }
  destruct (json_of_prim cur); [now rewrite map_get_set_ne|now rewrite Hdel].
Qed.

Lemma inject_globalYear_keeps_entries (cur : prim) (es : list json) :
  let other := fun entry => negb (is_globalYear entry) in
  List.filter other
    match update_globalYear cur es with
    | Some updated => updated
    | None => globalYear_entry cur :: es
    end
  = List.filter other es.
Proof.
  intros other. destruct (update_globalYear cur es) as [es'|] eqn:Hupd.
  - destruct (update_globalYear_found _ _ _ Hupd)
      as (es1 & xs & es2 & -> & -> & Hx & _).
    rewrite !List.filter_app. cbn [List.filter].
    assert (Hsame : other (JObj (with_value cur xs)) = other (JObj xs))
      by (unfold other; now rewrite is_globalYear_with_value).
    rewrite Hsame. replace (other (JObj xs)) with false; [reflexivity|].
    unfold other. now rewrite Hx.
  - cbn [List.filter].
    assert (Hnew : other (globalYear_entry cur) = false).
    { reflexivity. }
    now rewrite Hnew.
Qed.

(** C7: for every configuration held in the heap that [JSON.stringify]
    can print (a JSON object whose [params], when present, is an array of
    objects), [prepareSpec(spec)] returns a new object that reads as the
    input document with the [globalYear] parameter injected (the first
    entry of that name updated in place, or a new entry put at the front of
    [params], the list being created when absent, every other member and
    entry as in the input) and whose [params] hold an entry with [name]
    ['globalYear'] and [value] [currentYear]; the objects that existed
    before the call are all unchanged, so the input still reads as the same
    document, and the new objects refer to new objects only. *)
Theorem prepareSpec_injects_globalYear (w : world) (spec : hval) (doc : json) :
  JSON_stringify (store w) spec = Some (Some doc) ->
  configuration doc = true ->
  exists l g,
    prepareSpec spec w = (Normal (HRef l), with_store g w, []) /\
    JSON_stringify g (HRef l)
      = Some (Some (inject_globalYear (read_state (this w) "currentYear") doc)) /\
    has_globalYear g (HRef l) (read_state (this w) "currentYear") /\
    store w `prefix_of` g /\
    JSON_stringify g spec = Some (Some doc) /\
    (length (store w) <= l)%nat /\
    fresh_from (length (store w)) (store w) g.
Proof.
  intros Hser Hconf.
  assert (Hcases : exists l g,
            prepared_as w spec
              (inject_globalYear (read_state (this w) "currentYear") doc) l g).
  { destruct doc as [| | | | |ms]; try discriminate Hconf.
    cbn in Hconf |- *.
    destruct (map_get "params" ms) as [[| | | |es|]|] eqn:Hparams;
      try discriminate Hconf.
    - exact (prepareSpec_uses_params w spec ms es Hser Hparams Hconf).
    - cbn [update_globalYear]. rewrite (map_set_absent _ _ _ Hparams).
      exact (prepareSpec_creates_params w spec ms Hser Hparams). }
  destruct Hcases as (l & g & Hrun & Hpre & Hl & Hfresh & Hread & Hentry).
  exists l, g. repeat split; try assumption.
  unfold JSON_stringify in Hser |- *.
  apply (serialize_extend _ _ _ _ _ _ Hser Hpre). now apply prefix_length.
Qed.

Lemma prepareSpec_injects_globalYear_witness :
  JSON_stringify (store sample_world) (HRef 2%nat) = Some (Some sample_document) /\
  configuration sample_document = true /\
  exists l g,
    prepareSpec (HRef 2%nat) sample_world = (Normal (HRef l), with_store g sample_world, []) /\
    JSON_stringify g (HRef l)
      = Some (Some (JObj [("mark", JStr "bar");
                          ("params",
                           JArr [JObj [("name", JStr "globalYear"); ("value", JNum 2020)];
                                 JObj [("name", JStr "other"); ("value", JNum 1)]])])) /\
    JSON_stringify g (HRef 2%nat) = Some (Some sample_document).
Proof.
  assert (Hser : JSON_stringify (store sample_world) (HRef 2%nat)
                 = Some (Some sample_document)) by reflexivity.
  assert (Hconf : configuration sample_document = true) by reflexivity.
  split; [exact Hser|]. split; [exact Hconf|].
  destruct (prepareSpec_injects_globalYear sample_world (HRef 2%nat)
              sample_document Hser Hconf)
    as (l & g & Hrun & Hread & _ & _ & Hinput & _).
  exists l, g. split; [exact Hrun|]. split; [exact Hread|exact Hinput].
Defined.

(** Outside the wire format [prepareSpec] throws: a [params] member that is
    an object has no [find] method. *)
Lemma prepareSpec_throws_on_object_params :
  JSON_stringify (store malformed_world) (HRef 1%nat) = Some (Some malformed_document) /\
  configuration malformed_document = false /\
  result_of (prepareSpec (HRef 1%nat) malformed_world)
    = Throw "TypeError: preparedSpec.params.find is not a function" /\
  absorbing (PrepareSpec (HRef 1%nat)) = false.
Proof. repeat split. Qed.

(** ** The examples of the specification *)

Example updateYear_2030_ignored :
  updateYear (VNumber 2030) fresh_world = (Normal tt, fresh_world, []).
Proof. reflexivity. Qed.

Example updateYear_2015_stored :
  read_state (this (world_of (updateYear (VNumber 2015) fresh_world))) "currentYear"
    = VNumber 2015 /\
  events_of (updateYear (VNumber 2015) fresh_world)
    = [ConsoleLog (MsgYearUpdated (VNumber 2010) (VNumber 2015))].
Proof. split; reflexivity. Qed.

Example updateYear_NaN_ignored :
  updateYear VNaN fresh_world = (Normal tt, fresh_world, []).
Proof. reflexivity. Qed.

Example unregisterView_absent_name :
  views (this (world_of (unregisterView "nowhere" two_charts_world)))
    = views (this two_charts_world).
Proof. reflexivity. Qed.

Example fan_out_with_failing_view :
  events_of (updateAllViews two_charts_world) =
    [CallSignal 1 "globalYear" (VNumber 2010); CallRun 1;
     ConsoleError (MsgUpdateViewError "bars" "render failed");
     CallSignal 2 "globalYear" (VNumber 2010); CallRun 2].
Proof. reflexivity. Qed.

(** * Further properties of [DashboardState] *)

(** ** The view registry *)

Lemma map_delete_absent {V} (k : string) (m : list (string * V)) :
  map_get k m = None -> map_delete k m = m.
Proof.
  induction m as [|[k' v'] m IH]; cbn; [reflexivity|].
  destruct (decide (k = k')); [discriminate|]. intros H. now rewrite IH.
Qed.

Lemma map_delete_set {V} (k : string) (v : V) (m : list (string * V)) :
  map_get k m = None -> map_delete k (map_set k v m) = m.
Proof.
  induction m as [|[k' v'] m IH]; cbn.
  - intros _. now rewrite decide_True.
  - destruct (decide (k = k')); [discriminate|]. intros H. cbn.
    rewrite decide_False by done. now rewrite IH.
Qed.

Lemma map_set_keys {V} (k : string) (v old : V) (m : list (string * V)) :
  map_get k m = Some old -> map (fun kv => kv.1) (map_set k v m) = map (fun kv => kv.1) m.
Proof.
  induction m as [|[k' v'] m IH]; cbn; [discriminate|].
  destruct (decide (k = k')) as [->|Hne]; [reflexivity|].
  intros H. cbn. now rewrite IH.
Qed.

Lemma map_get_delete_ne {V} (k k' : string) (m : list (string * V)) :
  k <> k' -> map_get k (map_delete k' m) = map_get k m.
Proof.
  intros Hne. induction m as [|[k0 v0] m IH]; [reflexivity|]. cbn.
  destruct (decide (k' = k0)) as [->|Hne'].
  - now rewrite decide_False.
  - cbn. destruct (decide (k = k0)); [reflexivity|exact IH].
Qed.

Lemma map_get_delete {V} (k : string) (m : list (string * V)) :
  distinct_keys m = true -> map_get k (map_delete k m) = None.
Proof.
  induction m as [|[k' v'] m IH]; cbn; [reflexivity|].
  destruct (map_get k' m) eqn:Hk'; [discriminate|]. intros Hd.
  destruct (decide (k = k')) as [->|Hne]; [exact Hk'|].
  cbn. rewrite decide_False by done. auto.
Qed.

Lemma map_delete_distinct {V} (k : string) (m : list (string * V)) :
  distinct_keys m = true -> distinct_keys (map_delete k m) = true.
Proof.
  induction m as [|[k' v'] m IH]; cbn; [reflexivity|].
  destruct (map_get k' m) eqn:Hk'; [discriminate|]. intros Hd.
  destruct (decide (k = k')) as [->|Hne]; [exact Hd|].
  cbn. rewrite map_get_delete_ne by done. rewrite Hk'. auto.
Qed.

Lemma map_set_distinct {V} (k : string) (v : V) (m : list (string * V)) :
  distinct_keys (map_set k v m) = distinct_keys m.
Proof.
  induction m as [|[k' v'] m IH]; cbn; [reflexivity|].
  destruct (decide (k = k')) as [->|Hne]; cbn; [reflexivity|].
  rewrite map_get_set_ne by done. now rewrite IH.
Qed.

Lemma world_eta (w : world) :
  {| this := {| state := state (this w); state_proto := state_proto (this w);
                views := views (this w); listeners := listeners (this w) |};
     yearSlider := yearSlider w; yearDisplay := yearDisplay w; store := store w |} = w.
Proof. destruct w as [[st pr vs ls] sl di h]. reflexivity. Qed.

(** X1: [unregisterView] of a name that is not registered changes nothing: it
    returns normally, the world is as before, and only the console message
    is emitted. *)
Theorem unregisterView_absent (name : string) (w : world) :
  map_get name (views (this w)) = None ->
  unregisterView name w = (Normal tt, w, [ConsoleLog (MsgViewUnregistered name)]).
Proof.
  intros Habs. unfold unregisterView, bind, modify_this, emit, with_views. cbn.
  rewrite (map_delete_absent _ _ Habs). now rewrite world_eta.
Qed.

Lemma unregisterView_absent_witness :
  map_get "legend" (views (this two_charts_world)) = None /\
  unregisterView "legend" two_charts_world =
    (Normal tt, two_charts_world, [ConsoleLog (MsgViewUnregistered "legend")]).
Proof.
  split; [reflexivity|].
  apply (unregisterView_absent "legend" two_charts_world). reflexivity.
Defined.

Lemma registerView_world (name : string) (view : handle) (w : world) :
  world_of (registerView name view w) =
    if accepted view then view_stored name view w else w.
Proof.
  destruct view as [|v]; [reflexivity|]. cbn [accepted].
  destruct (view_signal v) as [sig|] eqn:Hsig.
  - rewrite (registerView_run name v sig w Hsig). cbn.
    destruct (sig _ _); [destruct (view_run v) as [[|e]|]|]; reflexivity.
  - unfold registerView. now rewrite Hsig.
Qed.

(** The names of the registry stay distinct, as the keys of a [Map]. *)
Lemma run_op_distinct_names (env : page) (o : op) (w : world) :
  distinct_keys (views (this w)) = true ->
  distinct_keys (views (this (world_of (run_op env o w)))) = true.
Proof.
  intros Hnd.
  set (f := fun w0 : world => distinct_keys (views (this w0))).
  assert (Hstore : forall h w0, f (with_store h w0) = f w0) by reflexivity.
  assert (Hviews : forall name view w0, f (view_stored name view w0) = f w0).
  { intros name view w0. unfold f. cbn. apply map_set_distinct. }
  assert (Hkeep : forall m : M unit, keeps f m ->
             distinct_keys (views (this (world_of (m w)))) = true).
  { intros m Hm. specialize (Hm w). unfold f in Hm. now rewrite Hm. }
  assert (Hsame : forall m : M unit,
             views (this (world_of (m w))) = views (this w) ->
             distinct_keys (views (this (world_of (m w)))) = true).
  { intros m Hm. now rewrite Hm. }
  destruct o; cbn [run_op].
  - apply Hsame. unfold init, world_of. cbn.
    destruct (yearSlider w), (yearDisplay w); reflexivity.
  - apply Hsame.
    destruct (js_ge newYear (read_state (this w) "startYear")
              && js_le newYear (read_state (this w) "endYear")) eqn:Hin.
    + now rewrite (updateYear_accepts _ _ Hin).
    + now rewrite (updateYear_rejects _ _ Hin).
  - apply Hkeep. now apply keeps_registerView.
  - cbn. now apply map_delete_distinct.
  - apply Hkeep. apply keeps_updateAllViews.
  - apply Hsame. reflexivity.
  - apply Hsame. reflexivity.
  - apply Hkeep. apply keeps_triggerListeners.
  - apply Hsame. reflexivity.
  - apply Hsame. reflexivity.
  - apply Hsame. rewrite setValue_run. apply set_state_views.
  - apply Hkeep. apply keeps_bind; [now apply keeps_prepareSpec|intros a; apply keeps_ret].
  - apply Hkeep.
    apply keeps_bind; [now apply keeps_loadVisualization|intros a; apply keeps_ret].
Qed.

Lemma run_ops_distinct_names (env : page) (os : list op) (w : world) :
  distinct_keys (views (this w)) = true ->
  distinct_keys (views (this (run_ops env os w))) = true.
Proof.
  revert w. induction os as [|o os IH]; intros w Hnd; [exact Hnd|].
  cbn [run_ops]. apply IH. now apply (run_op_distinct_names env o w).
Qed.

(** X2: In every world reached from the constructor through the public
    interface, [unregisterView(name)] leaves no view registered under
    [name] and does not touch the views registered under other names. *)
Theorem unregisterView_removes (env : page) (os : list op)
    (slider display : option prim) (name : string) :
  map_get name
    (views (this (world_of (unregisterView name
       (run_ops env os (initial_world slider display)))))) = None /\
  forall other, other <> name ->
    map_get other
      (views (this (world_of (unregisterView name
         (run_ops env os (initial_world slider display))))))
    = map_get other (views (this (run_ops env os (initial_world slider display)))).
Proof.
  split.
  - cbn. apply map_get_delete.
    now apply (run_ops_distinct_names env os (initial_world slider display)).
  - intros other Hne. cbn. now apply map_get_delete_ne.
Qed.

(** X3: Registering a view under a name that is free and then unregistering
    that name gives the registry back, whether the view was rejected or
    accepted and whether or not the first push to it succeeded. *)
Theorem register_unregister_roundtrip (name : string) (view : handle) (w : world) :
  map_get name (views (this w)) = None ->
  views (this (world_of (unregisterView name (world_of (registerView name view w)))))
    = views (this w).
Proof.
  intros Hfree. rewrite registerView_world.
  destruct (accepted view); cbn.
  - now apply map_delete_set.
  - now apply map_delete_absent.
Qed.

Lemma register_unregister_roundtrip_witness :
  map_get "legend" (views (this two_charts_world)) = None /\
  views (this (world_of (unregisterView "legend"
     (world_of (registerView "legend" (Handle (chart_run_throws 9)) two_charts_world)))))
    = views (this two_charts_world).
Proof.
  split; [reflexivity|].
  apply (register_unregister_roundtrip "legend" (Handle (chart_run_throws 9))
           two_charts_world).
  reflexivity.
Defined.

(** X4: [registerView] follows [Map.set]: under a name already registered the
    handle is replaced where it stands (the names and their order are as
    before), under a new name the view is added after all the others; the
    views registered under other names are untouched. *)
Theorem registerView_replaces_in_place (name : string) (view : handle) (w : world) :
  accepted view = true ->
  match map_get name (views (this w)) with
  | Some _ => view_names (world_of (registerView name view w)) = view_names w
  | None =>
      views (this (world_of (registerView name view w)))
        = views (this w) ++ [(name, view)]
  end /\
  map_get name (views (this (world_of (registerView name view w)))) = Some view /\
  forall other, other <> name ->
    map_get other (views (this (world_of (registerView name view w))))
    = map_get other (views (this w)).
Proof.
  intros Hacc. rewrite registerView_world, Hacc. cbn. split; [|split].
  - destruct (map_get name (views (this w))) as [old|] eqn:Hget.
    + unfold view_names. cbn. exact (map_set_keys _ _ _ _ Hget).
    + exact (map_set_absent _ _ _ Hget).
  - apply map_get_set.
  - intros other Hne. now apply map_get_set_ne.
Qed.

Lemma registerView_replaces_in_place_witness :
  accepted (Handle (chart 7)) = true /\
  view_names (world_of (registerView "bars" (Handle (chart 7)) two_charts_world))
    = ["bars"; "map"] /\
  map_get "bars" (views (this (world_of
     (registerView "bars" (Handle (chart 7)) two_charts_world))))
    = Some (Handle (chart 7)).
Proof.
  split; [reflexivity|].
  destruct (registerView_replaces_in_place "bars" (Handle (chart 7))
              two_charts_world eq_refl) as [Hnames [Hget _]].
  split; [exact Hnames|exact Hget].
Defined.

(** ** Listeners *)

Lemma invoked_app (l1 l2 : list event) : invoked (l1 ++ l2) = invoked l1 ++ invoked l2.
Proof.
  induction l1 as [|x l1 IH]; [reflexivity|].
  destruct x; cbn; now rewrite ?IH.
Qed.

Lemma listener_errors_app (l1 l2 : list event) :
  listener_errors (l1 ++ l2) = listener_errors l1 ++ listener_errors l2.
Proof.
  induction l1 as [|x l1 IH]; [reflexivity|].
  destruct x as [| | | | |m|m]; cbn; try exact IH.
  destruct m; cbn; now rewrite ?IH.
Qed.


Lemma remove_first_last (i : nat) (cbs : list callback) (cb : callback) :
  cb_id cb = i ->
  length (filter (fun c => bool_decide (cb_id c = i)) cbs) = 0%nat ->
  remove_first i (cbs ++ [cb]) = cbs.
Proof.
  intros Hid. induction cbs as [|c cbs IH]; cbn [remove_first app].
  - intros _. now rewrite decide_True.
  - rewrite filter_cons. destruct (decide (cb_id c = i)) as [Heq|Hne].
    + rewrite decide_True by (now apply bool_decide_pack). discriminate.
    + rewrite decide_False by (intros H%bool_decide_unpack; done).
      intros H. now rewrite IH.
Qed.

(** X6: Adding a callback that is not yet registered for an event and removing
    it again leaves every event with the listeners it had: the same
    callbacks are notified, in the same order, for every event and every
    payload; the state and the views are untouched. *)
Theorem add_remove_listener_roundtrip (event : string) (cb : callback) (w : world) :
  registrations event (cb_id cb) (this w) = 0%nat ->
  (forall e data,
     triggerListeners e data
       (world_of (removeEventListener event cb (world_of (addEventListener event cb w))))
     = (Normal tt,
        world_of (removeEventListener event cb (world_of (addEventListener event cb w))),
        events_of (triggerListeners e data w))) /\
  state (this (world_of (removeEventListener event cb
                 (world_of (addEventListener event cb w))))) = state (this w) /\
  views (this (world_of (removeEventListener event cb
                 (world_of (addEventListener event cb w))))) = views (this w).
Proof.
  intros Hfresh. split; [|split; reflexivity].
  intros e data. rewrite triggerListeners_run, triggerListeners_events.
  f_equal. f_equal.
  assert (Hls : default [] (listeners (this (world_of (removeEventListener event cb
                   (world_of (addEventListener event cb w))))) !! e)
                = default [] (listeners (this w) !! e)).
  { cbn. rewrite lookup_insert_eq.
    destruct (decide (e = event)) as [->|Hne].
    - rewrite lookup_insert_eq. cbn. now apply remove_first_last.
    - now rewrite !lookup_insert_ne by done. }
  rewrite Hls. clear Hls.
  induction (default [] (listeners (this w) !! e)) as [|c cbs IH]; [reflexivity|].
  cbn [map]. now rewrite IH, !notify_events.
Qed.

Lemma add_remove_listener_roundtrip_witness :
  registrations "yearChange" (cb_id probe) (this two_charts_world) = 0%nat /\
  triggerListeners "yearChange" (YearChange (VNumber 2010) (VNumber 2011))
    (world_of (removeEventListener "yearChange" probe
       (world_of (addEventListener "yearChange" probe two_charts_world))))
  = (Normal tt,
     world_of (removeEventListener "yearChange" probe
       (world_of (addEventListener "yearChange" probe two_charts_world))),
     []).
Proof.
  split; [reflexivity|].
  destruct (add_remove_listener_roundtrip "yearChange" probe two_charts_world eq_refl)
    as [Hsame _].
  exact (Hsame "yearChange" (YearChange (VNumber 2010) (VNumber 2011))).
Defined.

Lemma remove_first_count (i j : nat) (cbs : list callback) :
  length (filter (fun c => bool_decide (cb_id c = j)) (remove_first i cbs)) =
    if decide (j = i)
    then Nat.pred (length (filter (fun c => bool_decide (cb_id c = i)) cbs))
    else length (filter (fun c => bool_decide (cb_id c = j)) cbs).
Proof.
  induction cbs as [|c cbs IH]; cbn [remove_first].
  - destruct (decide (j = i)); reflexivity.
  - destruct (decide (cb_id c = i)) as [Hci|Hci].
    + destruct (decide (j = i)) as [->|Hji].
      * rewrite filter_cons_True by (now apply bool_decide_pack). reflexivity.
      * rewrite filter_cons_False; [reflexivity|].
        intros H%bool_decide_unpack. congruence.
    + destruct (decide (j = i)) as [->|Hji].
      * rewrite !filter_cons_False by (intros H%bool_decide_unpack; done).
        rewrite IH. reflexivity.
      * destruct (decide (cb_id c = j)) as [Hcj|Hcj].
        -- rewrite !filter_cons_True by (now apply bool_decide_pack).
           cbn. rewrite IH. reflexivity.
        -- rewrite !filter_cons_False by (intros H%bool_decide_unpack; done).
           rewrite IH. reflexivity.
Qed.

(** X7: [removeEventListener(event, cb)] removes one registration of [cb] for
    [event], when there is one, and no registration of any other callback
    or for any other event; for an event that has no listeners the world is
    unchanged.  It never throws and emits nothing. *)
Theorem removeEventListener_removes_one (event : string) (cb : callback) (w : world) :
  exists w',
    removeEventListener event cb w = (Normal tt, w', []) /\
    registrations event (cb_id cb) (this w')
      = Nat.pred (registrations event (cb_id cb) (this w)) /\
    (forall j, j <> cb_id cb ->
       registrations event j (this w') = registrations event j (this w)) /\
    (forall other, other <> event ->
       listeners (this w') !! other = listeners (this w) !! other) /\
    (listeners (this w) !! event = None -> w' = w) /\
    state (this w') = state (this w) /\
    views (this w') = views (this w).
Proof.
  unfold removeEventListener, modify_this, with_listeners, registrations.
  destruct (listeners (this w) !! event) as [cbs|] eqn:Hls; cbn [this listeners state views].
  - eexists. split; [reflexivity|]. cbn [this listeners state views].
    rewrite lookup_insert_eq. cbn [default from_option]. unfold id.
    split; [|split; [|split; [|split; [|split]]]]; try reflexivity.
    + rewrite remove_first_count. now rewrite decide_True.
    + intros j Hj. rewrite remove_first_count. now rewrite decide_False.
    + intros other Hne. now rewrite lookup_insert_ne.
    + discriminate.
  - exists w. split; [now rewrite world_eta|].
    rewrite Hls. cbn [default].
    split; [|split; [|split; [|split; [|split]]]]; reflexivity.
Qed.

(** ** Reading and writing the state *)


(** ** [updateYear]: what is rejected, what is notified *)

(** X9: A value that does not convert to a number ([NaN], as [parseInt] gives
    for an empty field, or [undefined]) is ignored by [updateYear], and so
    is every value once a bound does not convert to a number: the world is
    unchanged and nothing is emitted. *)
Theorem updateYear_ignores_NaN (newYear : prim) (w : world) :
  ToNumber newYear = None \/
  ToNumber (read_state (this w) "startYear") = None \/
  ToNumber (read_state (this w) "endYear") = None ->
  updateYear newYear w = (Normal tt, w, []).
Proof.
  intros H. apply updateYear_rejects. unfold js_ge, js_le.
  destruct (ToNumber newYear) as [x|]; [|reflexivity].
  destruct (ToNumber (read_state (this w) "startYear")) as [s|].
  - destruct (ToNumber (read_state (this w) "endYear")) as [e|].
    + destruct H as [H|[H|H]]; discriminate.
    + apply andb_false_r.
  - reflexivity.
Qed.

Lemma updateYear_ignores_NaN_witness :
  (ToNumber VNaN = None \/
   ToNumber (read_state (this two_charts_world) "startYear") = None \/
   ToNumber (read_state (this two_charts_world) "endYear") = None) /\
  updateYear VNaN two_charts_world = (Normal tt, two_charts_world, []).
Proof.
  assert (H : ToNumber VNaN = None \/
              ToNumber (read_state (this two_charts_world) "startYear") = None \/
              ToNumber (read_state (this two_charts_world) "endYear") = None)
    by (left; reflexivity).
  split; [exact H|]. exact (updateYear_ignores_NaN VNaN two_charts_world H).
Defined.


(** ** Fan-out *)

Lemma signalled_app (l1 l2 : list event) :
  signalled (l1 ++ l2) = signalled l1 ++ signalled l2.
Proof.
  induction l1 as [|x l1 IH]; [reflexivity|]. destruct x; cbn; now rewrite ?IH.
Qed.

Lemma rendered_app (l1 l2 : list event) :
  rendered (l1 ++ l2) = rendered l1 ++ rendered l2.
Proof.
  induction l1 as [|x l1 IH]; [reflexivity|]. destruct x; cbn; now rewrite ?IH.
Qed.

Lemma signalled_fanout (w : world) (vs : list (string * handle)) :
  signalled (concat (map (fun entry => events_of (update_view entry w)) vs))
    = omap (fun entry : string * handle =>
              (fun i => (i, read_state (this w) "currentYear")) <$> accepted_id entry.2)
           vs.
Proof.
  induction vs as [|[name view] vs IH]; [reflexivity|].
  cbn [map concat omap list_omap snd].
  rewrite signalled_app, IH, update_view_events.
  destruct view as [|v]; [reflexivity|]. cbn [accepted_id].
  destruct (view_signal v) as [sig|]; [|reflexivity]. cbn.
  destruct (sig _ _); [destruct (view_run v) as [[|e]|]|]; reflexivity.
Qed.

Lemma rendered_fanout (w : world) (vs : list (string * handle)) :
  rendered (concat (map (fun entry => events_of (update_view entry w)) vs))
    = omap (fun entry : string * handle =>
              rendered_id (read_state (this w) "currentYear") entry.2)
           vs.
Proof.
  induction vs as [|[name view] vs IH]; [reflexivity|].
  cbn [map concat omap list_omap snd].
  rewrite rendered_app, IH, update_view_events.
  destruct view as [|v]; [reflexivity|]. cbn [rendered_id].
  destruct (view_signal v) as [sig|]; [|reflexivity]. cbn.
  destruct (sig _ _); destruct (view_run v) as [[|e']|]; reflexivity.
Qed.

Lemma invoked_fanout (w : world) (vs : list (string * handle)) :
  invoked (concat (map (fun entry => events_of (update_view entry w)) vs)) = [].
Proof.
  induction vs as [|[name view] vs IH]; [reflexivity|].
  cbn [map concat]. rewrite invoked_app, IH, update_view_events.
  destruct view as [|v]; [reflexivity|].
  destruct (view_signal v) as [sig|]; [|reflexivity]. cbn.
  destruct (sig _ _); [destruct (view_run v) as [[|e]|]|]; reflexivity.
Qed.

Lemma invoked_notified (event : string) (data : payload) (w : world)
    (cbs : list callback) :
  invoked (concat (map (fun cb => events_of (notify event data cb w)) cbs))
    = map (fun cb => (cb_id cb, data)) cbs.
Proof.
  induction cbs as [|cb cbs IH]; [reflexivity|].
  cbn [map concat]. rewrite invoked_app, IH, notify_events.
  destruct (cb_call cb data); reflexivity.
Qed.


(** X11: One [updateAllViews] sends [signal("globalYear", currentYear)] to the
    accepted views of the registry, once each and in the order of the
    registry, and calls [run] on exactly those whose [signal] returned and
    whose [run] can be called; it invokes no listener, returns normally and
    leaves the world as it is. *)
Theorem updateAllViews_targets (w : world) :
  exists evs,
    updateAllViews w = (Normal tt, w, evs) /\
    signalled evs
      = omap (fun entry : string * handle =>
                (fun i => (i, read_state (this w) "currentYear")) <$> accepted_id entry.2)
             (views (this w)) /\
    rendered evs
      = omap (fun entry : string * handle =>
                rendered_id (read_state (this w) "currentYear") entry.2)
             (views (this w)) /\
    invoked evs = [].
Proof.
  eexists. split; [apply updateAllViews_run|].
  split; [apply signalled_fanout|]. split; [apply rendered_fanout|apply invoked_fanout].
Qed.



(** ** [setValue("currentYear", n)] against [updateYear(n)] *)

Lemma events_of_triple {A} (r : completion A) (w : world) (evs : list event) :
  events_of (r, w, evs) = evs.
Proof. reflexivity. Qed.

Lemma world_of_triple {A} (r : completion A) (w : world) (evs : list event) :
  world_of (r, w, evs) = w.
Proof. reflexivity. Qed.






(** ** The year display *)

Lemma run_op_keeps_display (env : page) (o : op) (w : world) :
  (forall newYear, o <> UpdateYear newYear) ->
  (forall key value, o <> SetValue key value) ->
  o <> Init ->
  yearDisplay (world_of (run_op env o w)) = yearDisplay w.
Proof.
  intros Hu Hs Hi.
  assert (Hstore : forall h w0, yearDisplay (with_store h w0) = yearDisplay w0)
    by reflexivity.
  assert (Hviews : forall name view w0,
             yearDisplay (view_stored name view w0) = yearDisplay w0)
    by reflexivity.
  destruct o; cbn [run_op]; try reflexivity.
  - now destruct Hi.
  - now destruct (Hu newYear).
  - now apply (keeps_registerView yearDisplay).
  - apply (keeps_updateAllViews yearDisplay).
  - apply (keeps_triggerListeners yearDisplay).
  - now destruct (Hs key value).
  - apply (keeps_bind yearDisplay);
      [now apply keeps_prepareSpec|intros a; apply keeps_ret].
  - apply (keeps_bind yearDisplay);
      [now apply keeps_loadVisualization|intros a; apply keeps_ret].
Qed.

Lemma run_op_display_in_sync (env : page) (o : op) (w : world) :
  display_in_sync w ->
  display_kept o = true ->
  display_in_sync (world_of (run_op env o w)).
Proof.
  intros Hsync Hkept. unfold display_in_sync in *.
  destruct o as [|newYear| | | | | | | | |key value| |];
    try (rewrite run_op_keeps_display by discriminate;
         unfold read_state; rewrite run_op_keeps_state by discriminate;
         exact Hsync).
  - cbn [run_op]. unfold init, world_of. cbn [fst snd].
    destruct (yearSlider w), (yearDisplay w) eqn:Hd; cbn [yearDisplay this];
      rewrite ?Hd; auto.
  - cbn [run_op].
    destruct (js_ge newYear (read_state (this w) "startYear")
              && js_le newYear (read_state (this w) "endYear")) eqn:Hin.
    + rewrite (updateYear_accepts _ _ Hin), world_of_triple. cbn.
      destruct (yearDisplay w); cbn; [|exact I].
      unfold read_state. cbn. now rewrite lookup_insert_eq.
    + now rewrite (updateYear_rejects _ _ Hin).
  - cbn [run_op]. rewrite setValue_run, world_of_triple. cbn.
    cbn in Hkept. apply negb_true_iff, bool_decide_eq_false in Hkept.
    unfold read_state in *. now rewrite set_state_lookup_ne by congruence.
Qed.

(** X14: Once [init] has bound the controls (the page has both, or has no year
    display at all), the display shows [currentYear] after every sequence
    of calls of the public interface that contains no
    [setValue("currentYear", _)]: [updateYear] keeps the display in step
    with the state, and no other operation touches either. *)
Theorem display_follows_currentYear (env : page) (os : list op) (w : world) :
  is_Some (yearSlider w) \/ yearDisplay w = None ->
  forallb display_kept os = true ->
  display_in_sync (run_ops env os (world_of (init w))).
Proof.
  intros Hpage Hos.
  assert (H0 : display_in_sync (world_of (init w))).
  { unfold display_in_sync, init, world_of. cbn.
    destruct Hpage as [[sl Hsl]|Hno].
    - rewrite Hsl. destruct (yearDisplay w) eqn:Hd; cbn; [reflexivity|].
      now rewrite Hd.
    - rewrite Hno. destruct (yearSlider w); cbn; now rewrite Hno. }
  revert H0. generalize (world_of (init w)). clear Hpage.
  induction os as [|o os IH]; intros w0 Hw0; [exact Hw0|].
  cbn in Hos. apply andb_true_iff in Hos as [Ho Hos].
  cbn [run_ops]. apply IH; [exact Hos|].
  now apply run_op_display_in_sync.
Qed.

Lemma display_follows_currentYear_witness :
  (is_Some (yearSlider (initial_world (Some VUndefined) (Some VUndefined))) \/
   yearDisplay (initial_world (Some VUndefined) (Some VUndefined)) = None) /\
  forallb display_kept
    [UpdateYear (VNumber 2015); SetValue "endYear" (VNumber 2012);
     UpdateYear (VNumber 2020)] = true /\
  display_in_sync
    (run_ops offline_page
       [UpdateYear (VNumber 2015); SetValue "endYear" (VNumber 2012);
        UpdateYear (VNumber 2020)]
       (world_of (init (initial_world (Some VUndefined) (Some VUndefined))))).
Proof.
  assert (Hpage : is_Some (yearSlider (initial_world (Some VUndefined) (Some VUndefined))) \/
                  yearDisplay (initial_world (Some VUndefined) (Some VUndefined)) = None)
    by (left; eexists; reflexivity).
  split; [exact Hpage|]. split; [reflexivity|].
  exact (display_follows_currentYear offline_page
           [UpdateYear (VNumber 2015); SetValue "endYear" (VNumber 2012);
            UpdateYear (VNumber 2020)]
           (initial_world (Some VUndefined) (Some VUndefined)) Hpage eq_refl).
Defined.

(** The display is out of step after [setValue("currentYear", _)]. *)
Example setValue_leaves_display_behind :
  yearDisplay (world_of (setValue "currentYear" (VNumber 2015)
     (world_of (init (initial_world (Some VUndefined) (Some VUndefined))))))
    = Some (VNumber 2010) /\
  read_state (this (world_of (setValue "currentYear" (VNumber 2015)
     (world_of (init (initial_world (Some VUndefined) (Some VUndefined))))))) "currentYear"
    = VNumber 2015.
Proof. split; reflexivity. Qed.

(** X15: The bounds that [updateYear] tests are those currently in the state:
    after [setValue("endYear", e')], [updateYear(n)] stores [n] exactly
    when [n] lies between [startYear] and [e']. *)
Theorem setValue_moves_the_bounds (w : world) (s n e' : Z) :
  state (this w) !! "startYear" = Some (VNumber s) ->
  read_state
    (this (world_of (updateYear (VNumber n)
       (world_of (setValue "endYear" (VNumber e') w))))) "currentYear"
  = if bool_decide (s <= n <= e') then VNumber n
    else read_state (this w) "currentYear".
Proof.
  intros Hs. rewrite setValue_writes, world_of_triple by discriminate.
  set (w1 := state_written "endYear" (VNumber e') w).
  assert (Hs1 : state (this w1) !! "startYear" = Some (VNumber s))
    by (cbn; now rewrite lookup_insert_ne).
  assert (He1 : state (this w1) !! "endYear" = Some (VNumber e'))
    by (cbn; now rewrite lookup_insert_eq).
  pose proof (in_range_numbers (this w1) s e' n Hs1 He1) as Hrange.
  destruct (bool_decide (s <= n <= e')).
  - rewrite (updateYear_accepts _ _ Hrange), world_of_triple.
    unfold read_state. cbn. now rewrite lookup_insert_eq.
  - rewrite (updateYear_rejects _ _ Hrange), world_of_triple.
    unfold read_state. cbn. now rewrite lookup_insert_ne.
Qed.

Lemma setValue_moves_the_bounds_witness :
  state (this fresh_world) !! "startYear" = Some (VNumber 2005) /\
  read_state
    (this (world_of (updateYear (VNumber 2030)
       (world_of (setValue "endYear" (VNumber 2040) fresh_world))))) "currentYear"
  = VNumber 2030.
Proof.
  split; [reflexivity|].
  exact (setValue_moves_the_bounds fresh_world 2005 2030 2040 eq_refl).
Defined.

(** ** The copy made by [prepareSpec] *)

Lemma revive_reads_back (t : json) (h h' : heap) (v : hval) :
  revive t h = (h', v) ->
  h `prefix_of` h' /\ JSON_stringify h' v = Some (Some t).
Proof.
  intros Hrev. destruct (revive_copied _ _ _ _ Hrev) as [Hpre Hread].
  split; [exact Hpre|]. apply Hread; [intros l _; reflexivity|lia].
Qed.

(** X16: [JSON.parse(JSON.stringify(spec))], the first statement of
    [prepareSpec]: for every value that [JSON.stringify] can print, the
    copy reads as the same document as the original, which is left as it
    was; every object of the copy is new and refers to new objects only. *)
Theorem JSON_clone_roundtrip (spec : hval) (doc : json) (w : world) :
  JSON_stringify (store w) spec = Some (Some doc) ->
  exists v w',
    JSON_clone spec w = (Normal v, w', []) /\
    JSON_stringify (store w') v = Some (Some doc) /\
    JSON_stringify (store w') spec = Some (Some doc) /\
    store w `prefix_of` store w' /\
    hval_from (length (store w)) v /\
    fresh_from (length (store w)) (store w) (store w') /\
    this w' = this w.
Proof.
  intros Hser. destruct (revive doc (store w)) as [h' v] eqn:Hrev.
  destruct (revive_reads_back _ _ _ _ Hrev) as [Hpre Hback].
  destruct (revive_fresh (length (store w)) doc _ _ _ Hrev (le_n _)) as [Hv Hfresh].
  exists v, (with_store h' w).
  split; [exact (JSON_clone_run _ _ _ _ _ Hser Hrev)|].
  cbn [store with_store this]. repeat split; try assumption.
  unfold JSON_stringify in Hser |- *.
  apply (serialize_extend _ _ _ _ _ _ Hser Hpre). now apply prefix_length.
Qed.

Lemma JSON_clone_roundtrip_witness :
  JSON_stringify (store sample_world) (HRef 2%nat) = Some (Some sample_document) /\
  exists v w',
    JSON_clone (HRef 2%nat) sample_world = (Normal v, w', []) /\
    JSON_stringify (store w') v = Some (Some sample_document) /\
    JSON_stringify (store w') (HRef 2%nat) = Some (Some sample_document).
Proof.
  assert (Hser : JSON_stringify (store sample_world) (HRef 2%nat)
                 = Some (Some sample_document)) by reflexivity.
  split; [exact Hser|].
  destruct (JSON_clone_roundtrip (HRef 2%nat) sample_document sample_world Hser)
    as (v & w' & Hrun & Hcopy & Horig & _).
  exists v, w'. split; [exact Hrun|]. split; [exact Hcopy|exact Horig].
Defined.

(** ** What [prepareSpec] never touches *)

Section Quiet.
Context (w0 : world).

Lemma untouched_refl : untouched w0 w0.
Proof.
  do 4 (split; [reflexivity|]). intros l o Hl Hlook.
  apply lookup_lt_Some in Hlook. lia.
Qed.

Lemma untouched_store (h : heap) (w : world) :
  untouched w0 w ->
  store w0 `prefix_of` h ->
  fresh_from (length (store w0)) (store w0) h ->
  untouched w0 (with_store h w).
Proof. intros (Ht & Hs & Hd & _ & _) Hpre Hfresh. now repeat split. Qed.

Lemma quiet_ret {A} (a : A) (Q : A -> Prop) : Q a -> quiet w0 (ret a) Q.
Proof. intros Ha w Hw. cbn. auto. Qed.

Lemma quiet_bind {A B} (m : M A) (k : A -> M B) (Q : A -> Prop) (Q' : B -> Prop) :
  quiet w0 m Q -> (forall a, Q a -> quiet w0 (k a) Q') -> quiet w0 (bind m k) Q'.
Proof.
  intros Hm Hk w Hw. specialize (Hm w Hw). unfold bind.
  destruct (m w) as [[[a|e] w1] evs1]; [|exact Hm].
  destruct Hm as (Hw1 & Ha & ->). specialize (Hk a Ha w1 Hw1).
  destruct (k a w1) as [[[b|e] w2] evs2]; exact Hk.
Qed.

Lemma quiet_get_this : quiet w0 get_this (fun d => d = this w0).
Proof. intros w Hw. cbn. split; [exact Hw|]. split; [apply Hw|reflexivity]. Qed.

Lemma quiet_member (v : hval) (k : string) :
  hval_from (length (store w0)) v ->
  quiet w0 (member v k) (hval_from (length (store w0))).
Proof.
  intros Hv w Hw. unfold member.
  destruct (get_member (store w) v k) as [x|e] eqn:Hget; [|now split].
  split; [exact Hw|]. split; [|reflexivity].
  destruct Hw as (_ & _ & _ & _ & Hfresh).
  destruct v as [[| | | |]|s|l]; cbn in Hget; try discriminate;
    try (injection Hget as <-; exact I).
  cbn in Hv. destruct (store w !! l) as [[elems props|fields]|] eqn:Hl;
    [| |discriminate]; injection Hget as <-.
  - destruct (Hfresh l _ Hv Hl) as [_ Hprops].
    destruct (map_get k props) as [x|] eqn:Hk; [|exact I].
    apply map_get_split in Hk as (m1 & m2 & -> & _).
    apply Forall_app in Hprops as [_ Hprops]. now inversion Hprops.
  - pose proof (Hfresh l _ Hv Hl) as Hfields. cbn in Hfields.
    destruct (map_get k fields) as [x|] eqn:Hk; [|exact I].
    apply map_get_split in Hk as (m1 & m2 & -> & _).
    apply Forall_app in Hfields as [_ Hfields]. now inversion Hfields.
Qed.

Lemma untouched_insert (l : loc) (o o' : hobj) (w : world) :
  untouched w0 w ->
  (length (store w0) <= l)%nat ->
  store w !! l = Some o ->
  hobj_from (length (store w0)) o' ->
  untouched w0 (with_store (<[l := o']> (store w)) w).
Proof.
  intros Hw Hl Hlook Ho'. pose proof Hw as (_ & _ & _ & Hpre & Hfresh).
  apply untouched_store; [exact Hw| |].
  - destruct Hpre as [k Hk]. rewrite Hk. now apply heap_prefix_insert.
  - intros l' o'' Hl' Hlook'.
    destruct (decide (l' = l)) as [->|Hne].
    + rewrite list_lookup_insert_eq in Hlook' by (eapply lookup_lt_Some; eauto).
      now injection Hlook' as <-.
    + rewrite list_lookup_insert_ne in Hlook' by done. eauto.
Qed.

Lemma quiet_assign (v : hval) (k : string) (x : hval) :
  hval_from (length (store w0)) v ->
  hval_from (length (store w0)) x ->
  quiet w0 (assign v k x) (fun _ => True).
Proof.
  intros Hv Hx w Hw. unfold assign.
  destruct (set_member (store w) v k x) as [h|e] eqn:Hset; [|now split].
  split; [|now split].
  pose proof Hw as (_ & _ & _ & _ & Hfresh).
  destruct v as [[| | | |]|s|l]; cbn in Hset; try discriminate.
  cbn in Hv. destruct (store w !! l) as [[elems props|fields]|] eqn:Hl;
    [| |discriminate]; injection Hset as <-.
  - apply (untouched_insert l _ _ w Hw Hv Hl).
    destruct (Hfresh l _ Hv Hl) as [Helems Hprops].
    split; [exact Helems|]. now apply Forall_map_set.
  - apply (untouched_insert l _ _ w Hw Hv Hl).
    pose proof (Hfresh l _ Hv Hl) as Hfields. now apply Forall_map_set.
Qed.

Lemma quiet_unshift (params x : hval) :
  hval_from (length (store w0)) params ->
  hval_from (length (store w0)) x ->
  quiet w0 (unshift params x) (fun _ => True).
Proof.
  intros Hv Hx w Hw. unfold unshift.
  destruct (array_unshift (store w) params x) as [h|e] eqn:Hset; [|now split].
  split; [|now split].
  pose proof Hw as (_ & _ & _ & _ & Hfresh).
  destruct params as [p|s|l]; cbn in Hset; try discriminate.
  cbn in Hv. destruct (store w !! l) as [[elems props|fields]|] eqn:Hl;
    try discriminate; injection Hset as <-.
  apply (untouched_insert l _ _ w Hw Hv Hl).
  destruct (Hfresh l _ Hv Hl) as [Helems Hprops].
  split; [now constructor|exact Hprops].
Qed.

Lemma quiet_alloc (o : hobj) :
  hobj_from (length (store w0)) o ->
  quiet w0 (alloc o) (hval_from (length (store w0))).
Proof.
  intros Ho w Hw. unfold alloc. pose proof Hw as (_ & _ & _ & Hpre & Hfresh).
  pose proof (prefix_length _ _ Hpre) as Hlen.
  split; [|split; [exact Hlen|reflexivity]].
  apply untouched_store; [exact Hw|now apply prefix_app_r|].
  intros l o' Hl Hlook.
  apply lookup_snoc_Some in Hlook as [[_ Hlook]|[_ <-]]; eauto.
Qed.

Lemma find_globalYear_In (h : heap) (elems : list hval) (p : hval) :
  find_globalYear h elems = Normal (Some p) -> In p elems.
Proof.
  induction elems as [|x elems IH]; cbn; [discriminate|].
  destruct (get_member h x "name") as [name|e]; [|discriminate].
  destruct name as [q|s|l]; try (intros H; right; exact (IH H)).
  destruct (decide (s = "globalYear")); [|intros H; right; exact (IH H)].
  intros [= ->]. now left.
Qed.

Lemma quiet_find (params : hval) :
  hval_from (length (store w0)) params ->
  quiet w0 (find params) (found_from (length (store w0))).
Proof.
  intros Hv w Hw. unfold find.
  destruct (array_find (store w) params) as [r|e] eqn:Hfind; [|now split].
  split; [exact Hw|]. split; [|reflexivity].
  destruct r as [p|]; [|exact I]. cbn.
  pose proof Hw as (_ & _ & _ & _ & Hfresh).
  destruct params as [q|s|l]; cbn in Hfind; try discriminate.
  cbn in Hv. destruct (store w !! l) as [[elems props|fields]|] eqn:Hl;
    try discriminate.
  destruct (Hfresh l _ Hv Hl) as [Helems _].
  apply find_globalYear_In in Hfind.
  rewrite List.Forall_forall in Helems. now apply Helems.
Qed.

Lemma quiet_JSON_clone (spec : hval) :
  quiet w0 (JSON_clone spec) (hval_from (length (store w0))).
Proof.
  intros w Hw. unfold JSON_clone, JSON_parse.
  destruct (JSON_stringify (store w) spec) as [[doc|]|]; [|now split|now split].
  destruct (revive doc (store w)) as [h' v] eqn:Hrev.
  pose proof Hw as (_ & _ & _ & Hpre & Hfresh).
  pose proof (prefix_length _ _ Hpre) as Hlen.
  destruct (revive_copied _ _ _ _ Hrev) as [Hpre' _].
  destruct (revive_fresh (length (store w0)) doc _ _ _ Hrev Hlen) as [Hv Hfresh'].
  split; [|split; [exact Hv|reflexivity]].
  apply untouched_store; [exact Hw|exact (heap_prefix_trans _ _ _ Hpre Hpre')|].
  intros l o Hl Hlook.
  destruct (decide (l < length (store w))%nat) as [Hlt|Hge].
  - apply (Hfresh l o Hl). now rewrite (prefix_lookup_lt _ _ _ Hlt Hpre').
  - apply (Hfresh' l o); [lia|exact Hlook].
Qed.

Lemma quiet_inject (params : hval) (cur : prim) :
  hval_from (length (store w0)) params ->
  quiet w0
    (let! entry := alloc (HObj [("name", HStr "globalYear"); ("value", HPrim cur)]) in
     unshift params entry)
    (fun _ => True).
Proof.
  intros Hp. eapply quiet_bind.
  - apply quiet_alloc. repeat constructor.
  - intros entry Hentry. now apply quiet_unshift.
Qed.

Lemma quiet_prepareSpec (spec : hval) :
  quiet w0 (prepareSpec spec) (hval_from (length (store w0))).
Proof.
  unfold prepareSpec.
  eapply quiet_bind; [apply quiet_JSON_clone|]. intros preparedSpec Hroot.
  eapply quiet_bind; [now apply quiet_member|]. intros params0 _.
  eapply (quiet_bind _ _ (fun _ => True)).
  { destruct (truthy_hval params0); [now apply quiet_ret|].
    eapply quiet_bind; [apply quiet_alloc; repeat constructor|].
    intros empty Hempty. now apply quiet_assign. }
  intros _ _.
  eapply quiet_bind; [now apply quiet_member|]. intros params Hparams.
  eapply quiet_bind; [now apply quiet_find|]. intros found Hfound.
  eapply quiet_bind; [apply quiet_get_this|]. intros d _.
  eapply (quiet_bind _ _ (fun _ => True)); [|intros _ _; now apply quiet_ret].
  destruct found as [p|]; [|now apply quiet_inject].
  destruct (truthy_hval p); [|now apply quiet_inject].
  apply quiet_assign; [exact Hfound|exact I].
Qed.
End Quiet.

(** X17: Whatever it is given and whether it returns or throws, [prepareSpec]
    changes no object that existed before the call (the heap only grows,
    and the new objects refer to new objects only), leaves the mediator
    and the page controls as they were, and makes no call on a view, a
    listener or the console; an object it returns is a new one. *)
Theorem prepareSpec_never_mutates (spec : hval) (w : world) :
  store w `prefix_of` store (world_of (prepareSpec spec w)) /\
  fresh_from (length (store w)) (store w) (store (world_of (prepareSpec spec w))) /\
  this (world_of (prepareSpec spec w)) = this w /\
  yearSlider (world_of (prepareSpec spec w)) = yearSlider w /\
  yearDisplay (world_of (prepareSpec spec w)) = yearDisplay w /\
  events_of (prepareSpec spec w) = [] /\
  match result_of (prepareSpec spec w) with
  | Normal v => hval_from (length (store w)) v
  | Throw _ => True
  end.
Proof.
  pose proof (quiet_prepareSpec w spec w (untouched_refl w)) as H.
  destruct (prepareSpec spec w) as [[[v|e] w'] evs];
    unfold world_of, events_of, result_of; cbn [fst snd].
  - destruct H as ((Ht & Hs & Hd & Hpre & Hfresh) & Hv & ->).
    repeat split; assumption.
  - destruct H as ((Ht & Hs & Hd & Hpre & Hfresh) & ->).
    repeat split; assumption.
Qed.

(** ** Preparing a prepared specification *)

Lemma map_set_set {V} (k : string) (v v' : V) (m : list (string * V)) :
  map_set k v' (map_set k v m) = map_set k v' m.
Proof.
  induction m as [|[k' x] m IH]; cbn.
  - now rewrite decide_True.
  - destruct (decide (k = k')) as [->|Hne]; cbn.
    + now rewrite decide_True.
    + rewrite decide_False by done. now rewrite IH.
Qed.

Lemma with_value_twice (cur : prim) (xs : list (string * json)) :
  cur <> VUndefined ->
  with_value cur (with_value cur xs) = with_value cur xs.
Proof.
  intros Hcur. unfold with_value.
  destruct cur; cbn; try apply map_set_set. now destruct Hcur.
Qed.

Lemma update_globalYear_at (cur : prim) (es1 : list json) (xs : list (string * json))
    (es2 : list json) :
  Forall (fun entry => is_globalYear entry = false) es1 ->
  is_globalYear (JObj xs) = true ->
  update_globalYear cur (es1 ++ JObj xs :: es2)
    = Some (es1 ++ JObj (with_value cur xs) :: es2).
Proof.
  intros Hes1 Hxs. induction Hes1 as [|entry es1 Hentry _ IH].
  - cbn [app update_globalYear]. now rewrite Hxs.
  - cbn [app update_globalYear]. rewrite IH, Hentry. now destruct entry.
Qed.

Lemma is_globalYear_entry (cur : prim) : is_globalYear (globalYear_entry cur) = true.
Proof. reflexivity. Qed.

Lemma inject_globalYear_twice (cur : prim) (doc : json) :
  cur <> VUndefined ->
  inject_globalYear cur (inject_globalYear cur doc) = inject_globalYear cur doc.
Proof.
  intros Hcur. destruct doc as [| | | | |ms]; try reflexivity.
  cbn [inject_globalYear]. rewrite map_get_set, map_set_set.
  set (es := match map_get "params" ms with Some (JArr es) => es | _ => [] end).
  destruct (update_globalYear cur es) as [es'|] eqn:Hup.
  - apply update_globalYear_found in Hup as (es1 & xs & es2 & _ & -> & Hxs & Hes1).
    rewrite update_globalYear_at;
      [|exact Hes1|now rewrite is_globalYear_with_value].
    now rewrite with_value_twice.
  - pose proof (update_globalYear_at cur [] _ es (Forall_nil_2 _)
                  (is_globalYear_entry cur)) as Hagain.
    cbn [app] in Hagain. unfold globalYear_entry. rewrite Hagain.
    destruct cur; reflexivity.
Qed.

Lemma forallb_is_object_update (cur : prim) (es es' : list json) :
  forallb is_object es = true ->
  update_globalYear cur es = Some es' ->
  forallb is_object es' = true.
Proof.
  intros Hes Hup.
  apply update_globalYear_found in Hup as (es1 & xs & es2 & -> & -> & _ & _).
  rewrite forallb_app in Hes |- *. exact Hes.
Qed.

Lemma configuration_inject (cur : prim) (doc : json) :
  configuration doc = true -> configuration (inject_globalYear cur doc) = true.
Proof.
  destruct doc as [| | | | |ms]; try discriminate. cbn [configuration inject_globalYear].
  intros Hconf. rewrite map_get_set.
  destruct (map_get "params" ms) as [[| | | |es|]|]; try discriminate Hconf.
  - destruct (update_globalYear cur es) as [es'|] eqn:Hup.
    + exact (forallb_is_object_update cur es es' Hconf Hup).
    + exact Hconf.
  - reflexivity.
Qed.

(** On the documents of the wire format, [prepareSpec] returns a new
    object that reads as the document with the parameter injected. *)
Lemma prepareSpec_prepared (w : world) (spec : hval) (doc : json) :
  JSON_stringify (store w) spec = Some (Some doc) ->
  configuration doc = true ->
  exists l g,
    prepared_as w spec (inject_globalYear (read_state (this w) "currentYear") doc) l g.
Proof.
  intros Hser Hconf. destruct doc as [| | | | |ms]; try discriminate Hconf.
  cbn in Hconf |- *.
  destruct (map_get "params" ms) as [[| | | |es|]|] eqn:Hparams;
    try discriminate Hconf.
  - exact (prepareSpec_uses_params w spec ms es Hser Hparams Hconf).
  - cbn [update_globalYear]. rewrite (map_set_absent _ _ _ Hparams).
    exact (prepareSpec_creates_params w spec ms Hser Hparams).
Qed.

Lemma serialized_object_exists (n : nat) (g : heap) (l : loc) (r : option json) :
  serialize n g (HRef l) = Some r -> (l < length g)%nat.
Proof.
  destruct n as [|n]; cbn; [discriminate|].
  destruct (g !! l) as [o|] eqn:Hl; [|discriminate].
  intros _. now apply lookup_lt_Some in Hl.
Qed.

(** X18: Preparing a prepared specification changes nothing more: on a document
    of the wire format and with a current year that is defined, a second
    [prepareSpec] applied to the result of the first returns another new
    object, which reads as the same document as the first result; the
    first result is not modified by the second call. *)
Theorem prepareSpec_idempotent (w : world) (spec : hval) (doc : json) :
  JSON_stringify (store w) spec = Some (Some doc) ->
  configuration doc = true ->
  read_state (this w) "currentYear" <> VUndefined ->
  exists l g l' g',
    prepareSpec spec w = (Normal (HRef l), with_store g w, []) /\
    prepareSpec (HRef l) (with_store g w) = (Normal (HRef l'), with_store g' w, []) /\
    JSON_stringify g (HRef l)
      = Some (Some (inject_globalYear (read_state (this w) "currentYear") doc)) /\
    JSON_stringify g' (HRef l')
      = Some (Some (inject_globalYear (read_state (this w) "currentYear") doc)) /\
    JSON_stringify g' (HRef l)
      = Some (Some (inject_globalYear (read_state (this w) "currentYear") doc)) /\
    (l < l')%nat.
Proof.
  intros Hser Hconf Hcur.
  destruct (prepareSpec_prepared w spec doc Hser Hconf)
    as (l & g & Hrun & Hpre & Hl & Hfresh & Hread & _).
  pose proof (configuration_inject (read_state (this w) "currentYear") doc Hconf) as Hconf'.
  destruct (prepareSpec_prepared (with_store g w) (HRef l) _ Hread Hconf')
    as (l' & g' & Hrun' & Hpre' & Hl' & _ & Hread' & _).
  cbn [store this with_store] in Hrun', Hpre', Hl', Hread'.
  rewrite (inject_globalYear_twice _ _ Hcur) in Hread'.
  exists l, g, l', g'.
  split; [exact Hrun|]. split; [exact Hrun'|]. split; [exact Hread|].
  split; [exact Hread'|]. split.
  - unfold JSON_stringify. apply (serialize_extend _ _ _ _ _ _ Hread Hpre').
    now apply prefix_length.
  - apply serialized_object_exists in Hread. lia.
Qed.

Lemma prepareSpec_idempotent_witness :
  JSON_stringify (store sample_world) (HRef 2%nat) = Some (Some sample_document) /\
  configuration sample_document = true /\
  read_state (this sample_world) "currentYear" <> VUndefined /\
  exists l g l' g',
    prepareSpec (HRef 2%nat) sample_world = (Normal (HRef l), with_store g sample_world, []) /\
    prepareSpec (HRef l) (with_store g sample_world)
      = (Normal (HRef l'), with_store g' sample_world, []) /\
    JSON_stringify g (HRef l) = JSON_stringify g' (HRef l').
Proof.
  assert (Hser : JSON_stringify (store sample_world) (HRef 2%nat)
                 = Some (Some sample_document)) by reflexivity.
  assert (Hconf : configuration sample_document = true) by reflexivity.
  assert (Hcur : read_state (this sample_world) "currentYear" <> VUndefined)
    by discriminate.
  split; [exact Hser|]. split; [exact Hconf|]. split; [exact Hcur|].
  destruct (prepareSpec_idempotent sample_world (HRef 2%nat) sample_document
              Hser Hconf Hcur)
    as (l & g & l' & g' & Hrun & Hrun' & Hread & Hread' & _).
  exists l, g, l', g'. split; [exact Hrun|]. split; [exact Hrun'|].
  now rewrite Hread, Hread'.
Defined.

(** ** What [prepareSpec] rejects *)

Lemma bind_raises {A B} (m : M A) (k : A -> M B) (w : world) (e : exn) :
  result_of (m w) = Throw e -> result_of (bind m k w) = Throw e.
Proof.
  unfold bind, result_of. destruct (m w) as [[[a|e'] w1] evs1]; cbn; [discriminate|].
  now intros [= ->].
Qed.

Lemma revive_truthy_non_array (t : json) (h h' : heap) (v : hval) (g : heap) :
  revive t h = (h', v) ->
  truthy_non_array t = true ->
  h' `prefix_of` g ->
  truthy_hval v = true /\
  array_find g v = Throw "TypeError: preparedSpec.params.find is not a function".
Proof.
  intros Hrev Ht Hpre. destruct t as [|b|n|s|items|members]; try discriminate Ht.
  - injection Hrev as <- <-. now split.
  - injection Hrev as <- <-. now split.
  - injection Hrev as <- <-. now split.
  - rewrite revive_JObj in Hrev.
    destruct (revive_members members h) as [h1 fs]. injection Hrev as <- <-.
    split; [reflexivity|]. cbn.
    rewrite (prefix_lookup_Some (h1 ++ [HObj fs]) g (length h1) (HObj fs));
      [reflexivity| |exact Hpre].
    now rewrite lookup_app_r, Nat.sub_diag by lia.
Qed.

(** X19: A specification whose [params] member is truthy and is not an array
    (an object, a non-empty string, a number other than 0, [true]) makes
    [prepareSpec] throw: the member is kept as it is, and it has no [find]
    method. *)
Theorem prepareSpec_rejects_params_without_find (spec : hval)
    (ms : list (string * json)) (t : json) (w : world) :
  JSON_stringify (store w) spec = Some (Some (JObj ms)) ->
  map_get "params" ms = Some t ->
  truthy_non_array t = true ->
  result_of (prepareSpec spec w)
    = Throw "TypeError: preparedSpec.params.find is not a function".
Proof.
  intros Hser Hparams Ht.
  destruct (revive (JObj ms) (store w)) as [g root] eqn:Hrev.
  pose proof (JSON_clone_run spec _ w g root Hser Hrev) as Hclone.
  rewrite revive_JObj in Hrev.
  destruct (revive_members ms (store w)) as [h1 fs] eqn:Hms. injection Hrev as <- <-.
  apply map_get_split in Hparams as (ms1 & ms2 & -> & Hms1).
  apply revive_members_split in Hms
    as (ha & hb & fs1 & v & fs2 & Hfs1 & Hv & Hfs2 & ->).
  pose proof (revive_members_get_none _ _ _ _ _ Hfs1 Hms1) as Hnone.
  destruct (revive_members_copied _ _ _ _ Hfs2) as [Hpre _].
  destruct (revive_truthy_non_array t ha hb v (h1 ++ [HObj (fs1 ++ ("params", v) :: fs2)])
              Hv Ht) as [Htruthy Hfind].
  { apply (heap_prefix_trans _ _ _ Hpre). now apply prefix_app_r. }
  set (w1 := with_store (h1 ++ [HObj (fs1 ++ ("params", v) :: fs2)]) w) in *.
  assert (Hmember : member (HRef (length h1)) "params" w1 = (Normal v, w1, [])).
  { apply member_run. cbn.
    rewrite lookup_app_r, Nat.sub_diag by lia. cbn.
    now rewrite (map_get_middle _ _ _ _ Hnone). }
  unfold prepareSpec. step Hclone.
  step Hmember. rewrite Htruthy.
  rewrite (bind_silent _ _ w1 tt w1 eq_refl).
  step Hmember.
  apply bind_raises. unfold find, result_of. cbn [store with_store fst].
  exact Hfind.
Qed.

Lemma prepareSpec_rejects_params_without_find_witness :
  JSON_stringify (store malformed_world) (HRef 1%nat)
    = Some (Some (JObj [("params", JObj [])])) /\
  map_get "params" [("params", JObj [])] = Some (JObj []) /\
  truthy_non_array (JObj []) = true /\
  result_of (prepareSpec (HRef 1%nat) malformed_world)
    = Throw "TypeError: preparedSpec.params.find is not a function".
Proof.
  assert (Hser : JSON_stringify (store malformed_world) (HRef 1%nat)
                 = Some (Some (JObj [("params", JObj [])]))) by reflexivity.
  split; [exact Hser|]. split; [reflexivity|]. split; [reflexivity|].
  exact (prepareSpec_rejects_params_without_find (HRef 1%nat) [("params", JObj [])]
           (JObj []) malformed_world Hser eq_refl eq_refl).
Defined.

(** X20: [prepareSpec] throws on every value that is not an object:
    [undefined] cannot be parsed back, [null] (and NaN, which is printed
    as [null]) has no member to read, and a number, a boolean or a string
    cannot be given a [params] member in strict code. *)
Theorem prepareSpec_rejects_primitives (spec : hval) (w : world) :
  is_primitive spec = true ->
  result_of (prepareSpec spec w) =
    Throw match spec with
          | HPrim VUndefined => "SyntaxError: undefined is not valid JSON"
          | HPrim VNull | HPrim VNaN =>
              "TypeError: cannot read properties of null or undefined"
          | _ => "TypeError: cannot create property on a primitive"
          end.
Proof.
  intros Hprim. unfold prepareSpec.
  destruct spec as [p|s|l]; [| |discriminate Hprim].
  - assert (Hclone : forall t, json_of_prim p = Some t ->
              JSON_clone (HPrim p) w = (Normal (revive t (store w)).2, w, [])).
    { intros t Ht. unfold JSON_clone, JSON_parse, JSON_stringify.
      destruct (length (store w)); destruct p; cbn in Ht |- *; try discriminate;
        injection Ht as <-; destruct w; reflexivity. }
    destruct p as [| |b|n|].
    + apply bind_raises. unfold JSON_clone, JSON_stringify.
      now destruct (length (store w)).
    + step (Hclone _ eq_refl). now apply bind_raises.
    + step (Hclone _ eq_refl). cbn [revive snd].
      rewrite (bind_silent _ _ _ (HPrim VUndefined) _ eq_refl). cbn [truthy_hval truthy].
      now apply bind_raises.
    + step (Hclone _ eq_refl). cbn [revive snd].
      rewrite (bind_silent _ _ _ (HPrim VUndefined) _ eq_refl). cbn [truthy_hval truthy].
      now apply bind_raises.
    + step (Hclone _ eq_refl). now apply bind_raises.
  - assert (Hclone : JSON_clone (HStr s) w = (Normal (HStr s), w, [])).
    { unfold JSON_clone, JSON_parse, JSON_stringify.
      destruct (length (store w)); destruct w; reflexivity. }
    step Hclone.
    rewrite (bind_silent _ _ _ (HPrim VUndefined) _ eq_refl). cbn [truthy_hval truthy].
    now apply bind_raises.
Qed.

Lemma prepareSpec_rejects_primitives_witness :
  is_primitive (HPrim (VNumber 5)) = true /\
  result_of (prepareSpec (HPrim (VNumber 5)) fresh_world)
    = Throw "TypeError: cannot create property on a primitive".
Proof.
  split; [reflexivity|].
  exact (prepareSpec_rejects_primitives (HPrim (VNumber 5)) fresh_world eq_refl).
Defined.

(** ** [loadVisualization] from the request to the registry *)

(** With a configuration served, the chart is instantiated from a new
    object that reads as the document with the parameter injected, and the
    rest of the call is [registerView] followed by a message. *)
Lemma loadVisualization_pipeline (env : page) (containerId specPath viewName : string)
    (w : world) (resp : response) (doc : json) :
  fetch env specPath = Normal resp ->
  body resp = Normal doc ->
  configuration doc = true ->
  exists l g,
    JSON_stringify g (HRef l)
      = Some (Some (inject_globalYear (read_state (this w) "currentYear") doc)) /\
    store w `prefix_of` g /\
    loadVisualization env containerId specPath viewName w =
      match vegaEmbed env containerId g (HRef l) with
      | Throw e =>
          (Throw e, with_store g w,
           [CallFetch specPath; CallEmbed containerId;
            ConsoleError (MsgLoadError viewName e)])
      | Normal result =>
          let '(r, w', evs) := after_embed viewName result (with_store g w) in
          (r, w', CallFetch specPath :: CallEmbed containerId :: evs)
      end.
Proof.
  intros Hfetch Hbody Hconf.
  destruct (revive doc (store w)) as [h1 v] eqn:Hrev.
  destruct (revive_reads_back _ _ _ _ Hrev) as [Hpre1 Hread1].
  destruct (prepareSpec_prepared (with_store h1 w) v doc Hread1 Hconf)
    as (l & g & Hrun & Hpre & _ & _ & Hread & _).
  cbn [store this with_store] in Hrun, Hpre, Hread.
  exists l, g. split; [exact Hread|]. split; [exact (heap_prefix_trans _ _ _ Hpre1 Hpre)|].
  unfold loadVisualization, try_catch.
  rewrite (bind_normal _ _ w tt w [CallFetch specPath]) by reflexivity.
  rewrite (bind_normal _ _ w resp w []) by (unfold await; now rewrite Hfetch).
  rewrite (bind_normal _ _ w doc w []) by (unfold await; now rewrite Hbody).
  rewrite (bind_normal _ _ w v (with_store h1 w) [])
    by (unfold JSON_parse; now rewrite Hrev).
  rewrite (bind_normal _ _ _ _ _ _ Hrun).
  change (with_store g (with_store h1 w)) with (with_store g w).
  rewrite (bind_normal _ _ (with_store g w) tt (with_store g w) [CallEmbed containerId])
    by reflexivity.
  rewrite (bind_normal _ _ (with_store g w) g (with_store g w) []) by reflexivity.
  cbv beta.
  destruct (vegaEmbed env containerId g (HRef l)) as [result|e] eqn:Hembed.
  - rewrite (bind_normal _ _ (with_store g w) result (with_store g w) [])
      by reflexivity.
    unfold after_embed.
    destruct (registerView viewName (view result) (with_store g w))
      as [[[[]|e] w3] evs] eqn:Hreg.
    + rewrite (bind_normal _ _ _ _ _ _ Hreg). reflexivity.
    + rewrite (bind_throw _ _ _ _ _ _ Hreg). reflexivity.
  - rewrite (bind_throw _ _ (with_store g w) e (with_store g w) []) by reflexivity.
    reflexivity.
Qed.

(** X21: When the document served is a configuration and the chart made from
    the prepared specification renders, [loadVisualization] returns what
    [vegaEmbed] resolved with and the view is registered under [viewName]:
    it has received the current year once and has been run once, between
    the request and the two messages of success; the other names of the
    registry, the state and the listeners are as before. *)
Theorem loadVisualization_registers (env : page) (containerId specPath viewName : string)
    (w : world) (resp : response) (doc : json) (result : embed_result)
    (v : view_obj) (sig : string -> prim -> outcome) :
  fetch env specPath = Normal resp ->
  body resp = Normal doc ->
  configuration doc = true ->
  (forall h p,
     JSON_stringify h p
       = Some (Some (inject_globalYear (read_state (this w) "currentYear") doc)) ->
     vegaEmbed env containerId h p = Normal result) ->
  view result = Handle v ->
  view_signal v = Some sig ->
  sig "globalYear" (read_state (this w) "currentYear") = Returns ->
  view_run v = Some Returns ->
  exists w',
    loadVisualization env containerId specPath viewName w =
      (Normal result, w',
       [CallFetch specPath; CallEmbed containerId;
        CallSignal (view_id v) "globalYear" (read_state (this w) "currentYear");
        CallRun (view_id v);
        ConsoleLog (MsgViewRegistered viewName); ConsoleLog (MsgLoaded viewName)]) /\
    map_get viewName (views (this w')) = Some (Handle v) /\
    (forall other, other <> viewName ->
       map_get other (views (this w')) = map_get other (views (this w))) /\
    state (this w') = state (this w) /\
    listeners (this w') = listeners (this w) /\
    store w `prefix_of` store w'.
Proof.
  intros Hfetch Hbody Hconf Hembed Hview Hsig Hsignal Hrun.
  destruct (loadVisualization_pipeline env containerId specPath viewName w resp doc
              Hfetch Hbody Hconf) as (l & g & Hread & Hpre & Hload).
  rewrite (Hembed g (HRef l) Hread) in Hload. unfold after_embed in Hload.
  rewrite Hview, (registerView_run viewName v sig _ Hsig) in Hload.
  cbn [this with_store] in Hload. rewrite Hsignal, Hrun in Hload.
  eexists. split; [exact Hload|]. cbn.
  split; [apply map_get_set|]. split; [|now split].
  intros other Hne. now apply map_get_set_ne.
Qed.

Lemma loadVisualization_registers_witness :
  exists w',
    loadVisualization (serving_page sample_document (Handle (chart 7)))
      "#vis" "spec.json" "bars" fresh_world =
      (Normal {| view := Handle (chart 7) |}, w',
       [CallFetch "spec.json"; CallEmbed "#vis";
        CallSignal 7 "globalYear" (VNumber 2010); CallRun 7;
        ConsoleLog (MsgViewRegistered "bars"); ConsoleLog (MsgLoaded "bars")]) /\
    map_get "bars" (views (this w')) = Some (Handle (chart 7)).
Proof.
  destruct (loadVisualization_registers (serving_page sample_document (Handle (chart 7)))
              "#vis" "spec.json" "bars" fresh_world
              {| body := Normal sample_document |} sample_document
              {| view := Handle (chart 7) |} (chart 7) steady
              eq_refl eq_refl eq_refl (fun _ _ _ => eq_refl) eq_refl eq_refl eq_refl eq_refl)
    as (w' & Hload & Hstored & _).
  exists w'. split; [exact Hload|exact Hstored].
Defined.

(** X22: A chart whose first rendering fails makes [loadVisualization] report
    the failure with [viewName] and throw it again, with no message of
    success; the view has been stored by then and stays in the registry. *)
Theorem loadVisualization_failed_render_stays_registered (env : page)
    (containerId specPath viewName : string)
    (w : world) (resp : response) (doc : json) (result : embed_result)
    (v : view_obj) (sig : string -> prim -> outcome) (e : exn) :
  fetch env specPath = Normal resp ->
  body resp = Normal doc ->
  configuration doc = true ->
  (forall h p,
     JSON_stringify h p
       = Some (Some (inject_globalYear (read_state (this w) "currentYear") doc)) ->
     vegaEmbed env containerId h p = Normal result) ->
  view result = Handle v ->
  view_signal v = Some sig ->
  push_failure (read_state (this w) "currentYear") (Handle v) = Some e ->
  exists w' evs,
    loadVisualization env containerId specPath viewName w =
      (Throw e, w',
       CallFetch specPath :: CallEmbed containerId
         :: evs ++ [ConsoleError (MsgLoadError viewName e)]) /\
    Forall (fun ev => is_view_call ev = true) evs /\
    map_get viewName (views (this w')) = Some (Handle v) /\
    state (this w') = state (this w) /\
    listeners (this w') = listeners (this w).
Proof.
  intros Hfetch Hbody Hconf Hembed Hview Hsig Hfail.
  destruct (loadVisualization_pipeline env containerId specPath viewName w resp doc
              Hfetch Hbody Hconf) as (l & g & Hread & Hpre & Hload).
  rewrite (Hembed g (HRef l) Hread) in Hload. unfold after_embed in Hload.
  rewrite Hview, (registerView_run viewName v sig _ Hsig) in Hload.
  cbn [this with_store] in Hload. cbn [push_failure] in Hfail. rewrite Hsig in Hfail.
  destruct (sig "globalYear" (read_state (this w) "currentYear")) as [|e1].
  - destruct (view_run v) as [[|e2]|]; [discriminate Hfail| |]; injection Hfail as <-.
    + eexists _, [_; _]. split; [exact Hload|]. cbn.
      split; [|split; [apply map_get_set|now split]].
      now repeat constructor.
    + eexists _, [_]. split; [exact Hload|]. cbn.
      split; [|split; [apply map_get_set|now split]].
      now repeat constructor.
  - injection Hfail as <-.
    eexists _, [_]. split; [exact Hload|]. cbn.
    split; [|split; [apply map_get_set|now split]].
    now repeat constructor.
Qed.

Lemma loadVisualization_failed_render_stays_registered_witness :
  push_failure (read_state (this fresh_world) "currentYear")
    (Handle (chart_run_throws 7)) = Some "render failed" /\
  exists w' evs,
    loadVisualization (serving_page sample_document (Handle (chart_run_throws 7)))
      "#vis" "spec.json" "bars" fresh_world =
      (Throw "render failed", w',
       CallFetch "spec.json" :: CallEmbed "#vis"
         :: evs ++ [ConsoleError (MsgLoadError "bars" "render failed")]) /\
    map_get "bars" (views (this w')) = Some (Handle (chart_run_throws 7)).
Proof.
  split; [reflexivity|].
  destruct (loadVisualization_failed_render_stays_registered
              (serving_page sample_document (Handle (chart_run_throws 7)))
              "#vis" "spec.json" "bars" fresh_world
              {| body := Normal sample_document |} sample_document
              {| view := Handle (chart_run_throws 7) |} (chart_run_throws 7) steady
              "render failed"
              eq_refl eq_refl eq_refl (fun _ _ _ => eq_refl) eq_refl eq_refl eq_refl)
    as (w' & evs & Hload & _ & Hstored & _).
  exists w', evs. split; [exact Hload|exact Hstored].
Defined.

(** X23: When [vegaEmbed] resolves with a result whose [view] is not accepted
    by [registerView], [loadVisualization] still reports success and
    returns the result: the console shows the message about the invalid
    view and then the message of success, and the registry is unchanged. *)
Theorem loadVisualization_succeeds_without_view (env : page)
    (containerId specPath viewName : string)
    (w : world) (resp : response) (doc : json) (result : embed_result) :
  fetch env specPath = Normal resp ->
  body resp = Normal doc ->
  configuration doc = true ->
  (forall h p,
     JSON_stringify h p
       = Some (Some (inject_globalYear (read_state (this w) "currentYear") doc)) ->
     vegaEmbed env containerId h p = Normal result) ->
  accepted (view result) = false ->
  exists w',
    loadVisualization env containerId specPath viewName w =
      (Normal result, w',
       [CallFetch specPath; CallEmbed containerId;
        ConsoleError (MsgInvalidView viewName); ConsoleLog (MsgLoaded viewName)]) /\
    this w' = this w.
Proof.
  intros Hfetch Hbody Hconf Hembed Hview.
  destruct (loadVisualization_pipeline env containerId specPath viewName w resp doc
              Hfetch Hbody Hconf) as (l & g & Hread & Hpre & Hload).
  rewrite (Hembed g (HRef l) Hread) in Hload. unfold after_embed in Hload.
  assert (Hreg : registerView viewName (view result) (with_store g w)
                 = (Normal tt, with_store g w, [ConsoleError (MsgInvalidView viewName)])).
  { unfold registerView. destruct (view result) as [|v]; [reflexivity|].
    cbn in Hview. now destruct (view_signal v). }
  rewrite Hreg in Hload. eexists. split; [exact Hload|reflexivity].
Qed.

Lemma loadVisualization_succeeds_without_view_witness :
  accepted (Handle (chart_without_signal 7)) = false /\
  exists w',
    loadVisualization (serving_page sample_document (Handle (chart_without_signal 7)))
      "#vis" "spec.json" "bars" fresh_world =
      (Normal {| view := Handle (chart_without_signal 7) |}, w',
       [CallFetch "spec.json"; CallEmbed "#vis";
        ConsoleError (MsgInvalidView "bars"); ConsoleLog (MsgLoaded "bars")]) /\
    this w' = this fresh_world.
Proof.
  split; [reflexivity|].
  exact (loadVisualization_succeeds_without_view
           (serving_page sample_document (Handle (chart_without_signal 7)))
           "#vis" "spec.json" "bars" fresh_world
           {| body := Normal sample_document |} sample_document
           {| view := Handle (chart_without_signal 7) |}
           eq_refl eq_refl eq_refl (fun _ _ _ => eq_refl) eq_refl).
Defined.

(** ** What [loadVisualization] can change *)

Lemma world_of_bind {A B} (m : M A) (k : A -> M B) (w : world) :
  world_of (bind m k w) =
    match result_of (m w) with
    | Normal a => world_of (k a (world_of (m w)))
    | Throw _ => world_of (m w)
    end.
Proof.
  unfold bind, world_of, result_of.
  destruct (m w) as [[[a|e] w1] evs1]; cbn; [|reflexivity].
  now destruct (k a w1) as [[r w2] evs2].
Qed.

Lemma world_of_await {A B} (c : completion A) (k : A -> M B) (w : world) :
  world_of (bind (await c) k w) =
    match c with
    | Normal a => world_of (k a w)
    | Throw _ => w
    end.
Proof. rewrite world_of_bind. now destruct c. Qed.

Lemma world_of_emit {B} (ev : event) (k : unit -> M B) (w : world) :
  world_of (bind (emit ev) k w) = world_of (k tt w).
Proof. now rewrite world_of_bind. Qed.

Lemma world_of_get_store {B} (k : heap -> M B) (w : world) :
  world_of (bind get_store k w) = world_of (k (store w) w).
Proof. now rewrite world_of_bind. Qed.

Lemma world_of_try_catch {A} (m : M A) (handler : exn -> M A) (w : world) :
  (forall e w1, world_of (handler e w1) = w1) ->
  world_of (try_catch m handler w) = world_of (m w).
Proof.
  intros Hhandler. unfold try_catch, world_of.
  destruct (m w) as [[[a|e] w1] evs1]; cbn; [reflexivity|].
  specialize (Hhandler e w1). unfold world_of in Hhandler.
  now destruct (handler e w1) as [[r w2] evs2].
Qed.

Lemma untouched_JSON_parse (w0 w : world) (doc : json) :
  untouched w0 w -> untouched w0 (world_of (JSON_parse doc w)).
Proof.
  intros Hw. unfold JSON_parse, world_of.
  destruct (revive doc (store w)) as [h' v] eqn:Hrev. cbn.
  pose proof Hw as (_ & _ & _ & Hpre & Hfresh).
  pose proof (prefix_length _ _ Hpre) as Hlen.
  destruct (revive_copied _ _ _ _ Hrev) as [Hpre' _].
  destruct (revive_fresh (length (store w0)) doc _ _ _ Hrev Hlen) as [_ Hfresh'].
  apply untouched_store; [exact Hw|exact (heap_prefix_trans _ _ _ Hpre Hpre')|].
  intros l o Hl Hlook.
  destruct (decide (l < length (store w))%nat) as [Hlt|Hge].
  - apply (Hfresh l o Hl). now rewrite (prefix_lookup_lt _ _ _ Hlt Hpre').
  - apply (Hfresh' l o); [lia|exact Hlook].
Qed.

Lemma untouched_prepareSpec (w0 w : world) (spec : hval) :
  untouched w0 w -> untouched w0 (world_of (prepareSpec spec w)).
Proof.
  intros Hw. pose proof (quiet_prepareSpec w0 spec w Hw) as H.
  unfold world_of. destruct (prepareSpec spec w) as [[[v|e] w'] evs]; apply H.
Qed.

(** X24: Whatever the page answers and whether it returns or throws,
    [loadVisualization] leaves the state, the listeners and the page
    controls as they were and changes no object of the heap; in the
    registry it changes at most the entry [viewName], which it can only
    bind to a handle that [registerView] accepts. *)
Theorem loadVisualization_frame (env : page) (containerId specPath viewName : string)
    (w : world) :
  state (this (world_of (loadVisualization env containerId specPath viewName w)))
    = state (this w) /\
  listeners (this (world_of (loadVisualization env containerId specPath viewName w)))
    = listeners (this w) /\
  yearSlider (world_of (loadVisualization env containerId specPath viewName w))
    = yearSlider w /\
  yearDisplay (world_of (loadVisualization env containerId specPath viewName w))
    = yearDisplay w /\
  store w `prefix_of`
    store (world_of (loadVisualization env containerId specPath viewName w)) /\
  registry_grown viewName w
    (world_of (loadVisualization env containerId specPath viewName w)).
Proof.
  assert (Hframe : forall w', untouched w w' ->
            state (this w') = state (this w) /\
            listeners (this w') = listeners (this w) /\
            yearSlider w' = yearSlider w /\
            yearDisplay w' = yearDisplay w /\
            store w `prefix_of` store w' /\
            registry_grown viewName w w').
  { intros w' (Hthis & Hslider & Hdisplay & Hpre & _). rewrite Hthis.
    repeat split; try assumption. left. now rewrite Hthis. }
  unfold loadVisualization.
  rewrite world_of_try_catch by reflexivity.
  rewrite world_of_emit, world_of_await.
  destruct (fetch env specPath) as [resp|e]; [|apply Hframe, untouched_refl].
  rewrite world_of_await.
  destruct (body resp) as [doc|e]; [|apply Hframe, untouched_refl].
  rewrite world_of_bind.
  pose proof (untouched_JSON_parse w w doc (untouched_refl w)) as Hw1.
  assert (Hparsed : exists v, result_of (JSON_parse doc w) = Normal v).
  { unfold JSON_parse, result_of. destruct (revive doc (store w)) as [h' v].
    now exists v. }
  destruct Hparsed as [v ->].
  set (w1 := world_of (JSON_parse doc w)) in *.
  rewrite world_of_bind.
  pose proof (untouched_prepareSpec w w1 v Hw1) as Hw2.
  set (w2 := world_of (prepareSpec v w1)) in *.
  destruct (result_of (prepareSpec v w1)) as [p|e]; [|now apply Hframe].
  rewrite world_of_emit, world_of_get_store, world_of_await.
  destruct (vegaEmbed env containerId (store w2) p) as [result|e]; [|now apply Hframe].
  assert (Hrest : world_of
            ((registerView viewName (view result) >>
              emit (ConsoleLog (MsgLoaded viewName)) >> ret result) w2)
            = world_of (registerView viewName (view result) w2)).
  { rewrite world_of_bind.
    now destruct (result_of (registerView viewName (view result) w2)). }
  rewrite Hrest, registerView_world.
  destruct (accepted (view result)) eqn:Hacc; [|now apply Hframe].
  destruct Hw2 as (Hthis & Hslider & Hdisplay & Hpre & _).
  unfold registry_grown.
  cbn [view_stored this with_views state listeners views yearSlider yearDisplay store].
  rewrite Hthis. repeat split; try assumption.
  right. exists (view result). now split.
Qed.

(** ** The slider *)

Lemma run_op_keeps_slider (env : page) (o : op) (w : world) :
  slider_kept o = true ->
  yearSlider (world_of (run_op env o w)) = yearSlider w.
Proof.
  intros Hkept.
  assert (Hstore : forall h w0, yearSlider (with_store h w0) = yearSlider w0)
    by reflexivity.
  assert (Hviews : forall name view w0,
             yearSlider (view_stored name view w0) = yearSlider w0)
    by reflexivity.
  destruct o as [|newYear| | | | | | | | |key value| |]; cbn [run_op];
    try reflexivity.
  - discriminate Hkept.
  - destruct (js_ge newYear (read_state (this w) "startYear")
              && js_le newYear (read_state (this w) "endYear")) eqn:Hin.
    + now rewrite (updateYear_accepts _ _ Hin), world_of_triple.
    + now rewrite (updateYear_rejects _ _ Hin).
  - now apply (keeps_registerView yearSlider).
  - apply (keeps_updateAllViews yearSlider).
  - apply (keeps_triggerListeners yearSlider).
  - now rewrite setValue_run, world_of_triple.
  - apply (keeps_bind yearSlider);
      [now apply keeps_prepareSpec|intros a; apply keeps_ret].
  - apply (keeps_bind yearSlider);
      [now apply keeps_loadVisualization|intros a; apply keeps_ret].
Qed.

(** X25: Only [init] writes the slider: after any sequence of calls of the
    public interface that contains no [init], the slider holds the value
    it held before, whatever years have been stored meanwhile by
    [updateYear] or [setValue]. *)
Theorem slider_written_by_init_only (env : page) (os : list op) (w : world) :
  forallb slider_kept os = true ->
  yearSlider (run_ops env os w) = yearSlider w.
Proof.
  revert w. induction os as [|o os IH]; intros w Hos; [reflexivity|].
  cbn in Hos. apply andb_true_iff in Hos as [Ho Hos].
  cbn [run_ops]. rewrite (IH _ Hos). now apply run_op_keeps_slider.
Qed.

Lemma slider_written_by_init_only_witness :
  forallb slider_kept [UpdateYear (VNumber 2015); SetValue "currentYear" (VNumber 2020)]
    = true /\
  yearSlider
    (run_ops offline_page
       [UpdateYear (VNumber 2015); SetValue "currentYear" (VNumber 2020)]
       (world_of (init (initial_world (Some VUndefined) (Some VUndefined)))))
    = yearSlider (world_of (init (initial_world (Some VUndefined) (Some VUndefined)))).
Proof.
  split; [reflexivity|].
  exact (slider_written_by_init_only offline_page
           [UpdateYear (VNumber 2015); SetValue "currentYear" (VNumber 2020)]
           (world_of (init (initial_world (Some VUndefined) (Some VUndefined))))
           eq_refl).
Defined.

(** The slider is out of step after a call of [updateYear] from code. *)
Example updateYear_leaves_slider_behind :
  yearSlider (world_of (updateYear (VNumber 2015)
     (world_of (init (initial_world (Some VUndefined) (Some VUndefined))))))
    = Some (VNumber 2010) /\
  yearDisplay (world_of (updateYear (VNumber 2015)
     (world_of (init (initial_world (Some VUndefined) (Some VUndefined))))))
    = Some (VNumber 2015).
Proof. split; reflexivity. Qed.

(** * The dispatch over the live array *)

Section LiveDispatch.
Context (calls : Live.reentry).

Lemma same_but_listeners_refl (w : world) : same_but_listeners w w.
Proof. now repeat split. Qed.

Lemma same_but_listeners_trans (w1 w2 w3 : world) :
  same_but_listeners w1 w2 -> same_but_listeners w2 w3 -> same_but_listeners w1 w3.
Proof.
  intros (Hs & Hp & Hv & Hsl & Hd & Hh) (Hs' & Hp' & Hv' & Hsl' & Hd' & Hh').
  repeat split; congruence.
Qed.

Lemma run_call_frame (c : Live.call) (w : world) :
  result_of (Live.run_call c w) = Normal tt /\
  events_of (Live.run_call c w) = [] /\
  same_but_listeners w (world_of (Live.run_call c w)).
Proof. destruct c; repeat split. Qed.

Lemma run_calls_frame (cs : list Live.call) (w : world) :
  exists w',
    forEach Live.run_call cs w = (Normal tt, w', []) /\ same_but_listeners w w'.
Proof.
  revert w. induction cs as [|c cs IH]; intros w.
  - exists w. split; [reflexivity|apply same_but_listeners_refl].
  - destruct (run_call_frame c w) as (Hr & He & Hw).
    destruct (Live.run_call c w) as [[r w1] evs1] eqn:Hc.
    unfold result_of, events_of, world_of in Hr, He, Hw. cbn in Hr, He, Hw. subst r evs1.
    destruct (IH w1) as (w' & Hrun & Hw').
    exists w'. split; [|exact (same_but_listeners_trans _ _ _ Hw Hw')].
    cbn [forEach]. now rewrite (bind_normal _ _ _ _ _ _ Hc), Hrun.
Qed.

(** One callback: the events are those of a callback that makes no call;
    the world is the one left by its calls. *)
Lemma live_notify_run (name : string) (data : payload) (cb : callback) (w : world) :
  Live.notify calls name data cb w =
    (Normal tt, world_of (forEach Live.run_call (calls cb data) w),
     events_of (notify name data cb w)).
Proof.
  destruct (run_calls_frame (calls cb data) w) as (w' & Hrun & _).
  rewrite notify_events.
  unfold Live.notify, Live.invoke, try_catch.
  rewrite (bind_normal _ _ w tt w [CallCallback (cb_id cb) data]) by reflexivity.
  rewrite (bind_normal _ _ _ _ _ _ Hrun), Hrun.
  destruct (cb_call cb data); reflexivity.
Qed.

Lemma live_notify_passive (name : string) (data : payload) (cb : callback) (w : world) :
  calls cb data = [] ->
  Live.notify calls name data cb w = notify name data cb w.
Proof.
  intros Hquiet. rewrite live_notify_run, Hquiet.
  destruct (notify_silent name data cb w) as [Hr Hw].
  destruct (notify name data cb w) as [[r w1] evs].
  unfold result_of, world_of in Hr, Hw. cbn in Hr, Hw. now subst.
Qed.

Lemma notify_dispatch_events (name : string) (data : payload) (cb : callback)
    (w : world) :
  Forall (dispatch_event name data) (events_of (notify name data cb w)).
Proof.
  rewrite notify_events. destruct (cb_call cb data); repeat constructor.
Qed.

(** The traversal returns normally whatever the callbacks do; it changes
    nothing but the listeners, and emits calls of callbacks with [data]
    and reports of their failures only. *)
Lemma live_visit_frame (name : string) (data : payload) (n : nat) :
  forall k w, exists w' evs,
    Live.visit calls name data k n w = (Normal tt, w', evs) /\
    same_but_listeners w w' /\
    Forall (dispatch_event name data) evs.
Proof.
  induction n as [|n IH]; intros k w.
  - exists w, []. split; [reflexivity|]. split; [apply same_but_listeners_refl|constructor].
  - cbn [Live.visit].
    assert (Hstep : exists w1 evs1,
              (let! d := get_this in
               match default [] (listeners d !! name) !! k with
               | Some cb => Live.notify calls name data cb
               | None => ret tt
               end) w = (Normal tt, w1, evs1) /\
              same_but_listeners w w1 /\ Forall (dispatch_event name data) evs1).
    { rewrite (bind_normal _ _ w (this w) w []) by reflexivity.
      destruct (default [] (listeners (this w) !! name) !! k) as [cb|].
      - rewrite live_notify_run. eexists _, _. split; [reflexivity|].
        split; [|apply notify_dispatch_events].
        destruct (run_calls_frame (calls cb data) w) as (w' & Hrun & Hw').
        now rewrite Hrun.
      - eexists _, _. split; [reflexivity|].
        split; [apply same_but_listeners_refl|constructor]. }
    destruct Hstep as (w1 & evs1 & Hstep & Hw1 & Hevs1).
    destruct (IH (S k) w1) as (w' & evs & Hrest & Hw' & Hevs).
    exists w', (evs1 ++ evs).
    rewrite (bind_normal _ _ _ _ _ _ Hstep), Hrest.
    split; [reflexivity|]. split; [exact (same_but_listeners_trans _ _ _ Hw1 Hw')|].
    now apply Forall_app.
Qed.

Lemma live_triggerListeners_frame (name : string) (data : payload) (w : world) :
  exists w' evs,
    Live.triggerListeners calls name data w = (Normal tt, w', evs) /\
    same_but_listeners w w' /\
    Forall (dispatch_event name data) evs.
Proof.
  unfold Live.triggerListeners.
  rewrite (bind_normal _ _ w (this w) w []) by reflexivity.
  destruct (listeners (this w) !! name) as [cbs|].
  - destruct (live_visit_frame name data (length cbs) 0%nat w)
      as (w' & evs & Hrun & Hw' & Hevs).
    exists w', evs. now rewrite Hrun.
  - exists w, []. split; [reflexivity|].
    split; [apply same_but_listeners_refl|constructor].
Qed.

(** For callbacks that make no call, the traversal of the live array is
    the traversal of the array as it was at the start. *)
Lemma live_visit_passive (name : string) (data : payload) (cbs : list callback)
    (w : world) :
  default [] (listeners (this w) !! name) = cbs ->
  Live.passive calls cbs ->
  forall n k, (k + n = length cbs)%nat ->
    Live.visit calls name data k n w = forEach (notify name data) (drop k cbs) w.
Proof.
  intros Hcbs Hquiet. induction n as [|n IH]; intros k Hk.
  - rewrite drop_ge by lia. reflexivity.
  - destruct (lookup_lt_is_Some_2 cbs k) as [cb Hcb]; [lia|].
    rewrite (drop_S _ _ _ Hcb). cbn [Live.visit forEach].
    destruct (notify_silent name data cb w) as [Hr Hw].
    destruct (notify name data cb w) as [[r w1] evs1] eqn:Hnotify.
    unfold result_of, world_of in Hr, Hw. cbn in Hr, Hw. subst r w1.
    assert (Hstep : (let! d := get_this in
                     match default [] (listeners d !! name) !! k with
                     | Some cb => Live.notify calls name data cb
                     | None => ret tt
                     end) w = (Normal tt, w, evs1)).
    { rewrite (bind_normal _ _ w (this w) w []) by reflexivity.
      rewrite Hcbs, Hcb, live_notify_passive, Hnotify; [reflexivity|].
      apply Hquiet. eapply list_elem_of_lookup_2, Hcb. }
    rewrite (bind_normal _ _ _ _ _ _ Hstep), (bind_normal _ _ _ _ _ _ Hnotify).
    now rewrite IH by lia.
Qed.

Lemma live_triggerListeners_passive (name : string) (data : payload) (w : world) :
  Live.passive calls (default [] (listeners (this w) !! name)) ->
  Live.triggerListeners calls name data w = triggerListeners name data w.
Proof.
  intros Hquiet. unfold Live.triggerListeners, triggerListeners.
  rewrite !(bind_normal _ _ w (this w) w []) by reflexivity.
  destruct (listeners (this w) !! name) as [cbs|] eqn:Hcbs; [|reflexivity].
  rewrite (live_visit_passive name data cbs w); [reflexivity| |exact Hquiet|lia].
  now rewrite Hcbs.
Qed.
End LiveDispatch.

(** ** [updateYear] and [setValue] over the live array *)

Section LiveOperations.
Context (calls : Live.reentry).

Lemma live_updateYear_rejects (newYear : prim) (w : world) :
  js_ge newYear (read_state (this w) "startYear")
    && js_le newYear (read_state (this w) "endYear") = false ->
  Live.updateYear calls newYear w = (Normal tt, w, []).
Proof.
  intros Hout. unfold Live.updateYear.
  rewrite (bind_normal _ _ w (this w) w []) by reflexivity.
  now rewrite Hout.
Qed.

Lemma live_updateYear_accepts (newYear : prim) (w w' : world) (evs : list event) :
  js_ge newYear (read_state (this w) "startYear")
    && js_le newYear (read_state (this w) "endYear") = true ->
  Live.triggerListeners calls "yearChange"
    (YearChange (read_state (this w) "currentYear") newYear) (year_stored newYear w)
    = (Normal tt, w', evs) ->
  Live.updateYear calls newYear w =
    (Normal tt, w',
     events_of (updateAllViews (year_stored newYear w)) ++ evs ++
     [ConsoleLog (MsgYearUpdated (read_state (this w) "currentYear") newYear)]).
Proof.
  intros Hin Hdispatch. unfold Live.updateYear.
  rewrite (bind_normal _ _ w (this w) w []) by reflexivity.
  rewrite Hin.
  rewrite (bind_normal _ _ w tt
    {| this := with_state (insert "currentYear" newYear) (this w);
       yearSlider := yearSlider w; yearDisplay := yearDisplay w;
       store := store w |} []) by reflexivity.
  rewrite (bind_normal _ _ _ tt (year_stored newYear w) []) by reflexivity.
  rewrite (bind_normal _ _ _ _ _ _ (updateAllViews_run _)).
  rewrite (bind_normal _ _ _ _ _ _ Hdispatch).
  rewrite updateAllViews_run.
  unfold emit, events_of. cbn. reflexivity.
Qed.

(** With listeners of ["yearChange"] that make no call on the mediator,
    [updateYear] over the live array is [updateYear]. *)
Lemma live_updateYear_passive (newYear : prim) (w : world) :
  Live.passive calls (default [] (listeners (this w) !! "yearChange")) ->
  Live.updateYear calls newYear w = updateYear newYear w.
Proof.
  intros Hquiet.
  destruct (js_ge newYear (read_state (this w) "startYear")
            && js_le newYear (read_state (this w) "endYear")) eqn:Hin.
  - rewrite (updateYear_accepts _ _ Hin).
    apply (live_updateYear_accepts _ _ _ _ Hin).
    rewrite live_triggerListeners_passive by exact Hquiet.
    now rewrite triggerListeners_run.
  - now rewrite (updateYear_rejects _ _ Hin), (live_updateYear_rejects _ _ Hin).
Qed.

Lemma live_setValue_run (key : string) (value : prim) (w w' : world)
    (evs : list event) :
  Live.triggerListeners calls "stateChange"
    (StateChange key (get_state (this w) key) value) (state_assigned key value w)
    = (Normal tt, w', evs) ->
  Live.setValue calls key value w =
    (Normal tt, w',
     (if decide (key = "currentYear")
      then events_of (updateAllViews (state_assigned key value w)) else []) ++ evs).
Proof.
  intros Hdispatch. unfold Live.setValue.
  rewrite (bind_normal _ _ w (this w) w []) by reflexivity.
  rewrite (bind_normal _ _ w tt (state_assigned key value w) []) by reflexivity.
  destruct (decide (key = "currentYear")) as [->|Hne].
  - rewrite (bind_normal _ _ _ _ _ _ (updateAllViews_run _)).
    now rewrite updateAllViews_run, Hdispatch.
  - rewrite (bind_normal _ _ _ tt (state_assigned key value w) []) by reflexivity.
    now rewrite Hdispatch.
Qed.

Lemma live_setValue_passive (key : string) (value : prim) (w : world) :
  Live.passive calls (default [] (listeners (this w) !! "stateChange")) ->
  Live.setValue calls key value w = setValue key value w.
Proof.
  intros Hquiet. rewrite setValue_run.
  apply live_setValue_run.
  rewrite live_triggerListeners_passive, triggerListeners_run; [reflexivity|].
  cbn [state_assigned this]. now rewrite set_state_listeners.
Qed.

(** The callback registered first is notified first, whatever the
    callbacks do. *)
Lemma live_triggerListeners_first (name : string) (data : payload) (w : world) :
  head (invoked (events_of (Live.triggerListeners calls name data w)))
    = (fun cb => (cb_id cb, data)) <$> head (default [] (listeners (this w) !! name)).
Proof.
  unfold Live.triggerListeners.
  rewrite (bind_normal _ _ w (this w) w []) by reflexivity.
  destruct (listeners (this w) !! name) as [[|cb cbs]|] eqn:Hcbs; try reflexivity.
  cbn [length Live.visit default from_option head fmap option_fmap option_map].
  assert (Hstep : (let! d := get_this in
                   match default [] (listeners d !! name) !! 0%nat with
                   | Some cb => Live.notify calls name data cb
                   | None => ret tt
                   end) w =
                  (Normal tt, world_of (forEach Live.run_call (calls cb data) w),
                   events_of (notify name data cb w))).
  { rewrite (bind_normal _ _ w (this w) w []) by reflexivity.
    rewrite Hcbs. cbn. now rewrite live_notify_run. }
  rewrite (bind_normal _ _ _ _ _ _ Hstep).
  destruct (Live.visit calls name data 1 (length cbs)
              (world_of (forEach Live.run_call (calls cb data) w)))
    as [[r w'] evs].
  rewrite notify_events. reflexivity.
Qed.
End LiveOperations.

Lemma dispatch_events_invoked (name : string) (data : payload) (evs : list event) :
  Forall (dispatch_event name data) evs ->
  Forall (fun c : nat * payload => c.2 = data) (invoked evs) /\
  signalled evs = [] /\ rendered evs = [] /\ view_calls evs = [].
Proof.
  induction 1 as [|ev evs Hev _ (IHi & IHs & IHr & IHv)]; [now repeat split|].
  destruct ev as [| |i d| | |m|m]; try (now destruct Hev).
  - cbn in Hev. subst d. cbn. split; [now constructor|now repeat split].
  - destruct m; now destruct Hev.
Qed.

Lemma get_state_written (key : string) (value : prim) (d : DashboardState) :
  get_state (with_state (insert key value) d) key = Own value.
Proof. unfold get_state. cbn. now rewrite lookup_insert_eq. Qed.

(** The operations of the class are those over the live array when no
    callback calls the mediator. *)
Lemma live_passive_silent (cbs : list callback) : Live.passive Live.silent cbs.
Proof. intros cb data _. reflexivity. Qed.

Lemma live_triggerListeners_silent (name : string) (data : payload) (w : world) :
  Live.triggerListeners Live.silent name data w = triggerListeners name data w.
Proof. apply live_triggerListeners_passive, live_passive_silent. Qed.

Lemma live_updateYear_silent (newYear : prim) (w : world) :
  Live.updateYear Live.silent newYear w = updateYear newYear w.
Proof. apply live_updateYear_passive, live_passive_silent. Qed.

Lemma live_setValue_silent (key : string) (value : prim) (w : world) :
  Live.setValue Live.silent key value w = setValue key value w.
Proof. apply live_setValue_passive, live_passive_silent. Qed.

(** ** Listeners of the year *)

(** The proviso of C3 is needed: a callback that removes itself while it
    is notified moves the next callback to the index just visited, and
    [forEach] passes it over. *)
Example self_removing_listener_hides_next :
  registrations "yearChange" (cb_id probe)
    (this (world_of (addEventListener "yearChange" probe
       (world_of (addEventListener "yearChange" leaver fresh_world))))) = 1%nat /\
  invoked (events_of (Live.updateYear leaving (VNumber 2015)
    (world_of (addEventListener "yearChange" probe
       (world_of (addEventListener "yearChange" leaver fresh_world))))))
  = [(cb_id leaver, YearChange (VNumber 2010) (VNumber 2015))].
Proof. split; reflexivity. Qed.



(** ** [setValue] *)




(** ** Further properties of the dispatch and of the bag *)

Lemma listener_errors_notified (name : string) (data : payload) (w : world)
    (cbs : list callback) :
  listener_errors (concat (map (fun cb => events_of (notify name data cb w)) cbs))
    = omap (fun cb => (fun e => (name, e)) <$> callback_failure data cb) cbs.
Proof.
  induction cbs as [|cb cbs IH]; [reflexivity|].
  cbn [map concat]. rewrite listener_errors_app, IH, notify_events.
  cbn [omap list_omap]. unfold callback_failure at 2.
  destruct (cb_call cb data); reflexivity.
Qed.

(** X5: [triggerListeners] returns normally whether the callbacks return,
    throw, add listeners or remove listeners; it changes nothing but the
    listeners, makes no call on a view, gives every callback it invokes
    [data] and notifies first the callback registered first; when the callbacks
    registered for the event make no call on the mediator, it leaves the
    world as it is and invokes every one of them, in the order of
    registration and each with [data], whether the callbacks before it
    returned or threw, and the failures it reports are those of the
    callbacks that threw, in the same order. *)
Theorem triggerListeners_in_order (calls : Live.reentry) (name : string)
    (data : payload) (w : world) :
  exists w' evs,
    Live.triggerListeners calls name data w = (Normal tt, w', evs) /\
    same_but_listeners w w' /\
    view_calls evs = [] /\
    Forall (fun c : nat * payload => c.2 = data) (invoked evs) /\
    head (invoked evs)
      = ((fun cb => (cb_id cb, data)) <$> head (default [] (listeners (this w) !! name))) /\
    (Live.passive calls (default [] (listeners (this w) !! name)) ->
     w' = w /\
     invoked evs
       = map (fun cb => (cb_id cb, data)) (default [] (listeners (this w) !! name)) /\
     listener_errors evs
       = omap (fun cb => (fun e => (name, e)) <$> callback_failure data cb)
              (default [] (listeners (this w) !! name))).
Proof.
  destruct (live_triggerListeners_frame calls name data w)
    as (w' & evs & Hrun & Hframe & Hevs).
  pose proof (live_triggerListeners_first calls name data w) as Hfirst.
  rewrite Hrun, events_of_triple in Hfirst.
  destruct (dispatch_events_invoked _ _ _ Hevs) as (Hinv & _ & _ & Hvc).
  exists w', evs. split; [exact Hrun|]. split; [exact Hframe|].
  split; [exact Hvc|]. split; [exact Hinv|]. split; [exact Hfirst|].
  intros Hquiet.
  rewrite live_triggerListeners_passive, triggerListeners_run in Hrun by exact Hquiet.
  injection Hrun as <- <-. split; [reflexivity|]. split.
  - apply invoked_notified.
  - apply listener_errors_notified.
Qed.



Lemma getValue_run (key : string) (w : world) :
  getValue key w = (Normal (get_state (this w) key), w, []).
Proof. reflexivity. Qed.

(** X8: for a key other than ["__proto__"], [getValue(key)] after
    [setValue(key, value)] returns [value], the other keys read as before
    and [getState()] returns the own properties with the one key changed;
    a key that the bag does not hold reads as the member of that name of
    [Object.prototype] when there is one and the bag still has its
    prototype, and as [undefined] otherwise.  Reading changes nothing and
    emits nothing. *)
Theorem setValue_then_getValue (key : string) (value : prim) (w : world) :
  key <> "__proto__" ->
  getValue key (world_of (setValue key value w))
    = (Normal (Own value), world_of (setValue key value w), []) /\
  (forall other, other <> key ->
     result_of (getValue other (world_of (setValue key value w)))
     = result_of (getValue other w)) /\
  (forall other, state (this w) !! other = None ->
     other ∉ object_prototype_names ->
     result_of (getValue other w) = Normal (Own VUndefined)) /\
  (forall other, state (this w) !! other = None ->
     other ∈ object_prototype_names ->
     state_proto (this w) = ObjectPrototype ->
     result_of (getValue other w) = Normal (Inherited other)) /\
  getState (world_of (setValue key value w))
    = (Normal (<[key := value]> (state (this w))), world_of (setValue key value w), []).
Proof.
  intros Hkey. rewrite (setValue_writes _ _ _ Hkey). unfold world_of. cbn [fst snd].
  split; [|split; [|split; [|split]]].
  - rewrite getValue_run. cbn [state_written this]. now rewrite get_state_written.
  - intros other Hne. rewrite !getValue_run. unfold result_of, get_state. cbn.
    now rewrite lookup_insert_ne.
  - intros other Hnone Hother. rewrite getValue_run. unfold result_of. cbn.
    rewrite (get_state_ordinary _ _ Hother). unfold read_state. now rewrite Hnone.
  - intros other Hnone Hother Hproto. rewrite getValue_run.
    unfold result_of, get_state. cbn.
    now rewrite Hnone, Hproto, (bool_decide_eq_true_2 _ Hother).
  - reflexivity.
Qed.

Lemma setValue_then_getValue_witness :
  "toString" <> "__proto__" /\
  result_of (getValue "toString" fresh_world) = Normal (Inherited "toString") /\
  getValue "toString" (world_of (setValue "toString" (VNumber 7) fresh_world))
    = (Normal (Own (VNumber 7)),
       world_of (setValue "toString" (VNumber 7) fresh_world), []).
Proof.
  assert (Hkey : "toString" <> "__proto__") by discriminate.
  split; [exact Hkey|]. split; [reflexivity|].
  exact (proj1 (setValue_then_getValue "toString" (VNumber 7) fresh_world Hkey)).
Defined.

(** The assignments to ["__proto__"]: [null] takes the prototype away, so
    that the inherited names read as [undefined] and the key becomes an
    ordinary one. *)
Example setValue_proto_null :
  result_of (getValue "toString"
               (world_of (setValue "__proto__" VNull fresh_world)))
    = Normal (Own VUndefined) /\
  result_of (getValue "__proto__"
               (world_of (setValue "__proto__" (VNumber 1)
                  (world_of (setValue "__proto__" VNull fresh_world)))))
    = Normal (Own (VNumber 1)).
Proof. split; reflexivity. Qed.
